(** * Doodlebugs and ants: the per-tick update engine of [doodlebug.cpp]

    A shallow embedding of the classes [Organism], [Ant], [Doodlebug] and
    [World], followed by the properties of the update engine, of
    [World::initialize] and of the destructor.  The output operators and the
    loop of [main] read and write streams and are not part of the embedding.

    Conventions of the embedding.
    - An [Organism*] is an address ([ptr]); [nullptr] is [None] in
      [option ptr].  Objects live in a [heap]; [new] asks the runtime for an
      address that is not live, [delete] removes the object from the heap.
      An address released by [delete] may be returned by a later [new].
    - [int] values are [Z].  Signed overflow is undefined in C++; the
      invariant below bounds every counter by its threshold, so no counter
      increment of a consistent world overflows.
    - [std::shuffle] and [operator new] are not defined by the program.  They
      are the two operations of the [Runtime] class: a shuffle returns some
      permutation, [new] returns some address that is not live.  Every
      property is proved for every runtime.
    - [rand()] is not defined by the program either: [initialize] takes
      the list of the values that its calls return.
    - Two fields are specification state, written and never read by the
      program: [serial] in an organism and [born] in the world.  They name
      the organism that lives at an address, which the address alone does
      not once addresses are reused. *)

From stdpp Require Import gmap list.
From Stdlib Require Import ZArith Lia.

Open Scope Z_scope.

(** ** Simulation constants *)

Definition INIT_ANTS : Z := 100.
Definition INIT_DOODLES : Z := 5.
Definition ANT_BREED : Z := 3.
Definition DOODLE_BREED : Z := 8.
Definition DOODLE_STARVE : Z := 3.

(** ** Organisms *)

Abbreviation ptr := positive (only parsing).

(** The dynamic type of an organism; [starveCount] is a member of
    [Doodlebug] only. *)
Inductive Kind :=
  | Ant
  | Doodlebug (starveCount : Z).

(** The members [x], [y], [breedCount] of [Organism], read through the
    accessors of the class.  The member [character] only serves printing and
    is determined by [kind].  [serial] is specification state: the number of
    organisms constructed before this one, the identity of the object
    whatever address it lives at. *)
Record Organism := mkOrganism {
  getX : Z;
  getY : Z;
  getBreedCount : Z;
  kind : Kind;
  serial : nat
}.

Definition isAnt (o : Organism) : bool :=
  match kind o with Ant => true | Doodlebug _ => false end.

Definition getStarveCount (o : Organism) : Z :=
  match kind o with Ant => 0 | Doodlebug s => s end.

(** [Organism::starve] returns false; [Doodlebug::starve] overrides it. *)
Definition starve (o : Organism) : bool :=
  match kind o with
  | Ant => false
  | Doodlebug s => DOODLE_STARVE <=? s
  end.

Definition breedThreshold (k : Kind) : Z :=
  match k with Ant => ANT_BREED | Doodlebug _ => DOODLE_BREED end.

Definition org_incBreed (o : Organism) : Organism :=
  mkOrganism (getX o) (getY o) (getBreedCount o + 1) (kind o) (serial o).

Definition org_resetBreed (o : Organism) : Organism :=
  mkOrganism (getX o) (getY o) 0 (kind o) (serial o).

Definition org_setPos (nx ny : Z) (o : Organism) : Organism :=
  mkOrganism nx ny (getBreedCount o) (kind o) (serial o).

(** Assignment to [starveCount]; only [Doodlebug] has the member. *)
Definition org_setStarve (s : Z) (o : Organism) : Organism :=
  match kind o with
  | Ant => o
  | Doodlebug _ => mkOrganism (getX o) (getY o) (getBreedCount o) (Doodlebug s) (serial o)
  end.

(** ** The runtime: random generators and the allocator *)

(** The three [static mt19937 gen] objects of [World::update],
    [Ant::update] and [Doodlebug::update]. *)
Inductive GenId := GenWorld | GenAnt | GenDoodlebug.

Class Runtime (R : Type) := {
  shuffle : GenId → ∀ {A : Type}, list A → R → list A * R;
  shuffle_perm : ∀ g A (l : list A) r, (shuffle g l r).1 ≡ₚ l;
  new : gset positive → R → positive * R;
  new_fresh : ∀ live r, (new live r).1 ∉ live
}.

(** ** The grid *)

Abbreviation OrgGrid := (list (list (option positive))) (only parsing).
Abbreviation Directions := (list (Z * Z)) (only parsing).

(** [grid[x][y]] *)
Definition cell (g : OrgGrid) (x y : Z) : option ptr :=
  match g !! Z.to_nat x with
  | Some row => match row !! Z.to_nat y with Some c => c | None => None end
  | None => None
  end.

(** [grid[x][y] = org] *)
Definition store (g : OrgGrid) (x y : Z) (org : option ptr) : OrgGrid :=
  alter (λ row, <[Z.to_nat y := org]> row) (Z.to_nat x) g.

(** [find] followed by [erase]: the first occurrence is removed. *)
Fixpoint erase (p : ptr) (l : list ptr) : list ptr :=
  match l with
  | [] => []
  | q :: l' => if decide (q = p) then l' else q :: erase p l'
  end.

Definition dirs : list (Z * Z) := [(0, 1); (0, -1); (1, 0); (-1, 0)].

Section World.

Context {R : Type} `{RT : Runtime R}.

(** ** The world

    [size], [age], [grid], [allOrgs] are the members of [World].  [heap]
    holds the organisms that [grid] and [allOrgs] point to.  [env] is the
    state of the runtime, [born] counts the organisms constructed so far
    (specification state, it gives each organism its [serial]). *)
Record World := mkWorld {
  size : Z;
  age : Z;
  grid : list (list (option positive));
  allOrgs : list positive;
  heap : gmap positive Organism;
  born : nat;
  env : R
}.

Definition with_grid (g : OrgGrid) (w : World) : World :=
  mkWorld (size w) (age w) g (allOrgs w) (heap w) (born w) (env w).

Definition with_allOrgs (l : list ptr) (w : World) : World :=
  mkWorld (size w) (age w) (grid w) l (heap w) (born w) (env w).

Definition with_heap (h : gmap positive Organism) (w : World) : World :=
  mkWorld (size w) (age w) (grid w) (allOrgs w) h (born w) (env w).

Definition with_env (e : R) (w : World) : World :=
  mkWorld (size w) (age w) (grid w) (allOrgs w) (heap w) (born w) e.

(** [World(int size)]: a [size] by [size] grid of null pointers. *)
Definition World_new (n : Z) (e : R) : World :=
  mkWorld n 0 (replicate (Z.to_nat n) (replicate (Z.to_nat n) None)) [] ∅ 0 e.

Definition inBounds (w : World) (x y : Z) : bool :=
  (0 <=? x) && (x <? size w) && (0 <=? y) && (y <? size w).

Definition getCell (w : World) (x y : Z) : option ptr :=
  if negb (inBounds w x y) then None else cell (grid w) x y.

Definition setCell (x y : Z) (org : option ptr) (w : World) : World :=
  if negb (inBounds w x y) then w else with_grid (store (grid w) x y org) w.

(** Removes the occupant from the grid and from [allOrgs], and deletes it. *)
Definition deleteCell (x y : Z) (w : World) : World :=
  if negb (inBounds w x y) then w
  else match cell (grid w) x y with
       | Some toDelete =>
           mkWorld (size w) (age w) (store (grid w) x y None)
                   (erase toDelete (allOrgs w)) (delete toDelete (heap w))
                   (born w) (env w)
       | None => w
       end.

(** The loop of [getNeighbors] over the direction table. *)
Fixpoint scanDirs (w : World) (x y : Z) (ds : list (Z * Z)) : Directions :=
  match ds with
  | [] => []
  | d :: ds' =>
      let nx := x + d.1 in
      let ny := y + d.2 in
      if inBounds w nx ny then (nx, ny) :: scanDirs w x y ds'
      else scanDirs w x y ds'
  end.

Definition getNeighbors (w : World) (x y : Z) : Directions :=
  scanDirs w x y dirs.

(** [new K(x, y)]: the runtime picks an address that is not live, the
    constructor sets [breedCount] to 0. *)
Definition construct (k : Kind) (x y : Z) (w : World) : ptr * World :=
  let '(a, e) := new (dom (heap w)) (env w) in
  (a, mkWorld (size w) (age w) (grid w) (allOrgs w)
              (<[a := mkOrganism x y 0 k (born w)]> (heap w))
              (S (born w)) e).

Definition push_back (p : ptr) (w : World) : World :=
  with_allOrgs (allOrgs w ++ [p]) w.

Definition createAnt (x y : Z) (w : World) : World :=
  match getCell w x y with
  | Some _ => w
  | None =>
      let '(a, w1) := construct Ant x y w in
      push_back a (setCell x y (Some a) w1)
  end.

Definition createDoodlebug (x y : Z) (w : World) : World :=
  match getCell w x y with
  | Some _ => w
  | None =>
      let '(d, w1) := construct (Doodlebug 0) x y w in
      push_back d (setCell x y (Some d) w1)
  end.

(** ** Members of [this]

    A read through a pointer that is not live is undefined in C++; the
    model reads 0 there.  The scheduler only calls [update] on registered
    organisms, which are live in every consistent world. *)
Definition this_X (w : World) (this : ptr) : Z :=
  from_option getX 0 (heap w !! this).
Definition this_Y (w : World) (this : ptr) : Z :=
  from_option getY 0 (heap w !! this).
Definition this_breedCount (w : World) (this : ptr) : Z :=
  from_option getBreedCount 0 (heap w !! this).
Definition this_starve (w : World) (this : ptr) : bool :=
  from_option starve false (heap w !! this).

Definition modify (f : Organism → Organism) (this : ptr) (w : World) : World :=
  with_heap (alter f this (heap w)) w.

Definition setPos (this : ptr) (nx ny : Z) : World → World :=
  modify (org_setPos nx ny) this.
Definition incBreed (this : ptr) : World → World := modify org_incBreed this.
Definition resetBreed (this : ptr) : World → World := modify org_resetBreed this.
Definition setStarve (this : ptr) (s : Z) : World → World :=
  modify (org_setStarve s) this.

(** [dynamic_cast<Ant *>(occupant)] is non-null. *)
Definition holdsAnt (w : World) (occupant : option ptr) : bool :=
  match occupant with
  | Some p => from_option isAnt false (heap w !! p)
  | None => false
  end.

Definition run_shuffle {A} (g : GenId) (l : list A) (w : World) : list A * World :=
  let '(l', e) := shuffle g l (env w) in (l', with_env e w).

(** ** The phases of an update *)

(** The body of the three movement branches: [this] takes the cell
    [(nx, ny)] and leaves its own. *)
Definition moveTo (this : ptr) (nx ny : Z) (w : World) : World :=
  let w1 := setCell nx ny (Some this) w in
  let w2 := setCell (this_X w1 this) (this_Y w1 this) None w1 in
  setPos this nx ny w2.

(** Movement: the first empty cell of [neighbors] is taken. The result
    tells whether the organism moved. *)
Fixpoint moveScan (this : ptr) (neighbors : Directions) (w : World) : World * bool :=
  match neighbors with
  | [] => (w, false)
  | (nx, ny) :: rest =>
      match getCell w nx ny with
      | None => (moveTo this nx ny w, true)
      | Some _ => moveScan this rest w
      end
  end.

(** Breeding placement: [create] is called on the first empty cell. *)
Fixpoint breedScan (create : Z → Z → World → World) (neighbors : Directions)
    (w : World) : World :=
  match neighbors with
  | [] => w
  | (nx, ny) :: rest =>
      match getCell w nx ny with
      | None => create nx ny w
      | Some _ => breedScan create rest w
      end
  end.

(** Predation: the first cell of [neighbors] that holds an ant is emptied
    with [deleteCell] and taken. The result is the flag [ate]. *)
Fixpoint eatScan (this : ptr) (neighbors : Directions) (w : World) : World * bool :=
  match neighbors with
  | [] => (w, false)
  | (nx, ny) :: rest =>
      if holdsAnt w (getCell w nx ny) then
        (setStarve this 0 (moveTo this nx ny (deleteCell nx ny w)), true)
      else eatScan this rest w
  end.

(** ** [Ant::update] *)
Definition Ant_update (this : ptr) (w : World) : World :=
  let neighbors := getNeighbors w (this_X w this) (this_Y w this) in
  let '(neighbors, w) := run_shuffle GenAnt neighbors w in
  let w := (moveScan this neighbors w).1 in
  let w := incBreed this w in
  if ANT_BREED <=? this_breedCount w this then
    let '(neighbors, w) := run_shuffle GenAnt neighbors w in
    let w := breedScan createAnt neighbors w in
    resetBreed this w
  else w.

(** ** [Doodlebug::update] *)
Definition Doodlebug_update (this : ptr) (w : World) : World :=
  if this_starve w this then deleteCell (this_X w this) (this_Y w this) w
  else
    let neighbors := getNeighbors w (this_X w this) (this_Y w this) in
    let '(neighbors, w) := run_shuffle GenDoodlebug neighbors w in
    let '(w, ate) := eatScan this neighbors w in
    let '(neighbors, w) :=
      if negb ate then
        let '(neighbors, w) := run_shuffle GenDoodlebug neighbors w in
        let w := (moveScan this neighbors w).1 in
        (neighbors, setStarve this (from_option getStarveCount 0 (heap w !! this) + 1) w)
      else (neighbors, w) in
    let w := incBreed this w in
    if DOODLE_BREED <=? this_breedCount w this then
      let '(neighbors, w) := run_shuffle GenDoodlebug neighbors w in
      let w := breedScan createDoodlebug neighbors w in
      resetBreed this w
    else w.

(** The virtual call of [update] on [o]. *)
Definition Organism_update (o : ptr) (w : World) : World :=
  match heap w !! o with
  | Some org =>
      match kind org with
      | Ant => Ant_update o w
      | Doodlebug _ => Doodlebug_update o w
      end
  | None => w
  end.

(** ** [World::update] *)

(** The loop over the snapshot: an entry that [find] does not locate in
    [allOrgs] is skipped. *)
Fixpoint runSnapshot (snapshot : list ptr) (w : World) : World :=
  match snapshot with
  | [] => w
  | o :: rest =>
      if decide (o ∈ allOrgs w) then runSnapshot rest (Organism_update o w)
      else runSnapshot rest w
  end.

Definition World_update (w : World) : World :=
  let w := mkWorld (size w) (age w + 1) (grid w) (allOrgs w) (heap w) (born w) (env w) in
  let snapshot := allOrgs w in
  let '(snapshot, w) := run_shuffle GenWorld snapshot w in
  runSnapshot snapshot w.

End World.

Arguments World R : clear implicits.

(** ** A scripted runtime

    An executable instance of [Runtime]: the state is a script of the
    choices still to be made.  A shuffle draws the next element at the
    index the script gives (modulo the number of elements left); [new]
    returns the address the script proposes when it is not live, and some
    address that is not live otherwise. *)
Module Script.

Record State := mkState {
  choices : list nat;
  addresses : list positive
}.

Fixpoint draw {A} (fuel : nat) (l : list A) (cs : list nat) : list A * list nat :=
  match fuel with
  | O => (l, cs)
  | S fuel' =>
      let i := (hd 0%nat cs `mod` length l)%nat in
      match l !! i with
      | Some v =>
          let '(t, cs') := draw fuel' (delete i l) (tl cs) in (v :: t, cs')
      | None => (l, cs)
      end
  end.

Definition shuffle_script (g : GenId) {A} (l : list A) (r : State) : list A * State :=
  let '(l', cs) := draw (length l) l (choices r) in
  (l', mkState cs (addresses r)).

Definition new_script (live : gset positive) (r : State) : positive * State :=
  match addresses r with
  | a :: rest =>
      (if decide (a ∈ live) then fresh live else a, mkState (choices r) rest)
  | [] => (fresh live, r)
  end.

Lemma draw_perm {A} fuel (l : list A) cs : (draw fuel l cs).1 ≡ₚ l.
Proof.
  revert l cs. induction fuel as [|fuel IH]; intros l cs; simpl; [done|].
  destruct (l !! _) as [v|] eqn:Hv; [|done].
  specialize (IH (delete (hd 0%nat cs `mod` length l)%nat l) (tl cs)).
  destruct (draw fuel _ _) as [t cs'] eqn:Hd. simpl in *.
  rewrite IH. symmetry. by apply delete_Permutation.
Qed.

#[export] Instance runtime : Runtime State.
Proof.
  refine {| shuffle := @shuffle_script; new := new_script |}.
  - intros g A l r. unfold shuffle_script.
    pose proof (draw_perm (length l) l (choices r)) as H.
    destruct (draw _ _ _). exact H.
  - intros live r. unfold new_script.
    destruct (addresses r) as [|a rest]; simpl; [apply is_fresh|].
    case_decide; [apply is_fresh|done].
Defined.

End Script.

(** * Vocabulary of the properties *)

Section Vocabulary.

Context {R : Type} `{RT : Runtime R}.
Implicit Types (w : World R) (this p q : positive) (o : Organism).

(** The grid is a [size] by [size] array. *)
Definition shaped w : Prop :=
  length (grid w) = Z.to_nat (size w) ∧
  ∀ row, row ∈ grid w → length row = Z.to_nat (size w).

(** ** The invariant of the engine

    [WorldInv] is the inductive invariant: the grid is square, the registry
    has no duplicate, lists exactly the live objects, every live object
    stands in the cell it records, every occupant of a cell is a live object
    that records this cell, and serial numbers identify live objects. *)
Record WorldInv w : Prop := {
  inv_shape : shaped w;
  inv_nodup : NoDup (allOrgs w);
  inv_registry : ∀ p, p ∈ allOrgs w ↔ is_Some (heap w !! p);
  inv_position : ∀ p o, heap w !! p = Some o → getCell w (getX o) (getY o) = Some p;
  inv_occupant : ∀ x y p, getCell w x y = Some p →
    ∃ o, heap w !! p = Some o ∧ getX o = x ∧ getY o = y;
  inv_serial : ∀ p o, heap w !! p = Some o → (serial o < born w)%nat;
  inv_identity : ∀ p q o o', heap w !! p = Some o → heap w !! q = Some o' →
    serial o = serial o' → p = q
}.

(** Counters stay below their thresholds between updates. *)
Definition counters_ok o : Prop :=
  0 ≤ getBreedCount o < breedThreshold (kind o) ∧
  0 ≤ getStarveCount o ≤ DOODLE_STARVE.

Definition CountersInv w : Prop := ∀ p o, heap w !! p = Some o → counters_ok o.

(** What the specification asks of a world: a cell holds one organism and an
    organism stands in one cell, every registered organism is stored in the
    cell of its recorded position, and every occupant is registered. *)
Definition Consistent w : Prop :=
  (∀ x y x' y' p, getCell w x y = Some p → getCell w x' y' = Some p →
     (x, y) = (x', y')) ∧
  (∀ p, p ∈ allOrgs w →
     ∃ o, heap w !! p = Some o ∧ getCell w (getX o) (getY o) = Some p) ∧
  (∀ x y p, getCell w x y = Some p → p ∈ allOrgs w).

Definition keeps_identity (f : Organism → Organism) : Prop :=
  ∀ o, getX (f o) = getX o ∧ getY (f o) = getY o ∧ serial (f o) = serial o.

(** The body shared by [createAnt], [createDoodlebug] and the two loops of
    [initialize]. *)
Definition place (k : Kind) (x y : Z) w : World R :=
  let '(a, w1) := construct k x y w in
  push_back a (setCell x y (Some a) w1).

Definition new_addr w : positive := (new (dom (heap w)) (env w)).1.

(** ** What an update may do to the objects

    [evolves this S w w']: from [w] to [w'] the grid keeps its size, and every
    object live in [w'] is either an object of [w] at the same address (the
    same organism; unchanged unless it is [this]; in the cell it had or in a
    cell of [S]), or an organism other than [this] constructed in between, at
    an address that [new] returned, in a cell of [S], with both counters
    at 0. *)
Definition newborn_in (q : positive) (S : list (Z * Z)) w w' o' : Prop :=
  (born w ≤ serial o')%nat ∧ (serial o' < born w')%nat ∧
  (getX o', getY o') ∈ S ∧ getBreedCount o' = 0 ∧ getStarveCount o' = 0 ∧
  ∃ live r, q = (new live r).1.

Definition evolves this (S : list (Z * Z)) w w' : Prop :=
  size w' = size w ∧ (born w ≤ born w')%nat ∧
  ∀ q o', heap w' !! q = Some o' →
    (∃ o, heap w !! q = Some o ∧ serial o' = serial o ∧
          (q ≠ this → o' = o) ∧
          ((getX o', getY o') = (getX o, getY o) ∨ (getX o', getY o') ∈ S))
    ∨ (q ≠ this ∧ newborn_in q S w w' o').

Definition fresh_kind (k : Kind) : Prop := k = Ant ∨ k = Doodlebug 0.

(** Every cell of [ns] is in bounds. *)
Definition inside w (ns : list (Z * Z)) : Prop :=
  ∀ c, c ∈ ns → inBounds w c.1 c.2 = true.

(** The two creation functions have the same shape. *)
Definition creates (create : Z → Z → World R → World R) (k : Kind) : Prop :=
  ∀ x y w, create x y w =
    match getCell w x y with Some _ => w | None => place k x y w end.

Definition bumped (threshold : Z) (b : Z) : Z :=
  if threshold <=? b + 1 then 0 else b + 1.

(** ** The breeding phase

    Both updates end with the same phase, up to the threshold, the
    generator and the creation function. *)
Definition breedPhase (create : Z → Z → World R → World R) (threshold : Z)
    (g : GenId) this (neighbors : list (Z * Z)) w : World R :=
  let w := incBreed this w in
  if threshold <=? this_breedCount w this then
    let '(neighbors, w) := run_shuffle g neighbors w in
    let w := breedScan create neighbors w in
    resetBreed this w
  else w.

(** Some cell of [ns] holds an ant. *)
Definition antAmong w (ns : list (Z * Z)) : bool :=
  existsb (λ c, holdsAnt w (getCell w c.1 c.2)) ns.

Definition Invariant w : Prop := WorldInv w ∧ CountersInv w.

(** ** Reachable worlds

    The worlds the program goes through: the constructor, then the
    placements of [initialize] (each iteration of its two loops draws
    in-bounds coordinates and runs the body of [createDoodlebug] or
    [createAnt]), then ticks. *)
Inductive reachable : World R → Prop :=
  | reach_new n e : reachable (World_new n e)
  | reach_doodlebug x y w :
      reachable w → inBounds w x y = true → reachable (createDoodlebug x y w)
  | reach_ant x y w :
      reachable w → inBounds w x y = true → reachable (createAnt x y w)
  | reach_tick w : reachable w → reachable (World_update w).

(** ** Which organisms a tick updates

    [invoked snapshot w] lists, in order, the serial numbers of the organisms
    on which the loop of [World::update] calls [update]. *)
Fixpoint invoked (snapshot : list positive) w : list nat :=
  match snapshot with
  | [] => []
  | o :: rest =>
      if decide (o ∈ allOrgs w) then
        match heap w !! o with
        | Some org => serial org :: invoked rest (Organism_update o w)
        | None => invoked rest (Organism_update o w)
        end
      else invoked rest w
  end.

(** The world in which the loop starts, and the shuffled snapshot. *)
Definition tickStart w : World R :=
  (run_shuffle GenWorld (allOrgs w)
     (mkWorld (size w) (age w + 1) (grid w) (allOrgs w) (heap w) (born w) (env w))).2.

Definition tickSnapshot w : list positive :=
  (run_shuffle GenWorld (allOrgs w)
     (mkWorld (size w) (age w + 1) (grid w) (allOrgs w) (heap w) (born w) (env w))).1.

(** The organism with serial number [k] was constructed and is no longer
    live. *)
Definition removed (k : nat) w : Prop :=
  (k < born w)%nat ∧ ∀ q o, heap w !! q = Some o → serial o ≠ k.

(** ** Who survives the update of another organism

    [persists this w w']: every live object of [w] other than [this] that
    is not an ant is still there, unchanged, in [w']. *)
Definition persists this w w' : Prop :=
  ∀ p o, p ≠ this → heap w !! p = Some o → isAnt o = false →
    heap w' !! p = Some o.

(** ** Empty cells among the neighbours *)

(** The cells of [ns] that are empty in [w]. *)
Definition emptyCells w (ns : list (Z * Z)) : list (Z * Z) :=
  filter (λ c, getCell w c.1 c.2 = None) ns.

(** Every live object of [w] other than [this] is still there, unchanged. *)
Definition untouched this w w' : Prop :=
  ∀ p o, p ≠ this → heap w !! p = Some o → heap w' !! p = Some o.


(** The empty cells next to the position recorded in [o]. *)
Definition emptyNeighbours w o : list (Z * Z) :=
  emptyCells w (getNeighbors w (getX o) (getY o)).


(** ** Where the objects of a world come from

    [descends ant w w']: every object of [w'] is either an object of [w],
    at the same address and of the same species, or was constructed in
    between and is an ant if [ant] and a doodlebug otherwise. *)
Definition descends (ant : bool) w w' : Prop :=
  (born w ≤ born w')%nat ∧
  ∀ q o', heap w' !! q = Some o' →
    (isAnt o' = ant ∧ (born w ≤ serial o')%nat) ∨
    (∃ o, heap w !! q = Some o ∧ isAnt o' = isAnt o ∧ serial o' = serial o).


(** ** A world without ants

    [ticksLeft o] bounds the number of ticks after which, in a world
    without ants, neither the doodlebug [o] nor a descendant of it is
    alive: it is removed in the tick after its [starveCount] has reached
    [DOODLE_STARVE], and if it can still reach [DOODLE_BREED] before, its
    offspring lives as long as a doodlebug that has just eaten. *)
Definition ticksLeft (o : Organism) : Z :=
  (DOODLE_STARVE + 1 - getStarveCount o) +
  (if DOODLE_BREED <=? getBreedCount o + (DOODLE_STARVE - getStarveCount o)
   then DOODLE_STARVE + 1 else 0).


(** ** Growth

    [grows w w']: from [w] to [w'] the registry has gained at most as many
    entries as organisms were constructed. *)
Definition grows w w' : Prop :=
  (born w ≤ born w')%nat ∧
  (length (allOrgs w') + born w ≤ length (allOrgs w) + born w')%nat.


End Vocabulary.

(** * The start and the end of a world *)

Section Lifecycle.

Context {R : Type} `{RT : Runtime R}.
Implicit Types (w : World R).

(** ** [World::initialize]

    The values returned by the successive calls of [rand()] are given as a
    list. A loop that has used them all and is still running [Spins]: it
    has not returned within these draws. [rand() % size] with [size] 0 is
    [Undefined]. The C++ operator [%] truncates, as [Z.rem]. *)
Inductive Outcome :=
  | Returns (w : World R) (rands : list Z)
  | Spins
  | Undefined.

(** One of the two [while] loops: [placed] organisms of kind [k] are in
    place, the loop runs until there are [limit]. *)
Fixpoint seedLoop (k : Kind) (limit : Z) (rands : list Z) (placed : Z) w : Outcome :=
  if limit <=? placed then Returns w rands
  else if size w =? 0 then Undefined
  else match rands with
       | rx :: ry :: rest =>
           let x := Z.rem rx (size w) in
           let y := Z.rem ry (size w) in
           match getCell w x y with
           | None => seedLoop k limit rest (placed + 1) (place k x y w)
           | Some _ => seedLoop k limit rest placed w
           end
       | _ => Spins
       end.

Definition initialize (rands : list Z) w : Outcome :=
  match seedLoop (Doodlebug 0) INIT_DOODLES rands 0 w with
  | Returns w1 rest => seedLoop Ant INIT_ANTS rest 0 w1
  | Spins => Spins
  | Undefined => Undefined
  end.

(** ** [World::~World]

    The two nested loops visit the cells row by row. [delete] of a null
    pointer does nothing; [delete] of a pointer that is not live is
    undefined ([None]). The result is what is left on the heap. *)
Definition cellsOf (n : Z) : list (Z * Z) :=
  r ← seqZ 0 n; (λ c, (r, c)) <$> seqZ 0 n.

Fixpoint deleteAll (cells : list (Z * Z)) (g : OrgGrid)
    (h : gmap positive Organism) : option (gmap positive Organism) :=
  match cells with
  | [] => Some h
  | c :: rest =>
      match cell g c.1 c.2 with
      | None => deleteAll rest g h
      | Some toDelete =>
          if decide (is_Some (h !! toDelete))
          then deleteAll rest g (delete toDelete h)
          else None
      end
  end.

Definition World_delete w : option (gmap positive Organism) :=
  deleteAll (cellsOf (size w)) (grid w) (heap w).

(** The cells that hold an organism, in the order of the destructor's loops. *)
Definition occupiedCells w : list (Z * Z) :=
  filter (λ c, is_Some (getCell w c.1 c.2)) (cellsOf (size w)).


(** The cell recorded by the object at address [p]. *)
Definition position w (p : positive) : Z * Z :=
  from_option (λ o, (getX o, getY o)) (0, 0) (heap w !! p).

(** What a loop of [initialize] has done when it returns: [n] organisms of
    kind [k] appended to the registry, nothing else changed. *)
Definition seeded (k : Kind) (n : Z) (rands rest : list Z) w w' : Prop :=
  reachable w' ∧ size w' = size w ∧ age w' = age w ∧
  (∃ news, allOrgs w' = allOrgs w ++ news ∧ Z.of_nat (length news) = n ∧
     ∀ p, p ∈ news → ∃ o, heap w' !! p = Some o ∧ kind o = k ∧
                          getBreedCount o = 0) ∧
  (∀ p o, heap w !! p = Some o → heap w' !! p = Some o) ∧
  (∃ used, rands = used ++ rest).


End Lifecycle.


(** * Concrete runs

    Worlds run on the scripted runtime. An empty script leaves every list
    in its order and gives [new] the address stdpp calls fresh. *)
Module Worlds.
Import Script.


Definition quiet : State := mkState [] [].

(** A doodlebug at (0,0) and an ant at (0,1) on a grid of side 2. *)
Definition predatorAndPrey : World State :=
  createAnt 0 1 (createDoodlebug 0 0 (World_new 2 quiet)).

(** An ant alone on a grid of side 1. *)
Definition loneAnt : World State := createAnt 0 0 (World_new 1 quiet).

(** A doodlebug alone on a grid of side 1, after three ticks. *)
Definition hungry : World State :=
  World_update (World_update (World_update
    (createDoodlebug 0 0 (World_new 1 quiet)))).

(** An ant in the middle of a grid of side 3, after two ticks. *)
Definition antAboutToBreed : World State :=
  World_update (World_update (createAnt 1 1 (World_new 3 quiet))).

(** A doodlebug at (1,2), ants at (0,1) and (3,3) on a grid of side 4,
    after two ticks. The script only intervenes twice: the doodlebug moves
    right in the second tick, and [new] is given the addresses 1, 2, 3 and
    then 3 again. *)
Definition recycling : State :=
  mkState (replicate 22 0%nat ++ [1%nat]) [1; 2; 3; 3]%positive.

Definition beforeTheMeal : World State :=
  World_update (World_update
    (createAnt 3 3 (createAnt 0 1 (createDoodlebug 1 2 (World_new 4 recycling))))).

(** A runtime whose [new] never returns the addresses 1, 2 and 3. *)
Definition reserved : gset positive := {[1; 2; 3]}%positive.

Definition new_elsewhere (live : gset positive) (r : State) : positive * State :=
  (fresh (live ∪ reserved), r).

Definition careful : Runtime State :=
  {| shuffle := @shuffle_script;
     shuffle_perm := @shuffle_perm State runtime;
     new := new_elsewhere;
     new_fresh := λ live r H,
       is_fresh (live ∪ reserved) (proj2 (elem_of_union _ _ _) (or_introl H)) |}.

(** The world of [main], and draws of [rand()] that end [initialize] on
    it: the cells are hit row by row, the first three of them twice. *)
Definition mainWorld : World State := World_new 20 quiet.

Definition draws : list Z :=
  (i ← seqZ 0 3; [40 + i / 20; 60 + i `mod` 20]) ++
  (i ← seqZ 0 105; [40 + i / 20; 60 + i `mod` 20]).


End Worlds.

(** * Properties *)

(** ** Lists: [erase] *)

Lemma elem_of_erase p q l : q ∈ erase p l → q ∈ l.
Proof.
  induction l as [|a l IH]; simpl; [done|].
  case_decide.
  - intros Hq. by right.
  - intros [->|Hq]%elem_of_cons; [by left|right; by apply IH].
Qed.

Lemma elem_of_erase_ne p q l : q ≠ p → q ∈ l → q ∈ erase p l.
Proof.
  intros Hne. induction l as [|a l IH]; simpl; [done|].
  case_decide.
  - intros [->|Hq]%elem_of_cons; [by subst|done].
  - intros [->|Hq]%elem_of_cons; [by left|right; by apply IH].
Qed.

Lemma NoDup_erase p l : NoDup l → NoDup (erase p l).
Proof.
  induction 1 as [|a l Ha Hl IH]; simpl; [constructor|].
  case_decide; [done|]. constructor; [|done].
  intros Hin. by apply Ha, (elem_of_erase p).
Qed.

Lemma not_elem_of_erase p l : NoDup l → p ∉ erase p l.
Proof.
  induction 1 as [|a l Ha Hl IH]; simpl; [apply not_elem_of_nil|].
  case_decide; [by subst|]. intros [->|Hq]%elem_of_cons; [done|by apply IH].
Qed.

(** ** The grid *)

Lemma cell_store_ne g x y x' y' v :
  0 ≤ x → 0 ≤ y → 0 ≤ x' → 0 ≤ y' → (x, y) ≠ (x', y') →
  cell (store g x y v) x' y' = cell g x' y'.
Proof.
  intros ???? Hne. unfold cell, store.
  destruct (decide (Z.to_nat x = Z.to_nat x')) as [Hx|Hx].
  - rewrite <- Hx, list_lookup_alter_eq.
    assert (Z.to_nat y ≠ Z.to_nat y') by (intros ?; apply Hne; f_equal; lia).
    destruct (g !! Z.to_nat x) as [row|]; simpl; [|done].
    by rewrite list_lookup_insert_ne.
  - by rewrite list_lookup_alter_ne.
Qed.

Lemma cell_store_eq g x y v n :
  length g = n → (∀ row, row ∈ g → length row = n) →
  (Z.to_nat x < n)%nat → (Z.to_nat y < n)%nat →
  cell (store g x y v) x y = v.
Proof.
  intros Hg Hrows Hx Hy. unfold cell, store.
  rewrite list_lookup_alter_eq.
  destruct (lookup_lt_is_Some_2 g (Z.to_nat x)) as [row Hrow]; [lia|].
  rewrite Hrow. simpl. rewrite list_lookup_insert_eq; [done|].
  rewrite (Hrows row); [done|]. by eapply list_elem_of_lookup_2.
Qed.

Lemma store_shape g x y v n :
  length g = n → (∀ row, row ∈ g → length row = n) →
  length (store g x y v) = n ∧ ∀ row, row ∈ store g x y v → length row = n.
Proof.
  intros Hg Hrows. unfold store. split; [by rewrite length_alter|].
  intros row [i Hi]%list_elem_of_lookup_1.
  destruct (decide (Z.to_nat x = i)) as [<-|Hne].
  - rewrite list_lookup_alter_eq in Hi.
    destruct (g !! Z.to_nat x) as [row0|] eqn:Hrow0; simplify_eq/=.
    rewrite length_insert. apply Hrows. by eapply list_elem_of_lookup_2.
  - rewrite list_lookup_alter_ne in Hi by done.
    apply Hrows. by eapply list_elem_of_lookup_2.
Qed.

Section Properties.

Context {R : Type} `{RT : Runtime R}.
Implicit Types (w : World R) (this p q : positive) (o : Organism).


Lemma inBounds_spec w x y :
  inBounds w x y = true ↔ 0 ≤ x < size w ∧ 0 ≤ y < size w.
Proof. unfold inBounds. rewrite !andb_true_iff. lia. Qed.

Lemma inBounds_false w x y :
  inBounds w x y = false ↔ ¬ (0 ≤ x < size w ∧ 0 ≤ y < size w).
Proof. rewrite <- inBounds_spec. by destruct (inBounds w x y). Qed.

Lemma getCell_Some_inBounds w x y p :
  getCell w x y = Some p → inBounds w x y = true.
Proof. unfold getCell. by destruct (inBounds w x y). Qed.

Lemma getCell_outside w x y : inBounds w x y = false → getCell w x y = None.
Proof. unfold getCell. by intros ->. Qed.

Lemma setCell_outside w x y org : inBounds w x y = false → setCell x y org w = w.
Proof. unfold setCell. by intros ->. Qed.

Lemma size_setCell w x y org : size (setCell x y org w) = size w.
Proof. unfold setCell. by destruct (negb _). Qed.

Lemma getCell_same w w' x y :
  size w = size w' → grid w = grid w' → getCell w x y = getCell w' x y.
Proof. intros Hs Hg. unfold getCell, inBounds. by rewrite Hs, Hg. Qed.

Lemma getCell_setCell_ne w x y x' y' v :
  (x, y) ≠ (x', y') → getCell (setCell x y v w) x' y' = getCell w x' y'.
Proof.
  intros Hne. unfold getCell, setCell.
  destruct (inBounds w x y) eqn:Hb; simpl; [|done].
  unfold inBounds. simpl. fold (inBounds w x' y').
  destruct (inBounds w x' y') eqn:Hb'; simpl; [|done].
  apply inBounds_spec in Hb, Hb'. apply cell_store_ne; lia || done.
Qed.

Lemma getCell_setCell_eq w x y v :
  shaped w → inBounds w x y = true → getCell (setCell x y v w) x y = v.
Proof.
  intros [Hg Hrows] Hb. unfold getCell, setCell. rewrite Hb. simpl.
  unfold inBounds. simpl. fold (inBounds w x y). rewrite Hb. simpl.
  apply inBounds_spec in Hb.
  eapply cell_store_eq; [done|done|lia|lia].
Qed.

Lemma shaped_setCell w x y v : shaped w → shaped (setCell x y v w).
Proof.
  intros [Hg Hrows]. unfold setCell.
  destruct (inBounds w x y); simpl; [|done].
  unfold shaped. simpl. by apply store_shape.
Qed.

Lemma shaped_same w w' : size w = size w' → grid w = grid w' → shaped w → shaped w'.
Proof. unfold shaped. by intros <- <-. Qed.

Lemma WorldInv_Consistent w : WorldInv w → Consistent w.
Proof.
  intros Hinv. repeat split.
  - intros x y x' y' p H1 H2.
    destruct (inv_occupant w Hinv _ _ _ H1) as (o & Ho & <- & <-).
    destruct (inv_occupant w Hinv _ _ _ H2) as (o' & Ho' & <- & <-).
    congruence.
  - intros p [o Ho]%(inv_registry w Hinv). exists o. split; [done|].
    by apply (inv_position w Hinv).
  - intros x y p (o & Ho & _)%(inv_occupant w Hinv).
    apply (inv_registry w Hinv). by exists o.
Qed.

(** *** Writes to members of [this] *)

Lemma keeps_identity_incBreed : keeps_identity org_incBreed.
Proof. by intros []. Qed.
Lemma keeps_identity_resetBreed : keeps_identity org_resetBreed.
Proof. by intros []. Qed.
Lemma keeps_identity_setStarve s : keeps_identity (org_setStarve s).
Proof. intros [? ? ? [] ?]; by cbv. Qed.

Lemma WorldInv_modify f this w :
  keeps_identity f → WorldInv w → WorldInv (modify f this w).
Proof.
  intros Hf [Hsh Hnd Hreg Hpos Hocc Hser Hid].
  split; simpl; try done.
  - intros p. rewrite Hreg. symmetry. apply lookup_alter_is_Some.
  - intros p o [(-> & o0 & Ho0 & ->)|[? Ho]]%lookup_alter_Some.
    + destruct (Hf o0) as (-> & -> & _). by apply Hpos.
    + by apply Hpos.
  - intros x y p (o & Ho & Hx & Hy)%Hocc.
    destruct (decide (this = p)) as [->|Hne].
    + exists (f o). rewrite lookup_alter_eq, Ho.
      destruct (Hf o) as (-> & -> & _). done.
    + exists o. by rewrite lookup_alter_ne.
  - intros p o [(-> & o0 & Ho0 & ->)|[? Ho]]%lookup_alter_Some.
    + destruct (Hf o0) as (_ & _ & ->). by eapply Hser.
    + by eapply Hser.
  - intros p q o o' Hp Hq Heq.
    apply lookup_alter_Some in Hp as [(-> & o0 & Ho0 & ->)|[? Hp]];
    apply lookup_alter_Some in Hq as [(-> & o1 & Ho1 & ->)|[? Hq]]; try done.
    + destruct (Hf o0) as (_ & _ & Hs). rewrite Hs in Heq. by eapply Hid.
    + destruct (Hf o1) as (_ & _ & Hs). rewrite Hs in Heq. by eapply Hid.
    + by eapply Hid.
Qed.

Lemma WorldInv_with_env e w : WorldInv w → WorldInv (with_env e w).
Proof. intros []. by split. Qed.

(** *** Moving [this] into an empty cell *)

Lemma getCell_moveTo this nx ny w o x y :
  shaped w → heap w !! this = Some o → inBounds w nx ny = true →
  getCell (moveTo this nx ny w) x y =
    if decide ((x, y) = (getX o, getY o)) then None
    else if decide ((x, y) = (nx, ny)) then Some this
    else getCell w x y.
Proof.
  intros Hsh Ho Hb. unfold moveTo, setPos.
  change (getCell (modify ?f ?t ?w') x y) with (getCell w' x y).
  replace (this_X (setCell nx ny (Some this) w) this) with (getX o).
  2:{ unfold this_X, setCell. destruct (negb _); simpl; by rewrite Ho. }
  replace (this_Y (setCell nx ny (Some this) w) this) with (getY o).
  2:{ unfold this_Y, setCell. destruct (negb _); simpl; by rewrite Ho. }
  case_decide as Hxy.
  - simplify_eq.
    pose proof (shaped_setCell w nx ny (Some this) Hsh) as Hsh1.
    destruct (inBounds (setCell nx ny (Some this) w) (getX o) (getY o)) eqn:Hb1.
    + by apply getCell_setCell_eq.
    + rewrite setCell_outside by done. by apply getCell_outside.
  - rewrite getCell_setCell_ne by done.
    case_decide as Hxy'.
    + simplify_eq. by apply getCell_setCell_eq.
    + by rewrite getCell_setCell_ne.
Qed.

Lemma heap_moveTo this nx ny w :
  heap (moveTo this nx ny w) = alter (org_setPos nx ny) this (heap w).
Proof.
  unfold moveTo, setPos, setCell. simpl.
  repeat (destruct (negb _); simpl); done.
Qed.

Lemma allOrgs_moveTo this nx ny w : allOrgs (moveTo this nx ny w) = allOrgs w.
Proof. unfold moveTo, setPos, setCell. repeat (destruct (negb _); simpl); done. Qed.

Lemma born_moveTo this nx ny w : born (moveTo this nx ny w) = born w.
Proof. unfold moveTo, setPos, setCell. repeat (destruct (negb _); simpl); done. Qed.

Lemma size_moveTo this nx ny w : size (moveTo this nx ny w) = size w.
Proof. unfold moveTo, setPos, setCell. repeat (destruct (negb _); simpl); done. Qed.

Lemma env_moveTo this nx ny w : env (moveTo this nx ny w) = env w.
Proof. unfold moveTo, setPos, setCell. repeat (destruct (negb _); simpl); done. Qed.

Lemma shaped_moveTo this nx ny w : shaped w → shaped (moveTo this nx ny w).
Proof.
  intros Hsh. unfold moveTo, setPos.
  eapply (shaped_same (setCell _ _ None (setCell nx ny (Some this) w))); [done..|].
  by do 2 apply shaped_setCell.
Qed.

Lemma WorldInv_moveTo this nx ny w o :
  WorldInv w → heap w !! this = Some o →
  inBounds w nx ny = true → getCell w nx ny = None →
  WorldInv (moveTo this nx ny w).
Proof.
  intros [Hsh Hnd Hreg Hpos Hocc Hser Hid] Ho Hb Hempty.
  assert (Hhere := Hpos _ _ Ho).
  assert (Hne : (nx, ny) ≠ (getX o, getY o)) by (intros [= -> ->]; congruence).
  split.
  - by apply shaped_moveTo.
  - by rewrite allOrgs_moveTo.
  - intros p. rewrite allOrgs_moveTo, heap_moveTo, Hreg.
    symmetry. apply lookup_alter_is_Some.
  - intros p o'. rewrite heap_moveTo.
    intros [(-> & o0 & Ho0 & ->)|[Hp Ho']]%lookup_alter_Some.
    + simplify_eq. simpl. erewrite getCell_moveTo by done.
      rewrite decide_False by done. by rewrite decide_True.
    + erewrite getCell_moveTo by done.
      assert (Hp' := Hpos _ _ Ho').
      rewrite decide_False by (intros [= Hx Hy]; rewrite Hx, Hy in Hp'; congruence).
      rewrite decide_False by (intros [= Hx Hy]; rewrite Hx, Hy in Hp'; congruence).
      done.
  - intros x y p. erewrite getCell_moveTo by done. rewrite heap_moveTo.
    case_decide as H1; [done|]. case_decide as H2.
    + intros [= <-]. simplify_eq. exists (org_setPos nx ny o).
      by rewrite lookup_alter_eq, Ho.
    + intros Hp. destruct (Hocc _ _ _ Hp) as (o' & Ho' & Hx & Hy).
      exists o'. rewrite lookup_alter_ne; [done|].
      intros <-. simplify_eq.
  - intros p o'. rewrite heap_moveTo, born_moveTo.
    intros [(-> & o0 & Ho0 & ->)|[Hp Ho']]%lookup_alter_Some; simpl; by eapply Hser.
  - intros p q o1 o2. rewrite heap_moveTo. intros Hp Hq Heq.
    apply lookup_alter_Some in Hp as [(-> & o0 & Ho0 & ->)|[? Hp]];
    apply lookup_alter_Some in Hq as [(-> & o3 & Ho3 & ->)|[? Hq]]; try done;
    simpl in Heq; by eapply Hid.
Qed.

(** *** Removing the occupant of a cell *)

Lemma deleteCell_occupied w x y p :
  getCell w x y = Some p →
  deleteCell x y w =
    mkWorld (size w) (age w) (grid (setCell x y None w))
            (erase p (allOrgs w)) (delete p (heap w)) (born w) (env w).
Proof.
  unfold getCell, deleteCell, setCell.
  destruct (inBounds w x y); simpl; [|done]. by intros ->.
Qed.

Lemma deleteCell_empty w x y : getCell w x y = None → deleteCell x y w = w.
Proof.
  unfold getCell, deleteCell.
  destruct (inBounds w x y); simpl; [|done]. by intros ->.
Qed.

Lemma getCell_deleteCell w x y p x' y' :
  shaped w → getCell w x y = Some p →
  getCell (deleteCell x y w) x' y' =
    if decide ((x', y') = (x, y)) then None else getCell w x' y'.
Proof.
  intros Hsh Hp. rewrite (deleteCell_occupied _ _ _ _ Hp).
  rewrite (getCell_same _ (setCell x y None w)) by (by rewrite ?size_setCell).
  case_decide as Hxy.
  - simplify_eq. apply getCell_setCell_eq; [done|].
    by eapply getCell_Some_inBounds.
  - apply getCell_setCell_ne. congruence.
Qed.

Lemma WorldInv_deleteCell w x y :
  WorldInv w → WorldInv (deleteCell x y w).
Proof.
  intros Hinv. destruct (getCell w x y) as [p|] eqn:Hp.
  2:{ by rewrite deleteCell_empty. }
  assert (Hget := λ x' y', getCell_deleteCell w x y p x' y' (inv_shape w Hinv) Hp).
  destruct Hinv as [Hsh Hnd Hreg Hpos Hocc Hser Hid].
  destruct (Hocc _ _ _ Hp) as (op & Hop & Hopx & Hopy).
  rewrite (deleteCell_occupied _ _ _ _ Hp) in *.
  split; simpl.
  - eapply (shaped_same (setCell x y None w)); [by rewrite size_setCell|done|].
    by apply shaped_setCell.
  - by apply NoDup_erase.
  - intros q. destruct (decide (q = p)) as [->|Hne].
    + rewrite lookup_delete_eq. split; [|by intros [? ?]].
      intros Hin. by apply not_elem_of_erase in Hin.
    + rewrite lookup_delete_ne by done. rewrite <- Hreg.
      split; [apply elem_of_erase|by apply elem_of_erase_ne].
  - intros q o [Hne Hq]%lookup_delete_Some. rewrite Hget.
    assert (Hq' := Hpos _ _ Hq).
    rewrite decide_False; [done|]. intros [= Hx Hy].
    rewrite Hx, Hy in Hq'. congruence.
  - intros x' y' q. rewrite Hget. case_decide as Hxy; [done|].
    intros Hq. destruct (Hocc _ _ _ Hq) as (o & Ho & Hx & Hy).
    exists o. rewrite lookup_delete_ne; [done|].
    intros <-. simplify_eq.
  - intros q o [_ Hq]%lookup_delete_Some. by eapply Hser.
  - intros q1 q2 o1 o2 [_ H1]%lookup_delete_Some [_ H2]%lookup_delete_Some.
    by eapply Hid.
Qed.

(** *** Constructing an organism in an empty cell *)

Lemma new_addr_fresh w : heap w !! new_addr w = None.
Proof. apply not_elem_of_dom, new_fresh. Qed.

Lemma place_eq k x y w :
  place k x y w =
    mkWorld (size w) (age w) (grid (setCell x y (Some (new_addr w)) w))
            (allOrgs w ++ [new_addr w])
            (<[new_addr w := mkOrganism x y 0 k (born w)]> (heap w))
            (S (born w)) (new (dom (heap w)) (env w)).2.
Proof.
  unfold place, construct, new_addr, push_back, setCell, inBounds.
  destruct (new _ _) as [a e]. simpl. by destruct (negb _).
Qed.

Lemma createAnt_eq x y w :
  createAnt x y w = match getCell w x y with Some _ => w | None => place Ant x y w end.
Proof. done. Qed.

Lemma createDoodlebug_eq x y w :
  createDoodlebug x y w =
    match getCell w x y with Some _ => w | None => place (Doodlebug 0) x y w end.
Proof. done. Qed.

Lemma getCell_place k x y w x' y' :
  shaped w → inBounds w x y = true →
  getCell (place k x y w) x' y' =
    if decide ((x', y') = (x, y)) then Some (new_addr w) else getCell w x' y'.
Proof.
  intros Hsh Hb. rewrite place_eq.
  rewrite (getCell_same _ (setCell x y (Some (new_addr w)) w))
    by (by rewrite ?size_setCell).
  case_decide as Hxy.
  - simplify_eq. by apply getCell_setCell_eq.
  - apply getCell_setCell_ne. congruence.
Qed.

Lemma WorldInv_place k x y w :
  WorldInv w → inBounds w x y = true → getCell w x y = None →
  WorldInv (place k x y w).
Proof.
  intros Hinv Hb Hempty.
  assert (Hget := λ x' y', getCell_place k x y w x' y' (inv_shape w Hinv) Hb).
  destruct Hinv as [Hsh Hnd Hreg Hpos Hocc Hser Hid].
  assert (Hfresh := new_addr_fresh w).
  rewrite place_eq in *. set (a := new_addr w) in *.
  split; simpl.
  - eapply (shaped_same (setCell x y (Some a) w)); [by rewrite size_setCell|done|].
    by apply shaped_setCell.
  - apply NoDup_app. split_and!; [done| |apply NoDup_singleton].
    intros q Hq ->%list_elem_of_singleton.
    apply Hreg in Hq as [? ?]. congruence.
  - intros q. rewrite elem_of_app, list_elem_of_singleton, lookup_insert_is_Some, Hreg.
    destruct (decide (a = q)) as [<-|Hne]; [split; auto|].
    split.
    + intros [Hq|Hq]; [right; by split|congruence].
    + intros [Hq|[_ Hq]]; [congruence|by left].
  - intros q o [[<- <-]|[Hne Hq]]%lookup_insert_Some; rewrite Hget; simpl.
    + by rewrite decide_True.
    + assert (Hq' := Hpos _ _ Hq).
      rewrite decide_False; [done|]. intros [= Hx Hy].
      rewrite Hx, Hy in Hq'. congruence.
  - intros x' y' q. rewrite Hget. case_decide as Hxy.
    + intros [= <-]. simplify_eq. eexists. by rewrite lookup_insert_eq.
    + intros Hq. destruct (Hocc _ _ _ Hq) as (o & Ho & Hx & Hy).
      exists o. rewrite lookup_insert_ne; [done|]. intros <-. congruence.
  - intros q o [[<- <-]|[Hne Hq]]%lookup_insert_Some; simpl; [lia|].
    apply Hser in Hq. lia.
  - intros q1 q2 o1 o2.
    intros [[<- <-]|[? H1]]%lookup_insert_Some [[<- <-]|[? H2]]%lookup_insert_Some;
      simpl; try done.
    + intros Heq. apply Hser in H2. lia.
    + intros Heq. apply Hser in H1. lia.
    + by eapply Hid.
Qed.

Lemma evolves_refl this S w : evolves this S w w.
Proof.
  split_and!; [done..|]. intros q o' Hq. left. exists o'. naive_solver.
Qed.

Lemma evolves_trans this S w1 w2 w3 :
  evolves this S w1 w2 → evolves this S w2 w3 → evolves this S w1 w3.
Proof.
  intros (Hs1 & Hb1 & H1) (Hs2 & Hb2 & H2).
  split_and!; [congruence|lia|].
  intros q o3 Hq3.
  destruct (H2 _ _ Hq3) as [(o2 & Hq2 & Hser2 & Hfr2 & Hpos2)|(Hne & Hnew)].
  - destruct (H1 _ _ Hq2) as [(o1 & Hq1 & Hser1 & Hfr1 & Hpos1)|(Hne & Hnew)].
    + left. exists o1. split_and!; [done|congruence| |].
      * intros Hne. rewrite (Hfr2 Hne). by apply Hfr1.
      * destruct Hpos2 as [->|?]; [done|by right].
    + right. split; [done|]. rewrite (Hfr2 Hne).
      destruct Hnew as (? & ? & ? & ? & ? & ?). unfold newborn_in.
      split_and!; [done|lia|done..].
  - right. split; [done|].
    destruct Hnew as (? & ? & ? & ? & ? & ?). unfold newborn_in.
    split_and!; [lia|done..].
Qed.

Lemma evolves_mono this S S' w w' :
  S ⊆ S' → evolves this S w w' → evolves this S' w w'.
Proof.
  intros Hsub (Hs & Hb & H). split_and!; [done..|].
  intros q o' Hq. destruct (H _ _ Hq) as [(o & ? & ? & ? & Hpos)|(Hne & Hnew)].
  - left. exists o. split_and!; [done..|]. destruct Hpos; [by left|right; by apply Hsub].
  - right. split; [done|]. destruct Hnew as (? & ? & ? & ? & ? & ?).
    unfold newborn_in. split_and!; [done..|by apply Hsub|done|done|done].
Qed.

Lemma evolves_with_env this S e w : evolves this S w (with_env e w).
Proof.
  split_and!; [done..|]. intros q o' Hq. left. exists o'. naive_solver.
Qed.

Lemma evolves_modify f this S w :
  keeps_identity f → evolves this S w (modify f this w).
Proof.
  intros Hf. split_and!; [done..|]. intros q o'. simpl.
  intros [(-> & o0 & Ho0 & ->)|[Hne Ho']]%lookup_alter_Some; left.
  - exists o0. destruct (Hf o0) as (-> & -> & ->). naive_solver.
  - exists o'. naive_solver.
Qed.

Lemma evolves_moveTo this S nx ny w :
  (nx, ny) ∈ S → evolves this S w (moveTo this nx ny w).
Proof.
  intros Hin. split_and!; [apply size_moveTo|by rewrite born_moveTo|].
  intros q o'. rewrite heap_moveTo.
  intros [(-> & o0 & Ho0 & ->)|[Hne Ho']]%lookup_alter_Some; left.
  - exists o0. simpl. naive_solver.
  - exists o'. naive_solver.
Qed.

Lemma size_deleteCell x y w : size (deleteCell x y w) = size w.
Proof. unfold deleteCell. destruct (negb _); [done|]. by destruct (cell _ _ _). Qed.

Lemma evolves_deleteCell this S x y w : evolves this S w (deleteCell x y w).
Proof.
  destruct (getCell w x y) as [p|] eqn:Hp.
  2:{ rewrite deleteCell_empty by done. apply evolves_refl. }
  rewrite (deleteCell_occupied _ _ _ _ Hp).
  split_and!; [done..|]. intros q o'. simpl.
  intros [Hne Hq]%lookup_delete_Some. left. exists o'. naive_solver.
Qed.

Lemma evolves_place this S k x y w :
  fresh_kind k → is_Some (heap w !! this) → (x, y) ∈ S →
  evolves this S w (place k x y w).
Proof.
  intros Hk [o Ho] Hin. rewrite place_eq.
  split_and!; [done|simpl; lia|]. intros q o'. simpl.
  intros [[<- <-]|[Hne Hq]]%lookup_insert_Some.
  - right. split.
    + intros Heq. pose proof (new_addr_fresh w). congruence.
    + unfold newborn_in. simpl. split_and!; [lia|lia|done|done| |].
      * by destruct Hk as [-> | ->].
      * by exists (dom (heap w)), (env w).
  - left. exists o'. naive_solver.
Qed.

(** ** The scans *)

Lemma inside_size w w' ns : size w' = size w → inside w ns → inside w' ns.
Proof. intros Hs H c Hc. unfold inBounds. rewrite Hs. by apply H. Qed.

Lemma inside_perm w ns ns' : ns' ≡ₚ ns → inside w ns → inside w ns'.
Proof. intros Hp H c Hc. apply H. by rewrite <- Hp. Qed.

Lemma inside_cons w c ns : inside w (c :: ns) → inBounds w c.1 c.2 = true ∧ inside w ns.
Proof.
  intros H. split; [apply H; left|]. intros c' Hc'. apply H. by right.
Qed.

Lemma moveScan_spec this ns w o :
  heap w !! this = Some o → inside w ns →
  evolves this ns w (moveScan this ns w).1 ∧
  (WorldInv w → WorldInv (moveScan this ns w).1) ∧
  env (moveScan this ns w).1 = env w ∧
  ∃ o', heap (moveScan this ns w).1 !! this = Some o' ∧
        getBreedCount o' = getBreedCount o ∧ kind o' = kind o.
Proof.
  intros Ho. induction ns as [|[nx ny] rest IH]; intros Hin; cbn [moveScan fst snd].
  { split_and!; [apply evolves_refl|done|done|by exists o]. }
  apply inside_cons in Hin as [Hb Hin]. simpl in Hb.
  destruct (getCell w nx ny) as [p|] eqn:Hc; cbn [fst snd].
  - destruct (IH Hin) as (Hev & Hinv & Henv & Hthis).
    split_and!; [|done..]. eapply evolves_mono; [|done].
    intros c ?. by right.
  - split_and!.
    + apply evolves_moveTo. by left.
    + intros Hinv. by eapply WorldInv_moveTo.
    + apply env_moveTo.
    + exists (org_setPos nx ny o). by rewrite heap_moveTo, lookup_alter_eq, Ho.
Qed.

Lemma breedScan_spec create k this ns w o :
  creates create k → fresh_kind k →
  heap w !! this = Some o → inside w ns →
  evolves this ns w (breedScan create ns w) ∧
  (WorldInv w → WorldInv (breedScan create ns w)) ∧
  heap (breedScan create ns w) !! this = Some o.
Proof.
  intros Hcr Hk Ho. induction ns as [|[nx ny] rest IH]; intros Hin; cbn [breedScan fst snd].
  { split_and!; [apply evolves_refl|done|done]. }
  apply inside_cons in Hin as [Hb Hin]. simpl in Hb.
  destruct (getCell w nx ny) as [p|] eqn:Hc; cbn [fst snd].
  - destruct (IH Hin) as (Hev & Hinv & Hthis).
    split_and!; [|done..]. eapply evolves_mono; [|done].
    intros c ?. by right.
  - rewrite Hcr, Hc. split_and!.
    + apply evolves_place; [done|by exists o|by left].
    + intros Hinv. by apply WorldInv_place.
    + rewrite place_eq. simpl. rewrite lookup_insert_ne; [done|].
      intros Heq. pose proof (new_addr_fresh w). congruence.
Qed.

Lemma holdsAnt_Some w c :
  holdsAnt w c = true ↔ ∃ p o, c = Some p ∧ heap w !! p = Some o ∧ isAnt o = true.
Proof.
  unfold holdsAnt. split.
  - destruct c as [p|]; [|done].
    destruct (heap w !! p) as [o|] eqn:Ho; simpl; [|done].
    intros Hant. by exists p, o.
  - intros (p & o & -> & -> & Hant). done.
Qed.

Lemma eatScan_spec this ns w o :
  heap w !! this = Some o → isAnt o = false → inside w ns →
  evolves this ns w (eatScan this ns w).1 ∧
  (WorldInv w → WorldInv (eatScan this ns w).1) ∧
  env (eatScan this ns w).1 = env w ∧
  ∃ o', heap (eatScan this ns w).1 !! this = Some o' ∧
        getBreedCount o' = getBreedCount o ∧ isAnt o' = false ∧
        getStarveCount o' =
          if (eatScan this ns w).2 then 0 else getStarveCount o.
Proof.
  intros Ho Hant. induction ns as [|[nx ny] rest IH]; intros Hin; cbn [eatScan fst snd].
  { split_and!; [apply evolves_refl|done|done|by exists o]. }
  apply inside_cons in Hin as [Hb Hin]. simpl in Hb.
  destruct (holdsAnt w (getCell w nx ny)) eqn:Hc; cbn [fst snd].
  - apply holdsAnt_Some in Hc as (p & op & Hp & Hop & Hisant).
    assert (Hne : p ≠ this) by (intros ->; congruence).
    assert (Hlive : heap (deleteCell nx ny w) !! this = Some o).
    { rewrite (deleteCell_occupied _ _ _ _ Hp). simpl.
      by rewrite lookup_delete_ne. }
    split_and!.
    + eapply evolves_trans; [apply evolves_deleteCell|].
      eapply evolves_trans; [apply evolves_moveTo; by left|].
      apply evolves_modify, keeps_identity_setStarve.
    + intros Hinv. apply WorldInv_modify; [apply keeps_identity_setStarve|].
      eapply WorldInv_moveTo; [by apply WorldInv_deleteCell|done| |].
      * unfold inBounds. by rewrite size_deleteCell.
      * rewrite (getCell_deleteCell _ _ _ p) by (done || apply Hinv).
        by rewrite decide_True.
    + unfold setStarve. change (env (modify ?f ?t ?w')) with (env w').
      rewrite env_moveTo. rewrite (deleteCell_occupied _ _ _ _ Hp). done.
    + exists (org_setStarve 0 (org_setPos nx ny o)). split_and!.
      * unfold setStarve, modify. cbn [heap with_heap].
        rewrite lookup_alter_eq, heap_moveTo, lookup_alter_eq, Hlive. done.
      * destruct o as [? ? ? [] ?]; done.
      * destruct o as [? ? ? [] ?]; done.
      * destruct o as [? ? ? [] ?]; done.
  - destruct (IH Hin) as (Hev & Hinv & Henv & Hthis).
    split_and!; [|done..]. eapply evolves_mono; [|done].
    intros c ?. by right.
Qed.

(** ** Neighbours *)

Lemma elem_of_getNeighbors w x y c :
  c ∈ getNeighbors w x y ↔
  inBounds w c.1 c.2 = true ∧
  (c = (x, y + 1) ∨ c = (x, y - 1) ∨ c = (x + 1, y) ∨ c = (x - 1, y)).
Proof.
  unfold getNeighbors, dirs. cbn [scanDirs fst snd].
  rewrite !Z.add_0_r. change (y + -1) with (y - 1). change (x + -1) with (x - 1).
  destruct (inBounds w x (y + 1)) eqn:H1, (inBounds w x (y - 1)) eqn:H2,
    (inBounds w (x + 1) y) eqn:H3, (inBounds w (x - 1) y) eqn:H4;
    rewrite ?elem_of_cons, ?elem_of_nil;
    (split; [intros H; repeat destruct H as [H|H]; subst; simpl; auto; done|]);
    intros [Hb [ -> | [ -> | [ -> | -> ] ] ] ]; simpl in Hb; auto; congruence.
Qed.

Lemma inside_getNeighbors w x y : inside w (getNeighbors w x y).
Proof. intros c Hc. by apply elem_of_getNeighbors in Hc as [? _]. Qed.

Lemma not_self_neighbor w x y : (x, y) ∉ getNeighbors w x y.
Proof.
  intros [_ H]%elem_of_getNeighbors.
  destruct H as [H|[H|[H|H]]]; injection H; lia.
Qed.

Lemma run_shuffle_eq {A} g (l : list A) w :
  run_shuffle g l w = ((shuffle g l (env w)).1, with_env (shuffle g l (env w)).2 w).
Proof. unfold run_shuffle. by destruct (shuffle g l (env w)). Qed.

(** ** [Ant::update] *)

Lemma perm_subseteq {A} (l l' : list A) : l' ≡ₚ l → l' ⊆ l.
Proof. intros Hp c Hc. by rewrite <- Hp. Qed.

Lemma Ant_update_spec this w o :
  heap w !! this = Some o →
  evolves this (getNeighbors w (getX o) (getY o)) w (Ant_update this w) ∧
  (WorldInv w → WorldInv (Ant_update this w)) ∧
  ∃ o', heap (Ant_update this w) !! this = Some o' ∧ kind o' = kind o ∧
        getBreedCount o' = bumped ANT_BREED (getBreedCount o).
Proof.
  intros Ho. unfold Ant_update.
  replace (this_X w this) with (getX o) by (unfold this_X; by rewrite Ho).
  replace (this_Y w this) with (getY o) by (unfold this_Y; by rewrite Ho).
  set (N := getNeighbors w (getX o) (getY o)).
  rewrite run_shuffle_eq. lazy beta iota zeta.
  pose proof (shuffle_perm GenAnt _ N (env w)) as Hp1.
  set (ns1 := (shuffle GenAnt N (env w)).1) in *.
  set (w1 := with_env _ w).
  assert (Hin1 : inside w1 ns1).
  { eapply inside_perm; [done|]. apply (inside_size w); [done|].
    apply inside_getNeighbors. }
  destruct (moveScan_spec this ns1 w1 o Ho Hin1) as (Hev2 & Hinv2 & Henv2 & o2 & Ho2 & Hbc2 & Hk2).
  set (w2 := (moveScan this ns1 w1).1) in *.
  assert (Ho3 : heap (incBreed this w2) !! this = Some (org_incBreed o2)).
  { unfold incBreed, modify. cbn [heap with_heap]. by rewrite lookup_alter_eq, Ho2. }
  assert (Hev3 : evolves this N w (incBreed this w2)).
  { eapply evolves_trans; [apply evolves_with_env|]. fold w1.
    eapply evolves_trans; [eapply evolves_mono; [|exact Hev2]; by apply perm_subseteq|].
    apply evolves_modify, keeps_identity_incBreed. }
  assert (Hinv3 : WorldInv w → WorldInv (incBreed this w2)).
  { intros Hinv. apply WorldInv_modify; [apply keeps_identity_incBreed|].
    by apply Hinv2, WorldInv_with_env. }
  replace (this_breedCount (incBreed this w2) this) with (getBreedCount o + 1).
  2:{ unfold this_breedCount. rewrite Ho3. simpl. lia. }
  unfold bumped. destruct (ANT_BREED <=? getBreedCount o + 1) eqn:Hbreed.
  - rewrite run_shuffle_eq. lazy beta iota zeta.
    pose proof (shuffle_perm GenAnt _ ns1 (env (incBreed this w2))) as Hp2.
    set (ns2 := (shuffle GenAnt ns1 (env (incBreed this w2))).1) in *.
    set (w4 := with_env _ (incBreed this w2)).
    assert (Hin4 : inside w4 ns2).
    { eapply inside_perm; [done|]. eapply inside_size; [|exact Hin1].
      destruct Hev2 as [Hs _]. exact Hs. }
    destruct (breedScan_spec createAnt Ant this ns2 w4 (org_incBreed o2))
      as (Hev5 & Hinv5 & Ho5); [done|by left|done|done|].
    split_and!.
    + eapply evolves_trans; [exact Hev3|].
      eapply evolves_trans; [apply evolves_with_env|]. fold w4.
      eapply evolves_trans; [eapply evolves_mono; [|exact Hev5]|].
      { etrans; [by apply perm_subseteq|]. by apply perm_subseteq. }
      apply evolves_modify, keeps_identity_resetBreed.
    + intros Hinv. apply WorldInv_modify; [apply keeps_identity_resetBreed|].
      by apply Hinv5, WorldInv_with_env, Hinv3.
    + exists (org_resetBreed (org_incBreed o2)). split_and!; [|done..].
      unfold resetBreed, modify. cbn [heap with_heap]. by rewrite lookup_alter_eq, Ho5.
  - split_and!; [done..|]. exists (org_incBreed o2). split_and!; [done|done|].
    simpl. lia.
Qed.

Lemma breedScan_grid create k ns w x y :
  creates create k → shaped w → inside w ns →
  getCell (breedScan create ns w) x y = getCell w x y ∨
  (getCell w x y = None ∧ (x, y) ∈ ns).
Proof.
  intros Hcr Hsh. induction ns as [|[nx ny] rest IH]; intros Hin; cbn [breedScan].
  { by left. }
  apply inside_cons in Hin as [Hb Hin]. simpl in Hb.
  destruct (getCell w nx ny) as [p|] eqn:Hc.
  - destruct (IH Hin) as [?|[? ?]]; [by left|right]. split; [done|by right].
  - rewrite Hcr, Hc, getCell_place by done.
    case_decide as Hxy; [|by left]. simplify_eq. right. split; [done|by left].
Qed.

Lemma breedPhase_spec create k threshold g this ns N w o :
  creates create k → fresh_kind k →
  heap w !! this = Some o → inside w ns → ns ⊆ N →
  evolves this N w (breedPhase create threshold g this ns w) ∧
  (WorldInv w → WorldInv (breedPhase create threshold g this ns w)) ∧
  (shaped w → ∀ x y,
     getCell (breedPhase create threshold g this ns w) x y = getCell w x y ∨
     (getCell w x y = None ∧ (x, y) ∈ ns)) ∧
  heap (breedPhase create threshold g this ns w) !! this =
    Some (mkOrganism (getX o) (getY o) (bumped threshold (getBreedCount o))
                     (kind o) (serial o)).
Proof.
  intros Hcr Hk Ho Hin Hsub. unfold breedPhase. lazy zeta.
  assert (Ho3 : heap (incBreed this w) !! this = Some (org_incBreed o)).
  { unfold incBreed, modify. cbn [heap with_heap]. by rewrite lookup_alter_eq, Ho. }
  assert (Hev3 : evolves this N w (incBreed this w))
    by apply evolves_modify, keeps_identity_incBreed.
  assert (Hinv3 : WorldInv w → WorldInv (incBreed this w))
    by (intros; by apply WorldInv_modify; [apply keeps_identity_incBreed|]).
  replace (this_breedCount (incBreed this w) this) with (getBreedCount o + 1).
  2:{ unfold this_breedCount. by rewrite Ho3. }
  unfold bumped. destruct (threshold <=? getBreedCount o + 1) eqn:Hbreed.
  - rewrite run_shuffle_eq. lazy beta iota zeta.
    pose proof (shuffle_perm g _ ns (env (incBreed this w))) as Hp2.
    set (ns2 := (shuffle g ns (env (incBreed this w))).1) in *.
    set (w4 := with_env _ (incBreed this w)).
    assert (Hin4 : inside w4 ns2) by (by eapply inside_perm).
    destruct (breedScan_spec create k this ns2 w4 (org_incBreed o))
      as (Hev5 & Hinv5 & Ho5); [done..|].
    split_and!.
    + eapply evolves_trans; [exact Hev3|].
      eapply evolves_trans; [apply evolves_with_env|]. fold w4.
      eapply evolves_trans; [eapply evolves_mono; [|exact Hev5]|].
      { etrans; [by apply perm_subseteq|done]. }
      apply evolves_modify, keeps_identity_resetBreed.
    + intros Hinv. apply WorldInv_modify; [apply keeps_identity_resetBreed|].
      by apply Hinv5, WorldInv_with_env, Hinv3.
    + intros Hsh x y.
      change (getCell (resetBreed this ?w') x y) with (getCell w' x y).
      destruct (breedScan_grid create k ns2 w4 x y) as [->|[? ?]]; [done..|by left|].
      right. split; [done|]. by rewrite <- Hp2.
    + unfold resetBreed, modify. cbn [heap with_heap].
      by rewrite lookup_alter_eq, Ho5.
  - split_and!; [done|done|by left|]. rewrite Ho3. done.
Qed.

(** ** [Doodlebug::update] *)

Lemma eatScan_ate this ns w : (eatScan this ns w).2 = antAmong w ns.
Proof.
  induction ns as [|[nx ny] rest IH]; cbn [eatScan antAmong existsb fst snd]; [done|].
  destruct (holdsAnt w (getCell w nx ny)); [done|]. exact IH.
Qed.

Lemma antAmong_perm w ns ns' : ns' ≡ₚ ns → antAmong w ns' = antAmong w ns.
Proof.
  intros Hp. unfold antAmong. apply eq_true_iff_eq.
  rewrite !existsb_exists. setoid_rewrite <- list_elem_of_In.
  by setoid_rewrite Hp.
Qed.

Lemma eatScan_first this pre nx ny post w :
  antAmong w pre = false → holdsAnt w (getCell w nx ny) = true →
  eatScan this (pre ++ (nx, ny) :: post) w =
    (setStarve this 0 (moveTo this nx ny (deleteCell nx ny w)), true).
Proof.
  intros Hpre Hc. induction pre as [|[px py] pre IH]; cbn [eatScan app].
  { by rewrite Hc. }
  cbn [antAmong existsb fst snd] in Hpre. apply orb_false_iff in Hpre as [-> Hpre].
  by apply IH.
Qed.

Lemma eatScan_none this ns w : antAmong w ns = false → eatScan this ns w = (w, false).
Proof.
  induction ns as [|[nx ny] rest IH]; cbn [eatScan antAmong existsb fst snd]; [done|].
  intros [-> Hrest]%orb_false_iff. by apply IH.
Qed.

Lemma Ant_update_eq this w :
  Ant_update this w =
    let neighbors := getNeighbors w (this_X w this) (this_Y w this) in
    let '(neighbors, w) := run_shuffle GenAnt neighbors w in
    breedPhase createAnt ANT_BREED GenAnt this neighbors (moveScan this neighbors w).1.
Proof. done. Qed.

Lemma Doodlebug_update_eq this w :
  Doodlebug_update this w =
    if this_starve w this then deleteCell (this_X w this) (this_Y w this) w
    else
      let neighbors := getNeighbors w (this_X w this) (this_Y w this) in
      let '(neighbors, w) := run_shuffle GenDoodlebug neighbors w in
      let '(w, ate) := eatScan this neighbors w in
      let '(neighbors, w) :=
        if negb ate then
          let '(neighbors, w) := run_shuffle GenDoodlebug neighbors w in
          let w := (moveScan this neighbors w).1 in
          (neighbors, setStarve this (from_option getStarveCount 0 (heap w !! this) + 1) w)
        else (neighbors, w) in
      breedPhase createDoodlebug DOODLE_BREED GenDoodlebug this neighbors w.
Proof. done. Qed.

Lemma isAnt_kind o o' : kind o' = kind o → isAnt o' = isAnt o.
Proof. unfold isAnt. by intros ->. Qed.

Lemma Doodlebug_update_spec this w o :
  heap w !! this = Some o → isAnt o = false →
  evolves this (getNeighbors w (getX o) (getY o)) w (Doodlebug_update this w) ∧
  (WorldInv w → WorldInv (Doodlebug_update this w)) ∧
  (starve o = false →
   ∃ o', heap (Doodlebug_update this w) !! this = Some o' ∧ isAnt o' = false ∧
         getBreedCount o' = bumped DOODLE_BREED (getBreedCount o) ∧
         getStarveCount o' =
           if antAmong w (getNeighbors w (getX o) (getY o)) then 0
           else getStarveCount o + 1).
Proof.
  intros Ho Hant. rewrite Doodlebug_update_eq.
  replace (this_X w this) with (getX o) by (unfold this_X; by rewrite Ho).
  replace (this_Y w this) with (getY o) by (unfold this_Y; by rewrite Ho).
  replace (this_starve w this) with (starve o) by (unfold this_starve; by rewrite Ho).
  destruct (starve o) eqn:Hstarve.
  { split_and!; [apply evolves_deleteCell|apply WorldInv_deleteCell|done]. }
  set (N := getNeighbors w (getX o) (getY o)).
  lazy zeta. rewrite run_shuffle_eq. lazy beta iota zeta.
  pose proof (shuffle_perm GenDoodlebug _ N (env w)) as Hp1.
  set (ns1 := (shuffle GenDoodlebug N (env w)).1) in *.
  set (w1 := with_env _ w).
  assert (Hin1 : inside w1 ns1).
  { eapply inside_perm; [done|]. apply (inside_size w); [done|].
    apply inside_getNeighbors. }
  destruct (eatScan_spec this ns1 w1 o Ho Hant Hin1)
    as (Hev2 & Hinv2 & Henv2 & o2 & Ho2 & Hbc2 & Hant2 & Hsc2).
  rewrite eatScan_ate in Hsc2.
  replace (antAmong w1 ns1) with (antAmong w N) in Hsc2
    by (symmetry; by apply (antAmong_perm w)).
  pose proof (eatScan_ate this ns1 w1) as Hate.
  replace (antAmong w1 ns1) with (antAmong w N) in Hate
    by (symmetry; by apply (antAmong_perm w)).
  destruct (eatScan this ns1 w1) as [w2 ate]. cbn [fst snd] in *. subst ate.
  assert (Hev2' : evolves this N w w2).
  { eapply evolves_trans; [apply (evolves_with_env _ _ (shuffle GenDoodlebug N (env w)).2)|].
    eapply evolves_mono; [|exact Hev2]. by apply perm_subseteq. }
  assert (Hs2 : size w2 = size w1) by apply Hev2.
  destruct (antAmong w N) eqn:Hnear; cbn [negb].
  - destruct (breedPhase_spec createDoodlebug (Doodlebug 0) DOODLE_BREED GenDoodlebug
                this ns1 N w2 o2) as (Hev & Hinv & _ & Hthis);
      [done|by right|done|by eapply inside_size|by apply perm_subseteq|].
    split_and!.
    + by eapply evolves_trans.
    + intros Hw. by apply Hinv, Hinv2, WorldInv_with_env.
    + intros _. eexists. split; [exact Hthis|].
      split_and!; [exact Hant2|cbn; by rewrite Hbc2|exact Hsc2].
  - rewrite run_shuffle_eq. lazy beta iota zeta.
    pose proof (shuffle_perm GenDoodlebug _ ns1 (env w2)) as Hp3.
    set (ns3 := (shuffle GenDoodlebug ns1 (env w2)).1) in *.
    set (w3 := with_env _ w2).
    assert (Hin3 : inside w3 ns3).
    { eapply inside_perm; [done|]. by eapply inside_size. }
    destruct (moveScan_spec this ns3 w3 o2 Ho2 Hin3)
      as (Hev4 & Hinv4 & Henv4 & o4 & Ho4 & Hbc4 & Hk4).
    set (w4 := (moveScan this ns3 w3).1) in *.
    rewrite Ho4. cbn [from_option].
    assert (Ho5 : heap (setStarve this (getStarveCount o4 + 1) w4) !! this =
                  Some (org_setStarve (getStarveCount o4 + 1) o4)).
    { unfold setStarve, modify. cbn [heap with_heap]. by rewrite lookup_alter_eq, Ho4. }
    assert (Hsub3 : ns3 ⊆ N).
    { etrans; [by apply perm_subseteq|by apply perm_subseteq]. }
    destruct (breedPhase_spec createDoodlebug (Doodlebug 0) DOODLE_BREED GenDoodlebug
                this ns3 N (setStarve this (getStarveCount o4 + 1) w4)
                (org_setStarve (getStarveCount o4 + 1) o4))
      as (Hev & Hinv & _ & Hthis); [done|by right|exact Ho5| |done|].
    { eapply inside_size; [|exact Hin3]. apply Hev4. }
    split_and!.
    + eapply evolves_trans; [exact Hev2'|].
      eapply evolves_trans; [apply (evolves_with_env _ _ (shuffle GenDoodlebug ns1 (env w2)).2)|].
      fold w3. eapply evolves_trans; [eapply evolves_mono; [|exact Hev4]; done|].
      eapply evolves_trans; [apply evolves_modify, keeps_identity_setStarve|].
      exact Hev.
    + intros Hw. apply Hinv. apply WorldInv_modify; [apply keeps_identity_setStarve|].
      by apply Hinv4, WorldInv_with_env, Hinv2, WorldInv_with_env.
    + intros _. eexists. split; [exact Hthis|].
      assert (Hant4 : isAnt o4 = false) by (by rewrite (isAnt_kind o2 o4)).
      destruct o4 as [? ? ? [|s4] ?]; [done|]. cbn in *.
      split_and!; [done|congruence|].
      destruct o2 as [? ? ? k2 ?]. cbn in *. subst k2. cbn in Hsc2. lia.
Qed.

Lemma Doodlebug_update_starved this w o :
  heap w !! this = Some o → starve o = true →
  Doodlebug_update this w = deleteCell (getX o) (getY o) w.
Proof.
  intros Ho Hs. unfold Doodlebug_update, this_starve, this_X, this_Y.
  by rewrite Ho; cbn [from_option]; rewrite Hs.
Qed.

(** ** The virtual call *)

Lemma Organism_update_spec this w o :
  heap w !! this = Some o →
  evolves this (getNeighbors w (getX o) (getY o)) w (Organism_update this w) ∧
  (WorldInv w → WorldInv (Organism_update this w)).
Proof.
  intros Ho. unfold Organism_update. rewrite Ho.
  destruct (kind o) eqn:Hk.
  - destruct (Ant_update_spec this w o Ho) as (? & ? & _). done.
  - destruct (Doodlebug_update_spec this w o Ho) as (? & ? & _); [|done].
    unfold isAnt. by rewrite Hk.
Qed.

Lemma bumped_range threshold b : 0 ≤ b → 0 < threshold → 0 ≤ bumped threshold b < threshold.
Proof. unfold bumped. intros. destruct (Z.leb_spec threshold (b + 1)); lia. Qed.

Lemma CountersInv_update this w o :
  heap w !! this = Some o → CountersInv w → CountersInv (Organism_update this w).
Proof.
  intros Ho Hc q o' Hq.
  destruct (Organism_update_spec this w o Ho) as [(_ & _ & Hev) _].
  pose proof (Hc _ _ Ho) as [Hbc Hsc].
  destruct (decide (q = this)) as [->|Hne].
  2:{ destruct (Hev _ _ Hq) as [(o0 & Ho0 & _ & Hfr & _)|(_ & _ & _ & _ & Hb & Hs & _)].
      - rewrite (Hfr Hne). by eapply Hc.
      - unfold counters_ok. rewrite Hb, Hs.
        unfold DOODLE_STARVE, breedThreshold, ANT_BREED, DOODLE_BREED.
        destruct (kind o'); lia. }
  unfold Organism_update in Hq. rewrite Ho in Hq.
  destruct (kind o) as [|s] eqn:Hk.
  - destruct (Ant_update_spec this w o Ho) as (_ & _ & o1 & Ho1 & Hk1 & Hbc1).
    simplify_eq. unfold counters_ok, getStarveCount. rewrite Hk1, Hk, Hbc1.
    split; [|by cbv]. apply bumped_range; [lia|done].
  - assert (Hant : isAnt o = false) by (unfold isAnt; by rewrite Hk).
    destruct (starve o) eqn:Hst.
    + rewrite (Doodlebug_update_starved _ _ o) in Hq by done.
      destruct (evolves_deleteCell this [] (getX o) (getY o) w) as (_ & _ & Hev').
      destruct (Hev' _ _ Hq) as [(o0 & Ho0 & _ & _ & [Hpos|[]%elem_of_nil])|(_ & _ & _ & []%elem_of_nil & _)].
      unfold deleteCell in Hq. destruct (negb _); [by eapply Hc|].
      destruct (cell _ _ _); [|by eapply Hc]. simpl in Hq.
      apply lookup_delete_Some in Hq as [_ Hq]. by eapply Hc.
    + destruct (Doodlebug_update_spec this w o Ho Hant) as (_ & _ & Hthis).
      destruct (Hthis Hst) as (o1 & Ho1 & Hant1 & Hbc1 & Hsc1). simplify_eq.
      unfold counters_ok. rewrite Hbc1, Hsc1.
      assert (Hk1 : breedThreshold (kind o') = DOODLE_BREED).
      { unfold isAnt in Hant1. by destruct (kind o'). }
      rewrite Hk1. split; [apply bumped_range; [lia|done]|].
      unfold starve in Hst. rewrite Hk in Hst. unfold getStarveCount in *.
      rewrite Hk in *. apply Z.leb_gt in Hst.
      destruct (antAmong _ _); unfold DOODLE_STARVE in *; lia.
Qed.

(** ** The loop of [World::update] *)

Lemma Invariant_update this w :
  this ∈ allOrgs w → Invariant w → Invariant (Organism_update this w).
Proof.
  intros Hin [Hinv Hc].
  apply (inv_registry w Hinv) in Hin as [o Ho].
  split; [by apply (Organism_update_spec this w o)|by eapply CountersInv_update].
Qed.

Lemma Invariant_runSnapshot snapshot w :
  Invariant w → Invariant (runSnapshot snapshot w).
Proof.
  revert w. induction snapshot as [|o rest IH]; intros w Hinv; cbn [runSnapshot]; [done|].
  case_decide; apply IH; [by apply Invariant_update|done].
Qed.

Lemma Invariant_World_update w : Invariant w → Invariant (World_update w).
Proof.
  intros [Hinv Hc]. unfold World_update. rewrite run_shuffle_eq.
  apply Invariant_runSnapshot. split; [|done].
  destruct Hinv. by split.
Qed.

Lemma Invariant_World_new n (e : R) : Invariant (World_new n e).
Proof.
  split; [split|]; unfold World_new, shaped, getCell, inBounds;
    cbn [heap allOrgs grid size born].
  - split; [by rewrite length_replicate|].
    intros row [-> _]%elem_of_replicate. by rewrite length_replicate.
  - constructor.
  - intros p. rewrite lookup_empty. split; [by intros ?%elem_of_nil|by intros [? ?]].
  - intros p o. by rewrite lookup_empty.
  - intros x y p. unfold cell.
    destruct (negb _); [done|].
    destruct (replicate _ _ !! _) as [row|] eqn:Hrow; [|done].
    apply lookup_replicate in Hrow as [-> _].
    destruct (replicate _ _ !! _) as [c|] eqn:Hc; [|done].
    by apply lookup_replicate in Hc as [-> _].
  - intros p o. by rewrite lookup_empty.
  - intros p q o o'. by rewrite lookup_empty.
  - intros p o. cbn [heap]. by rewrite lookup_empty.
Qed.

Lemma Invariant_place k x y w :
  fresh_kind k → inBounds w x y = true → getCell w x y = None →
  Invariant w → Invariant (place k x y w).
Proof.
  intros Hk Hb Hempty [Hinv Hc]. split; [by apply WorldInv_place|].
  intros q o. rewrite place_eq. simpl.
  intros [[<- <-]|[_ Hq]]%lookup_insert_Some; [|by eapply Hc].
  unfold counters_ok, getStarveCount. simpl. by destruct Hk as [-> | ->].
Qed.

Lemma reachable_Invariant w : reachable w → Invariant w.
Proof.
  induction 1 as [n e|x y w _ IH Hb|x y w _ IH Hb|w _ IH].
  - apply Invariant_World_new.
  - rewrite createDoodlebug_eq. destruct (getCell w x y) eqn:Hc; [done|].
    apply Invariant_place; [by right|done..].
  - rewrite createAnt_eq. destruct (getCell w x y) eqn:Hc; [done|].
    apply Invariant_place; [by left|done..].
  - by apply Invariant_World_update.
Qed.

Lemma World_update_eq w :
  World_update w = runSnapshot (tickSnapshot w) (tickStart w).
Proof.
  unfold World_update, tickSnapshot, tickStart. by destruct (run_shuffle _ _ _).
Qed.

Lemma not_invoked_elsewhere rest : ∀ w k,
  (k < born w)%nat →
  (∀ q o, heap w !! q = Some o → serial o = k → q ∉ rest) →
  k ∉ invoked rest w.
Proof.
  induction rest as [|o rest IH]; intros w k Hk Hloc; cbn [invoked].
  { apply not_elem_of_nil. }
  assert (Hrest : ∀ q o', heap w !! q = Some o' → serial o' = k → q ∉ rest).
  { intros q o' Hq Hs Hin. apply (Hloc q o' Hq Hs). by right. }
  case_decide; [|by apply IH].
  destruct (heap w !! o) as [org|] eqn:Horg.
  2:{ unfold Organism_update. rewrite Horg. by apply IH. }
  destruct (Organism_update_spec o w org Horg) as [(_ & Hb & Hev) _].
  assert (k ∉ invoked rest (Organism_update o w)).
  { apply IH; [lia|]. intros q o' Hq Hs.
    destruct (Hev _ _ Hq) as [(o0 & Ho0 & Hs0 & _)|(_ & ? & _)]; [|lia].
    apply (Hrest q o0); congruence. }
  rewrite not_elem_of_cons. split; [|done].
  intros ->. apply (Hloc o org); [done..|by left].
Qed.

Lemma removed_not_invoked rest w k : removed k w → k ∉ invoked rest w.
Proof.
  intros [Hk Habs]. apply not_invoked_elsewhere; [done|].
  intros q o Hq Hs. by destruct (Habs q o).
Qed.

Lemma removed_update this w k : removed k w → removed k (Organism_update this w).
Proof.
  intros [Hk Habs]. destruct (heap w !! this) as [org|] eqn:Horg.
  2:{ unfold Organism_update. by rewrite Horg. }
  destruct (Organism_update_spec this w org Horg) as [(_ & Hb & Hev) _].
  split; [lia|]. intros q o' Hq.
  destruct (Hev _ _ Hq) as [(o0 & Ho0 & Hs0 & _)|(_ & ? & _)]; [|lia].
  rewrite Hs0. by eapply Habs.
Qed.

Lemma removed_runSnapshot rest : ∀ w k, removed k w → removed k (runSnapshot rest w).
Proof.
  induction rest as [|o rest IH]; intros w k Hr; cbn [runSnapshot]; [done|].
  case_decide; apply IH; [by apply removed_update|done].
Qed.

Lemma NoDup_invoked snapshot : ∀ w,
  WorldInv w → NoDup snapshot → NoDup (invoked snapshot w).
Proof.
  induction snapshot as [|o rest IH]; intros w Hinv Hnd; cbn [invoked].
  { constructor. }
  apply NoDup_cons in Hnd as [Ho Hnd].
  case_decide as Hin; [|by apply IH].
  apply (inv_registry w Hinv) in Hin as [org Horg]. rewrite Horg.
  destruct (Organism_update_spec o w org Horg) as [(_ & Hb & Hev) Hinv'].
  constructor; [|by apply IH; [apply Hinv'|]].
  pose proof (inv_serial w Hinv _ _ Horg).
  apply not_invoked_elsewhere; [lia|].
  intros q o' Hq Hs.
  destruct (Hev _ _ Hq) as [(o0 & Ho0 & Hs0 & _)|(_ & ? & _)]; [|lia].
  assert (q = o) as -> by (eapply (inv_identity w Hinv); [done..|congruence]).
  done.
Qed.

Lemma runSnapshot_app pre post w :
  runSnapshot (pre ++ post) w = runSnapshot post (runSnapshot pre w).
Proof.
  revert w. induction pre as [|o pre IH]; intros w; cbn [runSnapshot app]; [done|].
  by case_decide.
Qed.

Lemma invoked_app pre post w :
  invoked (pre ++ post) w = invoked pre w ++ invoked post (runSnapshot pre w).
Proof.
  revert w. induction pre as [|o pre IH]; intros w; cbn [invoked runSnapshot app]; [done|].
  case_decide; [|done]. destruct (heap w !! o); by rewrite IH.
Qed.

Lemma Invariant_tickStart w : Invariant w → Invariant (tickStart w).
Proof.
  intros [Hinv Hc]. unfold tickStart. rewrite run_shuffle_eq.
  split; [|done]. destruct Hinv. by split.
Qed.

Lemma NoDup_tickSnapshot w : NoDup (allOrgs w) → NoDup (tickSnapshot w).
Proof.
  intros Hnd. unfold tickSnapshot. rewrite run_shuffle_eq. cbn [fst].
  by rewrite shuffle_perm.
Qed.

(** ** The update of another organism leaves an object alone *)

Lemma update_frame q w oq p o o' :
  heap w !! q = Some oq → p ≠ q → heap w !! p = Some o →
  heap (Organism_update q w) !! p = Some o' →
  o' = o ∨ (born w ≤ serial o')%nat.
Proof.
  intros Hq Hne Hp Hp'.
  destruct (Organism_update_spec q w oq Hq) as [(_ & _ & Hev) _].
  destruct (Hev _ _ Hp') as [(o0 & Ho0 & _ & Hfr & _)|(_ & ? & _)]; [left|by right].
  rewrite (Hfr Hne). congruence.
Qed.

Lemma persists_refl this w : persists this w w.
Proof. by intros p o. Qed.

Lemma persists_trans this w1 w2 w3 :
  persists this w1 w2 → persists this w2 w3 → persists this w1 w3.
Proof. intros H1 H2 p o Hne Hp Hant. apply H2; [done| |done]. by apply H1. Qed.

Lemma persists_with_env this e w : persists this w (with_env e w).
Proof. intros p o _ Hp _. exact Hp. Qed.

Lemma persists_modify f this w : persists this w (modify f this w).
Proof.
  intros p o Hne Hp _. unfold modify. cbn [heap with_heap].
  by rewrite lookup_alter_ne.
Qed.

Lemma persists_moveTo this nx ny w : persists this w (moveTo this nx ny w).
Proof. intros p o Hne Hp _. rewrite heap_moveTo. by rewrite lookup_alter_ne. Qed.

Lemma persists_place this k x y w : persists this w (place k x y w).
Proof.
  intros p o Hne Hp _. rewrite place_eq. cbn [heap].
  rewrite lookup_insert_ne; [done|].
  intros Heq. pose proof (new_addr_fresh w). congruence.
Qed.

Lemma persists_deleteCell this x y w :
  (∀ a, getCell w x y = Some a →
     a = this ∨ ∃ oa, heap w !! a = Some oa ∧ isAnt oa = true) →
  persists this w (deleteCell x y w).
Proof.
  intros Hocc p o Hne Hp Hant. destruct (getCell w x y) as [a|] eqn:Ha.
  2:{ by rewrite deleteCell_empty. }
  rewrite (deleteCell_occupied _ _ _ _ Ha). cbn [heap].
  rewrite lookup_delete_ne; [done|]. intros <-.
  destruct (Hocc a eq_refl) as [->|(oa & Hoa & Hisant)]; [done|congruence].
Qed.

Lemma persists_moveScan this ns w : persists this w (moveScan this ns w).1.
Proof.
  induction ns as [|[nx ny] rest IH]; cbn [moveScan fst]; [apply persists_refl|].
  destruct (getCell w nx ny); [done|]. apply persists_moveTo.
Qed.

Lemma persists_breedScan create k this ns w :
  creates create k → persists this w (breedScan create ns w).
Proof.
  intros Hcr. induction ns as [|[nx ny] rest IH]; cbn [breedScan]; [apply persists_refl|].
  destruct (getCell w nx ny) eqn:Hc; [done|]. rewrite Hcr, Hc. apply persists_place.
Qed.

Lemma persists_eatScan this ns w : persists this w (eatScan this ns w).1.
Proof.
  induction ns as [|[nx ny] rest IH]; cbn [eatScan fst]; [apply persists_refl|].
  destruct (holdsAnt w (getCell w nx ny)) eqn:Hc; [|done]. cbn [fst].
  apply holdsAnt_Some in Hc as (a & oa & Ha & Hoa & Hisant).
  eapply persists_trans; [|eapply persists_trans;
    [apply persists_moveTo|apply persists_modify]].
  apply persists_deleteCell. intros a' Ha'. right. exists oa. by simplify_eq.
Qed.

Lemma persists_breedPhase create k threshold g this ns w :
  creates create k → persists this w (breedPhase create threshold g this ns w).
Proof.
  intros Hcr. unfold breedPhase. lazy zeta.
  destruct (threshold <=? _); [|apply persists_modify].
  rewrite run_shuffle_eq. lazy beta iota zeta.
  eapply persists_trans; [apply persists_modify|].
  eapply persists_trans; [|apply persists_modify].
  eapply persists_trans; [|by eapply persists_breedScan].
  apply persists_with_env.
Qed.

Lemma persists_update this w o :
  heap w !! this = Some o → getCell w (getX o) (getY o) = Some this →
  persists this w (Organism_update this w).
Proof.
  intros Ho Hcell. unfold Organism_update. rewrite Ho. destruct (kind o).
  - rewrite Ant_update_eq. lazy zeta. rewrite run_shuffle_eq. lazy beta iota zeta.
    eapply persists_trans; [|by eapply persists_breedPhase].
    eapply persists_trans; [|apply persists_moveScan]. apply persists_with_env.
  - rewrite Doodlebug_update_eq. unfold this_starve, this_X, this_Y.
    rewrite Ho. cbn [from_option]. destruct (starve o).
    { apply persists_deleteCell. intros a Ha. left. congruence. }
    lazy zeta. rewrite run_shuffle_eq. lazy beta iota zeta.
    set (w1 := with_env _ w). set (ns1 := (shuffle _ _ _).1).
    pose proof (persists_eatScan this ns1 w1) as Heat.
    destruct (eatScan this ns1 w1) as [w2 ate]. cbn [fst] in Heat.
    assert (H1 : persists this w w2).
    { eapply persists_trans; [apply persists_with_env|exact Heat]. }
    destruct ate; cbn [negb].
    + eapply persists_trans; [exact H1|by eapply persists_breedPhase].
    + rewrite run_shuffle_eq. lazy beta iota zeta.
      eapply persists_trans; [exact H1|].
      eapply persists_trans; [|by eapply persists_breedPhase].
      eapply persists_trans; [|apply persists_modify].
      eapply persists_trans; [|apply persists_moveScan]. apply persists_with_env.
Qed.

Lemma persists_runSnapshot rest : ∀ w p o,
  WorldInv w → p ∉ rest → heap w !! p = Some o → isAnt o = false →
  heap (runSnapshot rest w) !! p = Some o.
Proof.
  induction rest as [|q rest IH]; intros w p o Hinv Hp Ho Hant; cbn [runSnapshot]; [done|].
  apply not_elem_of_cons in Hp as [Hne Hp].
  case_decide as Hq; [|by apply IH].
  apply (inv_registry w Hinv) in Hq as [oq Hoq].
  apply IH; [by apply (Organism_update_spec q w oq)|done| |done].
  eapply persists_update; [done|by apply (inv_position w Hinv)|done..].
Qed.

Lemma length_getNeighbors w x y :
  length (getNeighbors w x y) =
    (Nat.b2n (inBounds w x (y + 1)) + Nat.b2n (inBounds w x (y - 1)) +
     Nat.b2n (inBounds w (x + 1) y) + Nat.b2n (inBounds w (x - 1) y))%nat.
Proof.
  unfold getNeighbors, dirs. cbn [scanDirs fst snd].
  rewrite !Z.add_0_r. change (y + -1) with (y - 1). change (x + -1) with (x - 1).
  by destruct (inBounds w x (y + 1)), (inBounds w x (y - 1)),
    (inBounds w (x + 1) y), (inBounds w (x - 1) y).
Qed.

Lemma NoDup_getNeighbors w x y : NoDup (getNeighbors w x y).
Proof.
  unfold getNeighbors, dirs. cbn [scanDirs fst snd].
  assert (Hnd : NoDup [(x + 0, y + 1); (x + 0, y + -1); (x + 1, y + 0); (x + -1, y + 0)]).
  { repeat (constructor; [rewrite ?elem_of_cons, ?elem_of_nil; intros H;
      repeat destruct H as [H|H]; try done; injection H; lia|]). constructor. }
  destruct (inBounds w (x + 0) (y + 1)), (inBounds w (x + 0) (y + -1)),
    (inBounds w (x + 1) (y + 0)), (inBounds w (x + -1) (y + 0));
    repeat match goal with
    | H : NoDup (_ :: _) |- _ => apply NoDup_cons in H as [? ?]
    end;
    repeat (constructor; [rewrite ?elem_of_cons, ?elem_of_nil in *; tauto|]);
    constructor.
Qed.

Ltac bounds :=
  repeat match goal with
  | |- context [inBounds ?w ?a ?b] =>
      let H := fresh "Hb" in
      destruct (inBounds w a b) eqn:H;
      [apply inBounds_spec in H|apply inBounds_false in H]
  | H : inBounds ?w ?a ?b = true |- _ => apply inBounds_spec in H
  end.

(** ** Predation *)

Lemma removed_evolves this S w w' k : evolves this S w w' → removed k w → removed k w'.
Proof.
  intros (_ & Hb & Hev) [Hk Habs]. split; [lia|]. intros q o' Hq.
  destruct (Hev _ _ Hq) as [(o0 & Ho0 & Hs0 & _)|(_ & ? & _)]; [|lia].
  rewrite Hs0. by eapply Habs.
Qed.

Lemma serial_setStarve s o : serial (org_setStarve s o) = serial o.
Proof. by destruct o as [? ? ? [] ?]. Qed.

Lemma eat_effect this w o nx ny a oa :
  WorldInv w → heap w !! this = Some o → isAnt o = false →
  getCell w nx ny = Some a → heap w !! a = Some oa → isAnt oa = true →
  WorldInv (setStarve this 0 (moveTo this nx ny (deleteCell nx ny w))) ∧
  removed (serial oa) (setStarve this 0 (moveTo this nx ny (deleteCell nx ny w))) ∧
  getCell (setStarve this 0 (moveTo this nx ny (deleteCell nx ny w))) nx ny = Some this ∧
  getCell (setStarve this 0 (moveTo this nx ny (deleteCell nx ny w)))
    (getX o) (getY o) = None ∧
  heap (setStarve this 0 (moveTo this nx ny (deleteCell nx ny w))) !! this =
    Some (org_setStarve 0 (org_setPos nx ny o)).
Proof.
  intros Hinv Ho Hant Hcell Ha Hisant.
  assert (Hne : a ≠ this) by (intros ->; congruence).
  pose proof (getCell_Some_inBounds _ _ _ _ Hcell) as Hb.
  pose proof (inv_position w Hinv _ _ Ho) as Hhere.
  assert (Hpos : (nx, ny) ≠ (getX o, getY o)) by (intros [= -> ->]; congruence).
  set (wd := deleteCell nx ny w).
  assert (Hinvd : WorldInv wd) by (by apply WorldInv_deleteCell).
  assert (Hheapd : heap wd = delete a (heap w)).
  { unfold wd. by rewrite (deleteCell_occupied _ _ _ _ Hcell). }
  assert (Hod : heap wd !! this = Some o).
  { rewrite Hheapd. by rewrite lookup_delete_ne. }
  assert (Hbd : inBounds wd nx ny = true).
  { unfold inBounds, wd. by rewrite size_deleteCell. }
  assert (Hgetd : ∀ x y, getCell wd x y =
            if decide ((x, y) = (nx, ny)) then None else getCell w x y).
  { intros x y. apply (getCell_deleteCell _ _ _ a); [apply Hinv|done]. }
  assert (Hgetm : ∀ x y, getCell (setStarve this 0 (moveTo this nx ny wd)) x y =
            if decide ((x, y) = (getX o, getY o)) then None
            else if decide ((x, y) = (nx, ny)) then Some this
            else getCell wd x y).
  { intros x y.
    change (getCell (setStarve this 0 ?w') x y) with (getCell w' x y).
    apply getCell_moveTo; [apply Hinvd|done..]. }
  split_and!.
  - apply WorldInv_modify; [apply keeps_identity_setStarve|].
    eapply WorldInv_moveTo; [done..|]. rewrite Hgetd. by rewrite decide_True.
  - split.
    + cbn [setStarve modify born with_heap]. rewrite born_moveTo.
      unfold wd. rewrite (deleteCell_occupied _ _ _ _ Hcell). cbn [born].
      by eapply (inv_serial w Hinv).
    + intros q oq. unfold setStarve, modify. cbn [heap with_heap].
      rewrite heap_moveTo, Hheapd. intros Hq Hs.
      destruct (decide (q = this)) as [->|Hq'].
      * rewrite !lookup_alter_eq, lookup_delete_ne, Ho in Hq by done.
        simplify_eq/=. rewrite serial_setStarve in Hs. simpl in Hs.
        apply Hne. symmetry. by eapply (inv_identity w Hinv).
      * rewrite !lookup_alter_ne in Hq by done.
        apply lookup_delete_Some in Hq as [Hqa Hq]. apply Hqa. symmetry.
        by eapply (inv_identity w Hinv).
  - rewrite Hgetm. rewrite decide_False by done. by rewrite decide_True.
  - rewrite Hgetm. by rewrite decide_True.
  - unfold setStarve, modify. cbn [heap with_heap].
    by rewrite lookup_alter_eq, heap_moveTo, lookup_alter_eq, Hod.
Qed.

(** ** Newborns when no address is reused *)

Lemma invoked_are_old (S : positive → Prop) rest : ∀ w (b : nat),
  (∀ live r, ¬ S (new live r).1) →
  (∀ p, p ∈ rest → S p) →
  (∀ q o, heap w !! q = Some o → (b ≤ serial o)%nat → ¬ S q) →
  ∀ k, k ∈ invoked rest w → (k < b)%nat.
Proof.
  induction rest as [|p rest IH]; intros w b Hnew HS Hold k; cbn [invoked].
  { by intros ?%elem_of_nil. }
  assert (HS' : ∀ q, q ∈ rest → S q) by (intros q ?; apply HS; by right).
  case_decide; [|by apply IH].
  destruct (heap w !! p) as [org|] eqn:Horg.
  2:{ unfold Organism_update. rewrite Horg. by apply IH. }
  destruct (Organism_update_spec p w org Horg) as [(_ & Hb & Hev) _].
  assert (Hold' : ∀ q o, heap (Organism_update p w) !! q = Some o →
                         (b ≤ serial o)%nat → ¬ S q).
  { intros q o' Hq Hser.
    destruct (Hev _ _ Hq) as [(o0 & Ho0 & Hs0 & _)|(_ & _ & _ & _ & _ & _ & live & r & ->)].
    - apply (Hold q o0); [done|lia].
    - apply Hnew. }
  intros [->|Hin]%elem_of_cons; [|by eapply IH].
  destruct (decide (b ≤ serial org)%nat) as [Hge|]; [|lia].
  destruct (Hold p org Horg Hge). apply HS. by left.
Qed.

(** * The claims *)

(** C1 (amended). The cell an update moves its organism to, and the cell in
    which it places an offspring, are both taken from the neighbours of the
    position the organism had when the update began: the neighbour list is
    computed once, and the breeding phase of an organism that has moved
    scans the neighbours of the cell it left. *)
Theorem targets_are_neighbours_of_start_position this w o :
  WorldInv w → heap w !! this = Some o →
  (∀ o', heap (Organism_update this w) !! this = Some o' →
     (getX o', getY o') = (getX o, getY o) ∨
     (getX o', getY o') ∈ getNeighbors w (getX o) (getY o)) ∧
  (∀ q o', heap (Organism_update this w) !! q = Some o' →
     (born w ≤ serial o')%nat →
     (getX o', getY o') ∈ getNeighbors w (getX o) (getY o)).
Proof.
  intros Hinv Ho.
  destruct (Organism_update_spec this w o Ho) as [(_ & _ & Hev) _].
  split.
  - intros o' Ho'.
    destruct (Hev _ _ Ho') as [(o0 & Ho0 & _ & _ & Hpos)|(Hne & _)]; [|done].
    by simplify_eq.
  - intros q o' Hq Hnew.
    destruct (Hev _ _ Hq) as [(o0 & Ho0 & Hs0 & _)|(_ & _ & _ & Hin & _)]; [|done].
    pose proof (inv_serial w Hinv _ _ Ho0). lia.
Qed.

(** C2. After every tick from a reachable world, a cell holds at most one
    organism (and an organism stands in one cell only), every organism of
    [allOrgs] is stored in the grid cell of its recorded position, and the
    occupant of every non-empty cell is an element of [allOrgs]. *)
Theorem tick_keeps_grid_and_registry_consistent w :
  reachable w → Consistent (World_update w).
Proof.
  intros Hr. apply WorldInv_Consistent.
  by apply Invariant_World_update, reachable_Invariant.
Qed.

(** C3. A doodlebug whose [starveCount] is at least [DOODLE_STARVE] when its
    update begins is removed by the single call of [deleteCell] on its own
    cell: it leaves the grid, [allOrgs] and the heap together, and nothing
    else changes: no other cell, no other organism, no generator (no phase
    ran). *)
Theorem starving_doodlebug_is_removed_first this w o s :
  WorldInv w → heap w !! this = Some o → kind o = Doodlebug s →
  DOODLE_STARVE ≤ s →
  Organism_update this w = deleteCell (getX o) (getY o) w ∧
  Organism_update this w =
    mkWorld (size w) (age w) (grid (setCell (getX o) (getY o) None w))
            (erase this (allOrgs w)) (delete this (heap w)) (born w) (env w) ∧
  (this ∉ allOrgs (Organism_update this w)) ∧
  (∀ q, q ≠ this → q ∈ allOrgs w → q ∈ allOrgs (Organism_update this w)) ∧
  (∀ x y, getCell (Organism_update this w) x y =
            if decide ((x, y) = (getX o, getY o)) then None else getCell w x y).
Proof.
  intros Hinv Ho Hk Hs.
  assert (Hst : starve o = true).
  { unfold starve. rewrite Hk. by apply Z.leb_le. }
  assert (Hup : Organism_update this w = deleteCell (getX o) (getY o) w).
  { unfold Organism_update. rewrite Ho, Hk. by apply Doodlebug_update_starved. }
  pose proof (inv_position w Hinv _ _ Ho) as Hcell.
  rewrite Hup. split_and!.
  - done.
  - by apply deleteCell_occupied.
  - rewrite (deleteCell_occupied _ _ _ _ Hcell). cbn [allOrgs].
    apply not_elem_of_erase, Hinv.
  - intros q Hne Hq. rewrite (deleteCell_occupied _ _ _ _ Hcell). cbn [allOrgs].
    by apply elem_of_erase_ne.
  - intros x y. apply (getCell_deleteCell _ _ _ this); [apply Hinv|done].
Qed.

(** C4. When a doodlebug that is not starving finds an ant in the cells
    next to it, the ant in the first such cell of the shuffled order is
    removed (no live object, no entry of [allOrgs] and no cell is that
    organism any more), the doodlebug stands in the ant's cell with
    [starveCount] 0 and the cell it left is empty. Whatever is updated
    afterwards, the eaten ant is not updated and stays removed. *)
Theorem doodlebug_eats_first_ant this w o s pre nx ny post a oa :
  WorldInv w → heap w !! this = Some o → kind o = Doodlebug s →
  s < DOODLE_STARVE →
  (shuffle GenDoodlebug (getNeighbors w (getX o) (getY o)) (env w)).1 =
    pre ++ (nx, ny) :: post →
  antAmong w pre = false →
  getCell w nx ny = Some a → heap w !! a = Some oa → isAnt oa = true →
  removed (serial oa) (Organism_update this w) ∧
  (∀ q, q ∈ allOrgs (Organism_update this w) →
     ∃ oq, heap (Organism_update this w) !! q = Some oq ∧ serial oq ≠ serial oa) ∧
  (∀ x y q, getCell (Organism_update this w) x y = Some q →
     ∃ oq, heap (Organism_update this w) !! q = Some oq ∧ serial oq ≠ serial oa) ∧
  getCell (Organism_update this w) nx ny = Some this ∧
  getCell (Organism_update this w) (getX o) (getY o) = None ∧
  (∃ o', heap (Organism_update this w) !! this = Some o' ∧
         getX o' = nx ∧ getY o' = ny ∧ kind o' = Doodlebug 0) ∧
  (∀ rest, (serial oa ∉ invoked rest (Organism_update this w)) ∧
           removed (serial oa) (runSnapshot rest (Organism_update this w))).
Proof.
  intros Hinv Ho Hk Hs Hsh Hpre Hcell Ha Hisant.
  assert (Hant : isAnt o = false) by (unfold isAnt; by rewrite Hk).
  set (N := getNeighbors w (getX o) (getY o)) in *.
  pose proof (shuffle_perm GenDoodlebug _ N (env w)) as Hp1. rewrite Hsh in Hp1.
  set (w1 := with_env (shuffle GenDoodlebug N (env w)).2 w).
  assert (Hinv1 : WorldInv w1) by (by apply WorldInv_with_env).
  destruct (eat_effect this w1 o nx ny a oa Hinv1 Ho Hant Hcell Ha Hisant)
    as (Hinv2 & Hrem2 & Hc2 & Hold2 & Ho2).
  set (w2 := setStarve this 0 (moveTo this nx ny (deleteCell nx ny w1))) in *.
  assert (Hup : Organism_update this w =
    breedPhase createDoodlebug DOODLE_BREED GenDoodlebug this
      (pre ++ (nx, ny) :: post) w2).
  { unfold Organism_update. rewrite Ho, Hk, Doodlebug_update_eq.
    unfold this_starve, this_X, this_Y. rewrite Ho. cbn [from_option].
    unfold starve. rewrite Hk. replace (DOODLE_STARVE <=? s) with false
      by (symmetry; by apply Z.leb_gt).
    lazy zeta. rewrite run_shuffle_eq. fold N. rewrite Hsh. lazy beta iota zeta.
    fold w1. rewrite (eatScan_first this pre nx ny post w1); [done|done|].
    apply holdsAnt_Some. by exists a, oa. }
  assert (Hs2 : size w2 = size w).
  { unfold w2, setStarve. cbn [modify size with_heap].
    by rewrite size_moveTo, size_deleteCell. }
  destruct (breedPhase_spec createDoodlebug (Doodlebug 0) DOODLE_BREED GenDoodlebug
              this (pre ++ (nx, ny) :: post) N w2 _ (ltac:(done)) (ltac:(by right)) Ho2)
    as (Hev & Hinv' & Hgrid & Hthis).
  { eapply inside_size; [exact Hs2|]. eapply inside_perm; [done|].
    apply inside_getNeighbors. }
  { by apply perm_subseteq. }
  rewrite <- Hup in *. specialize (Hinv' Hinv2). specialize (Hgrid (inv_shape _ Hinv2)).
  assert (Hrem : removed (serial oa) (Organism_update this w))
    by (by eapply removed_evolves).
  split_and!.
  - done.
  - intros q [oq Hq]%(inv_registry _ Hinv'). exists oq. split; [done|].
    by eapply Hrem.
  - intros x y q (oq & Hq & _)%(inv_occupant _ Hinv'). exists oq. split; [done|].
    by eapply Hrem.
  - destruct (Hgrid nx ny) as [->|[Hnone _]]; [done|congruence].
  - destruct (Hgrid (getX o) (getY o)) as [->|[_ Hin]]; [done|].
    rewrite Hp1 in Hin. by apply not_self_neighbor in Hin.
  - eexists. split; [exact Hthis|]. destruct o as [? ? ? [] ?]; done.
  - intros rest. split; [by apply removed_not_invoked|by apply removed_runSnapshot].
Qed.

(** C5. In a tick from a reachable world, a doodlebug that is not
    starving has its turn: until then the updates of the others leave it
    unchanged; its own update sets [starveCount] to 0 when a neighbouring
    cell holds an ant at that moment (it eats) and to the previous value
    plus 1 otherwise, whether it moves or not; and the updates that follow
    leave it unchanged, so this is the value at the end of the tick. *)
Theorem starveCount_at_end_of_tick w this o s :
  reachable w → heap w !! this = Some o → kind o = Doodlebug s →
  s < DOODLE_STARVE →
  ∃ pre post o',
    tickSnapshot w = pre ++ this :: post ∧
    heap (runSnapshot pre (tickStart w)) !! this = Some o ∧
    World_update w =
      runSnapshot post (Organism_update this (runSnapshot pre (tickStart w))) ∧
    heap (Organism_update this (runSnapshot pre (tickStart w))) !! this = Some o' ∧
    heap (World_update w) !! this = Some o' ∧
    serial o' = serial o ∧
    kind o' = Doodlebug
      (if antAmong (runSnapshot pre (tickStart w))
            (getNeighbors (runSnapshot pre (tickStart w)) (getX o) (getY o))
       then 0 else s + 1).
Proof.
  intros Hr Ho Hk Hs.
  pose proof (reachable_Invariant w Hr) as Hinv.
  pose proof (Invariant_tickStart w Hinv) as Hinv0.
  assert (Hant : isAnt o = false) by (unfold isAnt; by rewrite Hk).
  assert (Hst : starve o = false).
  { unfold starve. rewrite Hk. by apply Z.leb_gt. }
  assert (Hin : this ∈ tickSnapshot w).
  { unfold tickSnapshot. rewrite run_shuffle_eq. cbn [fst].
    rewrite shuffle_perm. apply (inv_registry w (proj1 Hinv)). by exists o. }
  apply list_elem_of_split in Hin as (pre & post & Hsplit).
  pose proof (NoDup_tickSnapshot w (inv_nodup w (proj1 Hinv))) as Hnd.
  rewrite Hsplit in Hnd. apply NoDup_app in Hnd as (_ & Hpre & Hnd).
  apply NoDup_cons in Hnd as [Hpost _].
  assert (Ho0 : heap (tickStart w) !! this = Some o).
  { unfold tickStart. by rewrite run_shuffle_eq. }
  set (wi := runSnapshot pre (tickStart w)).
  assert (Hoi : heap wi !! this = Some o).
  { apply persists_runSnapshot; [apply Hinv0| |done..].
    intros Hin. apply (Hpre _ Hin). by left. }
  assert (Hinvi : Invariant wi) by (by apply Invariant_runSnapshot).
  destruct (Doodlebug_update_spec this wi o Hoi Hant) as ((_ & _ & Hev) & Hinv' & Hthis).
  destruct (Hthis Hst) as (o' & Ho' & Hant' & _ & Hsc).
  assert (Hup : Organism_update this wi = Doodlebug_update this wi).
  { unfold Organism_update. by rewrite Hoi, Hk. }
  assert (Hturn : World_update w = runSnapshot post (Organism_update this wi)).
  { rewrite World_update_eq, Hsplit, runSnapshot_app. fold wi. cbn [runSnapshot].
    rewrite decide_True; [done|]. apply (inv_registry wi (proj1 Hinvi)). by exists o. }
  exists pre, post, o'. fold wi. rewrite Hup in *. split_and!; [done..| | |].
  - rewrite Hturn. apply persists_runSnapshot; [apply Hinv', Hinvi|done..].
  - destruct (Hev _ _ Ho') as [(o0 & Ho0' & Hs0 & _)|(Hne & _)]; [|done]. congruence.
  - unfold isAnt, getStarveCount in *. rewrite Hk in Hsc.
    destruct (kind o'); [done|]. by rewrite Hsc.
Qed.

(** C6. An organism that is not starving when its update begins survives
    it with the same dynamic type; its [breedCount] is then its previous
    value plus 1, or 0 when the previous value plus 1 reached the threshold
    of its species, whatever the neighbouring cells hold. The update of any
    other organism leaves the object unchanged, unless the address has been
    given to an organism constructed in between. *)
Theorem breedCount_after_update this w o :
  heap w !! this = Some o → starve o = false →
  (∃ o', heap (Organism_update this w) !! this = Some o' ∧
         isAnt o' = isAnt o ∧
         (getBreedCount o + 1 < breedThreshold (kind o) →
            getBreedCount o' = getBreedCount o + 1) ∧
         (breedThreshold (kind o) ≤ getBreedCount o + 1 → getBreedCount o' = 0)) ∧
  (∀ q oq o', q ≠ this → heap w !! q = Some oq →
     heap (Organism_update q w) !! this = Some o' →
     o' = o ∨ (born w ≤ serial o')%nat).
Proof.
  intros Ho Hst. split.
  - unfold Organism_update. rewrite Ho. destruct (kind o) as [|s] eqn:Hk.
    + destruct (Ant_update_spec this w o Ho) as (_ & _ & o' & Ho' & Hk' & Hbc).
      exists o'. split_and!; [done|by apply isAnt_kind| |];
        intros Hlt; rewrite Hbc; unfold bumped, breedThreshold in *.
      * destruct (Z.leb_spec ANT_BREED (getBreedCount o + 1)); [lia|done].
      * destruct (Z.leb_spec ANT_BREED (getBreedCount o + 1)); [done|lia].
    + assert (Hant : isAnt o = false) by (unfold isAnt; by rewrite Hk).
      destruct (Doodlebug_update_spec this w o Ho Hant) as (_ & _ & Hthis).
      destruct (Hthis Hst) as (o' & Ho' & Hant' & Hbc & _).
      exists o'. split_and!; [done|congruence| |];
        intros Hlt; rewrite Hbc; unfold bumped, breedThreshold in *.
      * destruct (Z.leb_spec DOODLE_BREED (getBreedCount o + 1)); [lia|done].
      * destruct (Z.leb_spec DOODLE_BREED (getBreedCount o + 1)); [done|lia].
  - intros q oq o' Hne Hq Ho'. by eapply update_frame.
Qed.

(** C8. In a tick from a reachable world no organism is updated twice; an
    entry of the snapshot that is not in [allOrgs] when its turn comes is
    skipped; and an organism that has been removed is not updated in the
    rest of the tick. *)
Theorem update_at_most_once_per_tick w :
  reachable w →
  NoDup (invoked (tickSnapshot w) (tickStart w)) ∧
  (∀ pre p post, tickSnapshot w = pre ++ p :: post →
     p ∉ allOrgs (runSnapshot pre (tickStart w)) →
     runSnapshot (p :: post) (runSnapshot pre (tickStart w)) =
       runSnapshot post (runSnapshot pre (tickStart w)) ∧
     invoked (p :: post) (runSnapshot pre (tickStart w)) =
       invoked post (runSnapshot pre (tickStart w))) ∧
  (∀ pre post k, tickSnapshot w = pre ++ post →
     removed k (runSnapshot pre (tickStart w)) →
     k ∉ invoked post (runSnapshot pre (tickStart w))).
Proof.
  intros [Hinv Hc]%reachable_Invariant. split_and!.
  - apply NoDup_invoked.
    + by apply Invariant_tickStart.
    + apply NoDup_tickSnapshot, Hinv.
  - intros pre p post _ Hout. cbn [runSnapshot invoked]. by rewrite !decide_False.
  - intros pre post k _ Hrem. by apply removed_not_invoked.
Qed.

(** C9 (amended). [getCell] outside the grid returns the null pointer and
    [setCell] outside the grid changes nothing; inside the grid [getCell]
    reads an element that the two vectors do have. [getNeighbors] returns
    distinct in-bounds cells at distance 1 along one axis: 4 of them for an
    interior cell and, on a grid of side at least 2, 2 for a corner cell and
    3 for any other border cell. *)
Theorem grid_access_is_total w x y :
  (inBounds w x y = false →
     getCell w x y = None ∧ ∀ org, setCell x y org w = w) ∧
  (shaped w → inBounds w x y = true →
     ∃ row c, grid w !! Z.to_nat x = Some row ∧ row !! Z.to_nat y = Some c ∧
              getCell w x y = c) ∧
  (∀ c, c ∈ getNeighbors w x y →
     inBounds w c.1 c.2 = true ∧ Z.abs (c.1 - x) + Z.abs (c.2 - y) = 1) ∧
  NoDup (getNeighbors w x y) ∧
  (0 < x < size w - 1 → 0 < y < size w - 1 →
     length (getNeighbors w x y) = 4%nat) ∧
  (2 ≤ size w → x = 0 ∨ x = size w - 1 → y = 0 ∨ y = size w - 1 →
     length (getNeighbors w x y) = 2%nat) ∧
  (2 ≤ size w → x = 0 ∨ x = size w - 1 → 0 < y < size w - 1 →
     length (getNeighbors w x y) = 3%nat) ∧
  (2 ≤ size w → 0 < x < size w - 1 → y = 0 ∨ y = size w - 1 →
     length (getNeighbors w x y) = 3%nat).
Proof.
  split_and!.
  - intros Hb. split; [by apply getCell_outside|].
    intros org. by apply setCell_outside.
  - intros [Hg Hrows] Hb. unfold getCell, cell. rewrite Hb. cbn [negb].
    apply inBounds_spec in Hb.
    destruct (lookup_lt_is_Some_2 (grid w) (Z.to_nat x)) as [row Hrow]; [lia|].
    destruct (lookup_lt_is_Some_2 row (Z.to_nat y)) as [c Hc].
    { rewrite (Hrows row); [lia|]. by eapply list_elem_of_lookup_2. }
    exists row, c. by rewrite Hrow, Hc.
  - intros c [Hb Hc]%elem_of_getNeighbors. split; [done|].
    destruct Hc as [-> | [-> | [-> | ->]]]; simpl; lia.
  - apply NoDup_getNeighbors.
  - intros Hx Hy. rewrite length_getNeighbors. bounds; simpl; lia.
  - intros Hs Hx Hy. rewrite length_getNeighbors. bounds; simpl; lia.
  - intros Hs Hx Hy. rewrite length_getNeighbors. bounds; simpl; lia.
  - intros Hs Hx Hy. rewrite length_getNeighbors. bounds; simpl; lia.
Qed.

(** C10. On an in-bounds cell that is occupied, [createAnt] and
    [createDoodlebug] change nothing; on an in-bounds cell that is empty,
    the new organism is appended to [allOrgs] and stored in the cell. *)
Theorem create_never_overwrites w x y :
  inBounds w x y = true →
  (∀ p, getCell w x y = Some p →
     createAnt x y w = w ∧ createDoodlebug x y w = w) ∧
  (shaped w → getCell w x y = None →
     (allOrgs (createAnt x y w) = allOrgs w ++ [new_addr w] ∧
      getCell (createAnt x y w) x y = Some (new_addr w)) ∧
     (allOrgs (createDoodlebug x y w) = allOrgs w ++ [new_addr w] ∧
      getCell (createDoodlebug x y w) x y = Some (new_addr w))).
Proof.
  intros Hb. split.
  - intros p Hp. unfold createAnt, createDoodlebug. by rewrite Hp.
  - intros Hsh Hc. rewrite createAnt_eq, createDoodlebug_eq, Hc.
    rewrite !getCell_place by done. rewrite decide_True by done.
    by rewrite !place_eq.
Qed.

(** X1. When [new] never returns an address of the snapshot during a tick,
    the tick updates no organism constructed during it. *)
Theorem newborn_waits_when_no_address_is_reused (S : positive → Prop) w :
  (∀ live r, ¬ S (new live r).1) →
  WorldInv w → (∀ p, p ∈ allOrgs w → S p) →
  ∀ k, k ∈ invoked (tickSnapshot w) (tickStart w) → (k < born w)%nat.
Proof.
  intros Hnew Hinv HS k Hk.
  eapply (invoked_are_old S (tickSnapshot w) (tickStart w)); [done| | |done].
  - intros p Hp. apply HS. revert Hp. unfold tickSnapshot.
    rewrite run_shuffle_eq. cbn [fst]. by rewrite shuffle_perm.
  - intros q o Hq Hser. unfold tickStart in Hq. rewrite run_shuffle_eq in Hq.
    cbn in Hq. pose proof (inv_serial w Hinv _ _ Hq). lia.
Qed.

End Properties.

(** * Further properties *)

Section Further.

Context {R : Type} `{RT : Runtime R}.
Implicit Types (w : World R) (this p q : positive) (o : Organism).

(** ** What no update touches: [size], [age] *)












(** X3. In every reachable world each organism has
    [0 <= breedCount < threshold of its species] and, for a doodlebug,
    [0 <= starveCount <= DOODLE_STARVE]: the counters stay far from the
    range of [int], so no increment of the program overflows. *)
Theorem counters_stay_below_thresholds w p o :
  reachable w → heap w !! p = Some o →
  0 ≤ getBreedCount o < breedThreshold (kind o) ∧
  0 ≤ getStarveCount o ≤ DOODLE_STARVE ∧
  breedThreshold (kind o) ≤ DOODLE_BREED.
Proof.
  intros [_ Hc]%reachable_Invariant Hp. destruct (Hc p o Hp) as [Hb Hs].
  split_and!; try apply Hb; try apply Hs.
  unfold breedThreshold, ANT_BREED, DOODLE_BREED. destruct (kind o); lia.
Qed.

(** ** What a scan finds *)

Lemma moveScan_cases this ns w :
  ((∀ c, c ∈ ns → getCell w c.1 c.2 ≠ None) ∧ moveScan this ns w = (w, false)) ∨
  (∃ nx ny, (nx, ny) ∈ ns ∧ getCell w nx ny = None ∧
            moveScan this ns w = (moveTo this nx ny w, true)).
Proof.
  induction ns as [|[nx ny] rest IH]; cbn [moveScan].
  { left. split; [by intros c ?%elem_of_nil|done]. }
  destruct (getCell w nx ny) as [p|] eqn:Hc.
  - destruct IH as [[Hall ->]|(mx & my & Hin & Hempty & ->)].
    + left. split; [|done]. intros c [->|Hin]%elem_of_cons; [simpl; by rewrite Hc|by apply Hall].
    + right. exists mx, my. split_and!; [by right|done..].
  - right. exists nx, ny. split_and!; [by left|done..].
Qed.

Lemma breedScan_cases create k ns w :
  creates create k →
  ((∀ c, c ∈ ns → getCell w c.1 c.2 ≠ None) ∧ breedScan create ns w = w) ∨
  (∃ nx ny, (nx, ny) ∈ ns ∧ getCell w nx ny = None ∧
            breedScan create ns w = place k nx ny w).
Proof.
  intros Hcr. induction ns as [|[nx ny] rest IH]; cbn [breedScan].
  { left. split; [by intros c ?%elem_of_nil|done]. }
  destruct (getCell w nx ny) as [p|] eqn:Hc.
  - destruct IH as [[Hall ->]|(mx & my & Hin & Hempty & ->)].
    + left. split; [|done]. intros c [->|Hin]%elem_of_cons; [simpl; by rewrite Hc|by apply Hall].
    + right. exists mx, my. split_and!; [by right|done..].
  - right. exists nx, ny. split_and!; [by left|done|by rewrite Hcr, Hc].
Qed.

Lemma elem_of_emptyCells w ns c :
  c ∈ emptyCells w ns ↔ c ∈ ns ∧ getCell w c.1 c.2 = None.
Proof. unfold emptyCells. rewrite list_elem_of_filter. tauto. Qed.

Lemma emptyCells_nil w ns :
  emptyCells w ns = [] ↔ ∀ c, c ∈ ns → getCell w c.1 c.2 ≠ None.
Proof.
  split.
  - intros Hnil c Hc Hempty.
    assert (c ∈ emptyCells w ns) as Hin by (by apply elem_of_emptyCells).
    rewrite Hnil in Hin. by apply elem_of_nil in Hin.
  - intros Hall. destruct (emptyCells w ns) as [|c l] eqn:HE; [done|].
    assert (c ∈ emptyCells w ns) as [Hc Hempty]%elem_of_emptyCells
      by (rewrite HE; by left).
    by destruct (Hall c Hc).
Qed.

Lemma NoDup_emptyCells w ns : NoDup ns → NoDup (emptyCells w ns).
Proof. apply NoDup_filter. Qed.

(** In a list without duplicates that contains [c], another element exists
    exactly when the list has two elements or more. *)
Lemma another_element `{EqDecision A} (l : list A) (c : A) :
  NoDup l → c ∈ l → (∃ d, d ∈ l ∧ d ≠ c) ↔ (2 ≤ length l)%nat.
Proof.
  intros Hnd Hc. split.
  - intros (d & Hd & Hne). destruct l as [|a [|b l]]; simpl; [|exfalso|lia].
    + by apply elem_of_nil in Hc.
    + apply list_elem_of_singleton in Hc, Hd. congruence.
  - destruct l as [|a [|b l]]; simpl; [lia..|]. intros _.
    apply NoDup_cons in Hnd as [Hab _]. rewrite not_elem_of_cons in Hab.
    destruct (decide (a = c)) as [->|Hne].
    + exists b. split; [right; by left|]. intros ->. by destruct Hab.
    + exists a. split; [by left|done].
Qed.

(** ** Updates that remove nobody *)

Lemma untouched_refl this w : untouched this w w.
Proof. by intros p o. Qed.

Lemma untouched_trans this w1 w2 w3 :
  untouched this w1 w2 → untouched this w2 w3 → untouched this w1 w3.
Proof. intros H1 H2 p o Hne Hp. apply H2; [done|]. by apply H1. Qed.

Lemma untouched_with_env this e w : untouched this w (with_env e w).
Proof. intros p o _ Hp. exact Hp. Qed.

Lemma untouched_modify f this w : untouched this w (modify f this w).
Proof.
  intros p o Hne Hp. unfold modify. cbn [heap with_heap]. by rewrite lookup_alter_ne.
Qed.

Lemma untouched_moveTo this nx ny w : untouched this w (moveTo this nx ny w).
Proof. intros p o Hne Hp. rewrite heap_moveTo. by rewrite lookup_alter_ne. Qed.

Lemma untouched_place this k x y w : untouched this w (place k x y w).
Proof.
  intros p o Hne Hp. rewrite place_eq. cbn [heap].
  rewrite lookup_insert_ne; [done|].
  intros Heq. pose proof (new_addr_fresh w). congruence.
Qed.

Lemma untouched_moveScan this ns w : untouched this w (moveScan this ns w).1.
Proof.
  destruct (moveScan_cases this ns w) as [[_ ->]|(nx & ny & _ & _ & ->)];
    [apply untouched_refl|apply untouched_moveTo].
Qed.

Lemma untouched_breedPhase create k threshold g this ns w :
  creates create k → untouched this w (breedPhase create threshold g this ns w).
Proof.
  intros Hcr. unfold breedPhase. lazy zeta.
  destruct (threshold <=? _); [|apply untouched_modify].
  rewrite run_shuffle_eq. lazy beta iota zeta.
  eapply untouched_trans; [apply untouched_modify|].
  eapply untouched_trans; [|apply untouched_modify].
  eapply untouched_trans; [apply untouched_with_env|].
  destruct (breedScan_cases create k (shuffle g ns (env (incBreed this w))).1
              (with_env (shuffle g ns (env (incBreed this w))).2 (incBreed this w)) Hcr)
    as [[_ ->]|(nx & ny & _ & _ & ->)]; [apply untouched_refl|apply untouched_place].
Qed.

(** ** Where the offspring goes *)

Lemma breedPhase_offspring create k threshold g this ns w o :
  creates create k → heap w !! this = Some o →
  ((threshold ≤ getBreedCount o + 1 ∧ ∃ c, c ∈ ns ∧ getCell w c.1 c.2 = None) →
     ∃ a nx ny, (nx, ny) ∈ ns ∧ getCell w nx ny = None ∧
       allOrgs (breedPhase create threshold g this ns w) = allOrgs w ++ [a] ∧
       heap w !! a = None ∧
       heap (breedPhase create threshold g this ns w) !! a =
         Some (mkOrganism nx ny 0 k (born w)) ∧
       born (breedPhase create threshold g this ns w) = S (born w)) ∧
  (¬ (threshold ≤ getBreedCount o + 1 ∧ ∃ c, c ∈ ns ∧ getCell w c.1 c.2 = None) →
     allOrgs (breedPhase create threshold g this ns w) = allOrgs w ∧
     born (breedPhase create threshold g this ns w) = born w).
Proof.
  intros Hcr Ho. unfold breedPhase. lazy zeta.
  assert (Ho3 : heap (incBreed this w) !! this = Some (org_incBreed o)).
  { unfold incBreed, modify. cbn [heap with_heap]. by rewrite lookup_alter_eq, Ho. }
  replace (this_breedCount (incBreed this w) this) with (getBreedCount o + 1).
  2:{ unfold this_breedCount. by rewrite Ho3. }
  destruct (Z.leb_spec threshold (getBreedCount o + 1)) as [Hge|Hlt].
  2:{ split; [intros [? _]; lia|done]. }
  rewrite run_shuffle_eq. lazy beta iota zeta.
  pose proof (shuffle_perm g _ ns (env (incBreed this w))) as Hp.
  set (ns2 := (shuffle g ns (env (incBreed this w))).1) in *.
  set (w4 := with_env _ (incBreed this w)).
  pose proof (new_addr_fresh w4) as Hfresh.
  assert (Ho4 : heap w4 !! this = Some (org_incBreed o)) by exact Ho3.
  destruct (breedScan_cases create k ns2 w4 Hcr) as [[Hall ->]|(nx & ny & Hin & Hempty & ->)].
  - split; [|done]. intros [_ (c & Hc & Hempty)].
    destruct (Hall c); [by rewrite Hp|done].
  - split; [|intros Hno; destruct Hno; split; [done|];
             exists (nx, ny); split; [by rewrite <- Hp|done]].
    intros _. exists (new_addr w4), nx, ny. rewrite place_eq.
    split_and!; [by rewrite <- Hp|done|done| | |done].
    + unfold w4, incBreed, modify in Hfresh. cbn [heap with_heap with_env] in Hfresh.
      by apply lookup_alter_None in Hfresh.
    + unfold resetBreed, modify. cbn [heap with_heap].
      rewrite lookup_alter_ne by (intros Heq; rewrite <- Heq in Hfresh; congruence).
      by rewrite lookup_insert_eq.
Qed.

Lemma heap_None_moveTo this nx ny w a :
  heap (moveTo this nx ny w) !! a = None → heap w !! a = None.
Proof. rewrite heap_moveTo. by intros ?%lookup_alter_None. Qed.

(** X4. What [Ant::update] does to the world around the ant. It never
    removes or changes another organism. The ant stays where it is exactly
    when no neighbouring cell is empty, and otherwise moves into a cell that
    was an empty neighbour, leaving its own cell empty. It places an
    offspring exactly when its [breedCount] reaches the threshold and it had
    at least two empty neighbouring cells at the start: the offspring is a
    new ant with [breedCount] 0, appended to [allOrgs], standing in a cell
    that was an empty neighbour of the cell the parent left. With fewer
    than two such cells, or below the threshold, [allOrgs] is unchanged. *)
Theorem ant_update_outcome this w o :
  WorldInv w → heap w !! this = Some o → kind o = Ant →
  untouched this w (Organism_update this w) ∧
  (∃ o', heap (Organism_update this w) !! this = Some o' ∧
     ((emptyNeighbours w o = [] ∧ (getX o', getY o') = (getX o, getY o)) ∨
      ((getX o', getY o') ∈ emptyNeighbours w o ∧
       getCell (Organism_update this w) (getX o) (getY o) = None))) ∧
  ((ANT_BREED ≤ getBreedCount o + 1 ∧ (2 ≤ length (emptyNeighbours w o))%nat) →
     ∃ a oa, allOrgs (Organism_update this w) = allOrgs w ++ [a] ∧
       heap w !! a = None ∧ heap (Organism_update this w) !! a = Some oa ∧
       kind oa = Ant ∧ getBreedCount oa = 0 ∧
       (getX oa, getY oa) ∈ emptyNeighbours w o ∧
       getCell (Organism_update this w) (getX oa) (getY oa) = Some a) ∧
  (¬ (ANT_BREED ≤ getBreedCount o + 1 ∧ (2 ≤ length (emptyNeighbours w o))%nat) →
     allOrgs (Organism_update this w) = allOrgs w).
Proof.
  intros Hinv Ho Hk.
  destruct (Ant_update_spec this w o Ho) as (_ & Hinv' & _). specialize (Hinv' Hinv).
  assert (Hup : Organism_update this w = Ant_update this w).
  { unfold Organism_update. by rewrite Ho, Hk. }
  rewrite Hup in *. clear Hup. revert Hinv'. rewrite Ant_update_eq.
  replace (this_X w this) with (getX o) by (unfold this_X; by rewrite Ho).
  replace (this_Y w this) with (getY o) by (unfold this_Y; by rewrite Ho).
  unfold emptyNeighbours. set (N := getNeighbors w (getX o) (getY o)).
  lazy zeta. rewrite run_shuffle_eq. lazy beta iota zeta.
  pose proof (shuffle_perm GenAnt _ N (env w)) as Hp1.
  set (ns1 := (shuffle GenAnt N (env w)).1) in *.
  set (w1 := with_env _ w).
  assert (Hin1 : inside w1 ns1).
  { eapply inside_perm; [done|]. apply (inside_size w); [done|apply inside_getNeighbors]. }
  assert (Hself : (getX o, getY o) ∉ ns1).
  { rewrite Hp1. apply not_self_neighbor. }
  assert (Hsh1 : shaped w1) by apply Hinv.
  assert (Hnd : NoDup (emptyCells w N)) by apply NoDup_emptyCells, NoDup_getNeighbors.
  destruct (moveScan_cases this ns1 w1) as [[Hall Hms]|(nx & ny & Hin & Hempty & Hms)];
    rewrite Hms; cbn [fst]; intros Hinv'.
  - assert (HE : emptyCells w N = []).
    { apply emptyCells_nil. intros c Hc. apply (Hall c). by rewrite Hp1. }
    destruct (breedPhase_spec createAnt Ant ANT_BREED GenAnt this ns1 N w1 o)
      as (_ & _ & _ & Hthis); [done|by left|done|done|by apply perm_subseteq|].
    destruct (breedPhase_offspring createAnt Ant ANT_BREED GenAnt this ns1 w1 o)
      as [_ Hnone]; [done..|].
    assert (Hno : ¬ (ANT_BREED ≤ getBreedCount o + 1 ∧
                     ∃ c, c ∈ ns1 ∧ getCell w1 c.1 c.2 = None)).
    { intros [_ (c & Hc & Hce)]. by destruct (Hall c). }
    split_and!.
    + eapply untouched_trans; [apply untouched_with_env|by eapply untouched_breedPhase].
    + eexists. split; [exact Hthis|]. left. by split.
    + rewrite HE. simpl. lia.
    + intros _. by destruct (Hnone Hno).
  - assert (Hb : inBounds w1 nx ny = true) by apply (Hin1 (nx, ny) Hin).
    assert (HcE : (nx, ny) ∈ emptyCells w N).
    { apply elem_of_emptyCells. split; [by rewrite <- Hp1|done]. }
    set (w2 := moveTo this nx ny w1) in *.
    assert (Ho2 : heap w2 !! this = Some (org_setPos nx ny o)).
    { unfold w2. rewrite heap_moveTo, lookup_alter_eq.
      change (heap w1) with (heap w). by rewrite Ho. }
    assert (Hget2 : ∀ x y, (x, y) ∈ ns1 →
              getCell w2 x y = if decide ((x, y) = (nx, ny)) then Some this
                               else getCell w x y).
    { intros x y Hxy. unfold w2. erewrite getCell_moveTo by done.
      rewrite decide_False by (intros Heq; by rewrite Heq in Hxy). done. }
    assert (Hold2 : getCell w2 (getX o) (getY o) = None).
    { unfold w2. erewrite getCell_moveTo by done. by rewrite decide_True. }
    assert (Hsh2 : shaped w2) by (by apply shaped_moveTo).
    assert (Hin2 : inside w2 ns1).
    { eapply inside_size; [|exact Hin1]. apply size_moveTo. }
    assert (Htwo : (∃ c, c ∈ ns1 ∧ getCell w2 c.1 c.2 = None) ↔
                   (2 ≤ length (emptyCells w N))%nat).
    { rewrite <- (another_element _ (nx, ny)) by done. split.
      - intros ([x y] & Hc & Hce). simpl in Hce. rewrite Hget2 in Hce by done.
        case_decide as Hne; [done|]. exists (x, y). split; [|done].
        apply elem_of_emptyCells. split; [by rewrite <- Hp1|done].
      - intros ([x y] & [Hc Hce]%elem_of_emptyCells & Hne).
        exists (x, y). rewrite <- Hp1 in Hc. split; [done|]. simpl.
        rewrite Hget2 by done. by rewrite decide_False. }
    destruct (breedPhase_spec createAnt Ant ANT_BREED GenAnt this ns1 N w2
                (org_setPos nx ny o))
      as (_ & _ & Hgrid & Hthis); [done|by left|done|done|by apply perm_subseteq|].
    destruct (breedPhase_offspring createAnt Ant ANT_BREED GenAnt this ns1 w2
                (org_setPos nx ny o)) as [Hsome Hnone]; [done..|].
    rewrite Htwo in Hsome, Hnone. cbn [getBreedCount org_setPos] in Hsome, Hnone.
    split_and!.
    + eapply untouched_trans; [apply untouched_with_env|].
      eapply untouched_trans; [apply untouched_moveTo|by eapply untouched_breedPhase].
    + eexists. split; [exact Hthis|]. right. split; [exact HcE|].
      destruct (Hgrid Hsh2 (getX o) (getY o)) as [->|[_ Hbad]]; [done|].
      by destruct Hself.
    + intros Hyes. destruct (Hsome Hyes) as (a & mx & my & Hm & Hme & Hall & Hfresh & Ha & _).
      exists a, (mkOrganism mx my 0 Ant (born w2)). split_and!; try done.
      * rewrite Hall. unfold w2. by rewrite allOrgs_moveTo.
      * by apply heap_None_moveTo in Hfresh.
      * simpl. apply elem_of_emptyCells. rewrite Hget2 in Hme by done.
        case_decide; [done|]. split; [by rewrite <- Hp1|done].
      * by apply (inv_position _ Hinv' _ _ Ha).
    + intros Hno. destruct (Hnone Hno) as [-> _]. apply (allOrgs_moveTo _ _ _ w1).
Qed.

(** ** The doodlebug's update *)

Lemma antAmong_split w ns :
  antAmong w ns = true →
  ∃ pre nx ny post, ns = pre ++ (nx, ny) :: post ∧ antAmong w pre = false ∧
                    holdsAnt w (getCell w nx ny) = true.
Proof.
  induction ns as [|[x y] rest IH]; cbn [antAmong existsb fst snd]; [done|].
  destruct (holdsAnt w (getCell w x y)) eqn:Hh.
  - intros _. by exists [], x, y, rest.
  - intros (pre & nx & ny & post & -> & Hpre & Hn)%IH.
    exists ((x, y) :: pre), nx, ny, post. split_and!; [done| |done].
    cbn [antAmong existsb fst snd]. by rewrite Hh.
Qed.

Lemma eat_frame this w o nx ny a :
  WorldInv w → heap w !! this = Some o → getCell w nx ny = Some a → a ≠ this →
  (∀ x y, getCell (setStarve this 0 (moveTo this nx ny (deleteCell nx ny w))) x y =
            if decide ((x, y) = (getX o, getY o)) then None
            else if decide ((x, y) = (nx, ny)) then Some this
            else getCell w x y) ∧
  (∀ p, p ≠ this → p ≠ a →
        heap (setStarve this 0 (moveTo this nx ny (deleteCell nx ny w))) !! p =
        heap w !! p) ∧
  born (setStarve this 0 (moveTo this nx ny (deleteCell nx ny w))) = born w ∧
  size (setStarve this 0 (moveTo this nx ny (deleteCell nx ny w))) = size w.
Proof.
  intros Hinv Ho Hcell Hne.
  pose proof (getCell_Some_inBounds _ _ _ _ Hcell) as Hb.
  assert (Hheapd : heap (deleteCell nx ny w) = delete a (heap w)).
  { by rewrite (deleteCell_occupied _ _ _ _ Hcell). }
  assert (Hod : heap (deleteCell nx ny w) !! this = Some o).
  { rewrite Hheapd. by rewrite lookup_delete_ne. }
  split_and!.
  - intros x y.
    change (getCell (setStarve this 0 ?w') x y) with (getCell w' x y).
    erewrite getCell_moveTo;
      [|apply WorldInv_deleteCell, Hinv|exact Hod
       |unfold inBounds; by rewrite size_deleteCell].
    rewrite (getCell_deleteCell _ _ _ a) by (done || apply Hinv).
    repeat case_decide; done.
  - intros p Hp Hpa. unfold setStarve, modify. cbn [heap with_heap].
    rewrite heap_moveTo, Hheapd.
    by rewrite !lookup_alter_ne, lookup_delete_ne.
  - cbn [setStarve modify born with_heap]. rewrite born_moveTo.
    by rewrite (deleteCell_occupied _ _ _ _ Hcell).
  - cbn [setStarve modify size with_heap]. by rewrite size_moveTo, size_deleteCell.
Qed.

(** X5. What [Doodlebug::update] does for a doodlebug that is not
    starving. If a neighbouring cell holds an ant, the doodlebug ends in a
    neighbouring cell that held an ant; otherwise it stays exactly when no
    neighbouring cell is empty and else moves into a cell that was an empty
    neighbour. Whenever it leaves its cell, that cell is empty afterwards.
    The only other organism that can be affected is the one that stood in
    the cell the doodlebug ends in. An offspring is constructed exactly when
    [breedCount] reaches the threshold and enough neighbouring cells were
    empty at the start: one after a meal, two otherwise (the doodlebug has
    then taken one of them itself, and the breeding scan looks at the
    neighbours of the cell it left). The offspring is a doodlebug with
    [breedCount] 0 and [starveCount] 0, last in [allOrgs], standing in a
    cell that was an empty neighbour at the start. *)
Theorem doodlebug_update_outcome this w o :
  WorldInv w → heap w !! this = Some o → isAnt o = false → starve o = false →
  (∃ o', heap (Organism_update this w) !! this = Some o' ∧
     (if antAmong w (getNeighbors w (getX o) (getY o))
      then (getX o', getY o') ∈ getNeighbors w (getX o) (getY o) ∧
           holdsAnt w (getCell w (getX o') (getY o')) = true ∧
           getCell (Organism_update this w) (getX o) (getY o) = None
      else (emptyNeighbours w o = [] ∧ (getX o', getY o') = (getX o, getY o)) ∨
           ((getX o', getY o') ∈ emptyNeighbours w o ∧
            getCell (Organism_update this w) (getX o) (getY o) = None)) ∧
     (∀ p op, p ≠ this → heap w !! p = Some op →
        getCell w (getX o') (getY o') ≠ Some p →
        heap (Organism_update this w) !! p = Some op)) ∧
  ((DOODLE_BREED ≤ getBreedCount o + 1 ∧
    ((if antAmong w (getNeighbors w (getX o) (getY o)) then 1 else 2)
       ≤ length (emptyNeighbours w o))%nat) →
     born (Organism_update this w) = S (born w) ∧
     ∃ a oa, last (allOrgs (Organism_update this w)) = Some a ∧
       heap (Organism_update this w) !! a = Some oa ∧
       kind oa = Doodlebug 0 ∧ getBreedCount oa = 0 ∧ serial oa = born w ∧
       (getX oa, getY oa) ∈ emptyNeighbours w o ∧
       getCell (Organism_update this w) (getX oa) (getY oa) = Some a) ∧
  (¬ (DOODLE_BREED ≤ getBreedCount o + 1 ∧
      ((if antAmong w (getNeighbors w (getX o) (getY o)) then 1 else 2)
         ≤ length (emptyNeighbours w o))%nat) →
     born (Organism_update this w) = born w).
Proof.
  intros Hinv Ho Hant Hst.
  destruct (Doodlebug_update_spec this w o Ho Hant) as (_ & Hinv' & _).
  specialize (Hinv' Hinv).
  assert (Hup : Organism_update this w = Doodlebug_update this w).
  { unfold Organism_update. rewrite Ho. unfold isAnt in Hant. by destruct (kind o). }
  rewrite Hup in *. clear Hup. revert Hinv'. rewrite Doodlebug_update_eq.
  replace (this_X w this) with (getX o) by (unfold this_X; by rewrite Ho).
  replace (this_Y w this) with (getY o) by (unfold this_Y; by rewrite Ho).
  replace (this_starve w this) with (starve o) by (unfold this_starve; by rewrite Ho).
  rewrite Hst. unfold emptyNeighbours.
  set (N := getNeighbors w (getX o) (getY o)).
  lazy zeta. rewrite run_shuffle_eq. lazy beta iota zeta.
  pose proof (shuffle_perm GenDoodlebug _ N (env w)) as Hp1.
  set (ns1 := (shuffle GenDoodlebug N (env w)).1) in *.
  set (w1 := with_env _ w).
  assert (Hinv1 : WorldInv w1) by (by apply WorldInv_with_env).
  assert (Hin1 : inside w1 ns1).
  { eapply inside_perm; [done|]. apply (inside_size w); [done|apply inside_getNeighbors]. }
  assert (Hself : (getX o, getY o) ∉ ns1).
  { rewrite Hp1. apply not_self_neighbor. }
  assert (Hnd : NoDup (emptyCells w N)) by apply NoDup_emptyCells, NoDup_getNeighbors.
  assert (Hnear1 : antAmong w1 ns1 = antAmong w N) by (by apply (antAmong_perm w)).
  destruct (antAmong w N) eqn:Hnear.
  - destruct (antAmong_split w1 ns1 Hnear1) as (pre & nx & ny & post & Hns & Hpre & Hh).
    assert (Heat : eatScan this ns1 w1 =
                   (setStarve this 0 (moveTo this nx ny (deleteCell nx ny w1)), true)).
    { rewrite Hns. by apply eatScan_first. }
    rewrite Heat. cbn [negb]. lazy beta iota.
    pose proof Hh as (a & oa & Hcell & Ha & Hoa)%holdsAnt_Some.
    assert (Hne : a ≠ this).
    { intros ->. change (heap w1) with (heap w) in Ha. congruence. }
    destruct (eat_frame this w1 o nx ny a Hinv1 Ho Hcell Hne)
      as (Hget3 & Hheap3 & Hborn3 & Hsize3).
    destruct (eat_effect this w1 o nx ny a oa Hinv1 Ho Hant Hcell Ha Hoa)
      as (Hinv3 & _ & _ & Hold3 & Ho3).
    set (w3 := setStarve this 0 (moveTo this nx ny (deleteCell nx ny w1))) in *.
    assert (HinN : (nx, ny) ∈ ns1).
    { rewrite Hns. apply elem_of_app. right. left. }
    assert (Hin3 : inside w3 ns1) by (by eapply inside_size).
    assert (Hroom : (∃ c, c ∈ ns1 ∧ getCell w3 c.1 c.2 = None) ↔
                    (1 ≤ length (emptyCells w N))%nat).
    { split.
      - intros ([x y] & Hc & Hce). simpl in Hce. rewrite Hget3 in Hce.
        rewrite decide_False in Hce by (intros Heq; by rewrite Heq in Hc).
        case_decide; [done|].
        assert (Hmem : (x, y) ∈ emptyCells w N).
        { apply elem_of_emptyCells. split; [by rewrite <- Hp1|done]. }
        destruct (emptyCells w N); [by apply elem_of_nil in Hmem|simpl; lia].
      - destruct (emptyCells w N) as [|[x y] rest] eqn:HE; [simpl; lia|]. intros _.
        assert (Hmem : (x, y) ∈ emptyCells w N) by (rewrite HE; left).
        apply elem_of_emptyCells in Hmem as [Hc Hce]. rewrite <- Hp1 in Hc.
        exists (x, y). split; [done|]. simpl. rewrite Hget3.
        rewrite decide_False by (intros Heq; by rewrite Heq in Hc).
        rewrite decide_False; [done|]. intros [= -> ->]. simpl in Hce.
        change (getCell w1 nx ny) with (getCell w nx ny) in Hcell. congruence. }
    assert (Hbc3 : getBreedCount (org_setStarve 0 (org_setPos nx ny o)) = getBreedCount o).
    { by destruct o as [? ? ? [] ?]. }
    destruct (breedPhase_spec createDoodlebug (Doodlebug 0) DOODLE_BREED GenDoodlebug
                this ns1 N w3 (org_setStarve 0 (org_setPos nx ny o)))
      as (_ & _ & Hgrid & Hthis); [done|by right|done|done|by apply perm_subseteq|].
    destruct (breedPhase_offspring createDoodlebug (Doodlebug 0) DOODLE_BREED
                GenDoodlebug this ns1 w3 (org_setStarve 0 (org_setPos nx ny o)))
      as [Hsome Hnone]; [done..|].
    rewrite Hroom, Hbc3 in Hsome, Hnone. intros Hinv'.
    assert (Hx3 : getX (org_setStarve 0 (org_setPos nx ny o)) = nx)
      by (by destruct o as [? ? ? [] ?]).
    assert (Hy3 : getY (org_setStarve 0 (org_setPos nx ny o)) = ny)
      by (by destruct o as [? ? ? [] ?]).
    split_and!.
    + eexists. split; [exact Hthis|]. cbn [getX getY]. rewrite Hx3, Hy3. split_and!.
      * by rewrite <- Hp1.
      * exact Hh.
      * destruct (Hgrid (inv_shape _ Hinv3) (getX o) (getY o)) as [->|[_ Hbad]]; [done|].
        by destruct Hself.
      * intros p op Hp Hop Hnot.
        assert (Hpa : p ≠ a).
        { intros ->. change (getCell w1 nx ny) with (getCell w nx ny) in Hcell.
          congruence. }
        eapply untouched_breedPhase; [done|done|]. by rewrite Hheap3.
    + intros Hyes.
      destruct (Hsome Hyes) as (b & mx & my & Hm & Hme & Hall & _ & Hb & Hborn).
      split; [by rewrite Hborn, Hborn3|].
      exists b, (mkOrganism mx my 0 (Doodlebug 0) (born w3)).
      split_and!; try done.
      * rewrite Hall. apply last_snoc.
      * simpl. apply elem_of_emptyCells. split; [by rewrite <- Hp1|].
        simpl. rewrite Hget3 in Hme.
        rewrite decide_False in Hme by (intros Heq; by rewrite Heq in Hm).
        by case_decide.
      * by apply (inv_position _ Hinv' _ _ Hb).
    + intros Hno. destruct (Hnone Hno) as [_ ->]. exact Hborn3.
  - rewrite (eatScan_none this ns1 w1) by done. cbn [negb]. lazy beta iota.
    rewrite run_shuffle_eq. lazy beta iota zeta.
    pose proof (shuffle_perm GenDoodlebug _ ns1 (env w1)) as Hp2.
    set (ns2 := (shuffle GenDoodlebug ns1 (env w1)).1) in *.
    set (w2 := with_env _ w1).
    assert (HpN : ns2 ≡ₚ N) by (by etrans).
    assert (Hin2 : inside w2 ns2) by (eapply inside_perm; [exact Hp2|exact Hin1]).
    assert (Hself2 : (getX o, getY o) ∉ ns2) by (by rewrite Hp2).
    assert (Hsh2 : shaped w2) by apply Hinv.
    destruct (moveScan_cases this ns2 w2) as [[Hall Hms]|(nx & ny & Hin & Hempty & Hms)];
      rewrite Hms; cbn [fst].
    + change (heap w2) with (heap w). rewrite Ho. cbn [from_option].
      set (w4 := setStarve this (getStarveCount o + 1) w2).
      assert (Ho4 : heap w4 !! this = Some (org_setStarve (getStarveCount o + 1) o)).
      { unfold w4, setStarve, modify. cbn [heap with_heap].
        rewrite lookup_alter_eq. change (heap w2) with (heap w). by rewrite Ho. }
      assert (HE : emptyCells w N = []).
      { apply emptyCells_nil. intros c Hc. apply (Hall c). by rewrite HpN. }
      destruct (breedPhase_spec createDoodlebug (Doodlebug 0) DOODLE_BREED GenDoodlebug
                  this ns2 N w4 (org_setStarve (getStarveCount o + 1) o))
        as (_ & _ & _ & Hthis); [done|by right|done|done|by apply perm_subseteq|].
      destruct (breedPhase_offspring createDoodlebug (Doodlebug 0) DOODLE_BREED
                  GenDoodlebug this ns2 w4 (org_setStarve (getStarveCount o + 1) o))
        as [_ Hnone]; [done..|].
      assert (Hno : ¬ (DOODLE_BREED ≤
                         getBreedCount (org_setStarve (getStarveCount o + 1) o) + 1 ∧
                       ∃ c, c ∈ ns2 ∧ getCell w4 c.1 c.2 = None)).
      { intros [_ (c & Hc & Hce)]. by destruct (Hall c). }
      intros Hinv'. split_and!.
      * eexists. split; [exact Hthis|]. split.
        -- left. split; [done|]. by destruct o as [? ? ? [] ?].
        -- intros p op Hp Hop _. eapply untouched_breedPhase; [done|done|].
           unfold w4. by apply untouched_modify.
      * rewrite HE. simpl. lia.
      * intros _. by destruct (Hnone Hno) as [_ ->].
    + assert (Hb : inBounds w2 nx ny = true) by apply (Hin2 (nx, ny) Hin).
      assert (HcE : (nx, ny) ∈ emptyCells w N).
      { apply elem_of_emptyCells. split; [by rewrite <- HpN|done]. }
      set (w3 := moveTo this nx ny w2) in *.
      assert (Ho3 : heap w3 !! this = Some (org_setPos nx ny o)).
      { unfold w3. rewrite heap_moveTo, lookup_alter_eq.
        change (heap w2) with (heap w). by rewrite Ho. }
      rewrite Ho3. cbn [from_option].
      set (o4 := org_setStarve (getStarveCount (org_setPos nx ny o) + 1)
                   (org_setPos nx ny o)).
      set (w4 := setStarve this _ w3).
      assert (Ho4 : heap w4 !! this = Some o4).
      { unfold w4, setStarve, modify. cbn [heap with_heap].
        by rewrite lookup_alter_eq, Ho3. }
      assert (Hget4 : ∀ x y, (x, y) ∈ ns2 →
                getCell w4 x y = if decide ((x, y) = (nx, ny)) then Some this
                                 else getCell w x y).
      { intros x y Hxy. change (getCell w4 x y) with (getCell w3 x y).
        unfold w3. erewrite getCell_moveTo; [|done|exact Ho|done].
        rewrite decide_False by (intros Heq; by rewrite Heq in Hxy). done. }
      assert (Hsh4 : shaped w4) by (by apply shaped_moveTo).
      assert (Hin4 : inside w4 ns2).
      { eapply inside_size; [|exact Hin2]. apply size_moveTo. }
      assert (Htwo : (∃ c, c ∈ ns2 ∧ getCell w4 c.1 c.2 = None) ↔
                     (2 ≤ length (emptyCells w N))%nat).
      { rewrite <- (another_element _ (nx, ny)) by done. split.
        - intros ([x y] & Hc & Hce). simpl in Hce. rewrite Hget4 in Hce by done.
          case_decide as Hne; [done|]. exists (x, y). split; [|done].
          apply elem_of_emptyCells. split; [by rewrite <- HpN|done].
        - intros ([x y] & [Hc Hce]%elem_of_emptyCells & Hne).
          exists (x, y). rewrite <- HpN in Hc. split; [done|]. simpl.
          rewrite Hget4 by done. by rewrite decide_False. }
      assert (Hbc4 : getBreedCount o4 = getBreedCount o)
        by (unfold o4; by destruct o as [? ? ? [] ?]).
      assert (Hx4 : getX o4 = nx) by (unfold o4; by destruct o as [? ? ? [] ?]).
      assert (Hy4 : getY o4 = ny) by (unfold o4; by destruct o as [? ? ? [] ?]).
      destruct (breedPhase_spec createDoodlebug (Doodlebug 0) DOODLE_BREED GenDoodlebug
                  this ns2 N w4 o4)
        as (_ & _ & Hgrid & Hthis); [done|by right|done|done|by apply perm_subseteq|].
      destruct (breedPhase_offspring createDoodlebug (Doodlebug 0) DOODLE_BREED
                  GenDoodlebug this ns2 w4 o4) as [Hsome Hnone]; [done..|].
      assert (Hborn4 : born w4 = born w).
      { unfold w4, w3. cbn [setStarve modify born with_heap]. by rewrite born_moveTo. }
      rewrite Htwo, Hbc4, Hborn4 in Hsome, Hnone. intros Hinv'.
      split_and!.
      * eexists. split; [exact Hthis|]. cbn [getX getY]. rewrite Hx4, Hy4. split.
        -- right. split; [exact HcE|].
           assert (Hold4 : getCell w4 (getX o) (getY o) = None).
           { change (getCell w4 ?x ?y) with (getCell w3 x y).
             unfold w3. erewrite getCell_moveTo; [|done|exact Ho|done].
             by rewrite decide_True. }
           destruct (Hgrid Hsh4 (getX o) (getY o)) as [->|[_ Hbad]]; [done|].
           by destruct Hself2.
        -- intros p op Hp Hop _. eapply untouched_breedPhase; [done|done|].
           unfold w4. apply untouched_modify; [done|].
           unfold w3. by apply untouched_moveTo.
      * intros Hyes.
        destruct (Hsome Hyes) as (b & mx & my & Hm & Hme & Hall & _ & Hb' & Hborn).
        split; [exact Hborn|].
        exists b, (mkOrganism mx my 0 (Doodlebug 0) (born w)).
        split_and!; try done.
        -- rewrite Hall. apply last_snoc.
        -- simpl. apply elem_of_emptyCells. rewrite Hget4 in Hme by done.
           case_decide; [done|]. split; [by rewrite <- HpN|done].
        -- by apply (inv_position _ Hinv' _ _ Hb').
      * intros Hno. by destruct (Hnone Hno) as [_ ->].
Qed.

(** ** Counting cells and organisms *)

Lemma elem_of_cellsOf n x y : (x, y) ∈ cellsOf n ↔ 0 ≤ x < n ∧ 0 ≤ y < n.
Proof.
  unfold cellsOf. rewrite list_elem_of_bind. split.
  - intros (r & (c & [= -> ->] & Hc)%list_elem_of_fmap & Hr).
    apply elem_of_seqZ in Hc, Hr. lia.
  - intros [Hx Hy]. exists x. split; [|apply elem_of_seqZ; lia].
    apply list_elem_of_fmap. exists y. split; [done|apply elem_of_seqZ; lia].
Qed.

Lemma elem_of_cellsOf_inBounds w c : c ∈ cellsOf (size w) ↔ inBounds w c.1 c.2 = true.
Proof.
  destruct c as [x y]. rewrite elem_of_cellsOf. unfold inBounds. simpl.
  rewrite !andb_true_iff, !Z.leb_le, !Z.ltb_lt. lia.
Qed.

Lemma NoDup_cellsOf n : NoDup (cellsOf n).
Proof.
  unfold cellsOf. apply NoDup_bind; [| |apply NoDup_seqZ].
  - intros r1 r2 c _ _ (c1 & -> & _)%list_elem_of_fmap (c2 & [= -> _] & _)%list_elem_of_fmap.
    done.
  - intros r _. apply NoDup_fmap_2; [|apply NoDup_seqZ]. by intros c1 c2 [= ->].
Qed.

Lemma length_cellsOf n : length (cellsOf n) = (Z.to_nat n * Z.to_nat n)%nat.
Proof.
  assert (Hrows : ∀ l : list Z,
            length (r ← l; (λ c, (r, c)) <$> seqZ 0 n) = (length l * Z.to_nat n)%nat).
  { induction l as [|r l IH]; csimpl; [done|].
    rewrite length_app, length_fmap, IH, length_seqZ. lia. }
  unfold cellsOf. by rewrite Hrows, length_seqZ.
Qed.

Lemma registry_occupied w : WorldInv w → position w <$> allOrgs w ≡ₚ occupiedCells w.
Proof.
  intros Hinv. apply NoDup_Permutation.
  - apply NoDup_fmap_2_strong; [|apply Hinv].
    intros p q [o Ho]%(inv_registry _ Hinv) [o' Ho']%(inv_registry _ Hinv).
    unfold position. rewrite Ho, Ho'. simpl. intros [= Hx Hy].
    pose proof (inv_position _ Hinv _ _ Ho) as H1.
    pose proof (inv_position _ Hinv _ _ Ho') as H2.
    rewrite Hx, Hy in H1. congruence.
  - apply NoDup_filter, NoDup_cellsOf.
  - intros [x y]. unfold occupiedCells. rewrite list_elem_of_filter, list_elem_of_fmap.
    split.
    + intros (p & Hc & [o Ho]%(inv_registry _ Hinv)).
      unfold position in Hc. rewrite Ho in Hc. simpl in Hc. injection Hc as -> ->.
      pose proof (inv_position _ Hinv _ _ Ho) as Hcell. simpl. split; [by rewrite Hcell|].
      apply elem_of_cellsOf_inBounds. by eapply getCell_Some_inBounds.
    + simpl. intros [[p Hp] _]. destruct (inv_occupant _ Hinv _ _ _ Hp) as (o & Ho & <- & <-).
      exists p. split; [unfold position; by rewrite Ho|].
      apply (inv_registry _ Hinv). by exists o.
Qed.

Lemma population_count w :
  WorldInv w → length (allOrgs w) = length (occupiedCells w).
Proof. intros Hinv. by rewrite <- (registry_occupied w Hinv), length_fmap. Qed.

Lemma population_bound w :
  WorldInv w → (length (allOrgs w) ≤ Z.to_nat (size w) * Z.to_nat (size w))%nat.
Proof.
  intros Hinv. rewrite population_count by done. unfold occupiedCells.
  rewrite <- length_cellsOf. apply length_filter.
Qed.

Lemma empty_cell_exists w :
  WorldInv w → (length (allOrgs w) < Z.to_nat (size w) * Z.to_nat (size w))%nat →
  ∃ x y, inBounds w x y = true ∧ getCell w x y = None.
Proof.
  intros Hinv Hlt. rewrite population_count, <- length_cellsOf in Hlt by done.
  destruct (decide (Exists (λ c, getCell w c.1 c.2 = None) (cellsOf (size w))))
    as [Hex|Hall].
  - apply Exists_exists in Hex as ([x y] & Hc & Hnone). exists x, y.
    split; [by apply (elem_of_cellsOf_inBounds w (x, y))|done].
  - apply not_Exists_Forall in Hall; [|intros c; apply _].
    assert (Hfull : occupiedCells w = cellsOf (size w)).
    { unfold occupiedCells. revert Hall. generalize (cellsOf (size w)).
      induction 1 as [|c l Hc _ IH]; [done|].
      rewrite filter_cons_True; [by rewrite IH|].
      simpl in Hc. by apply not_eq_None_Some. }
    rewrite Hfull in Hlt. lia.
Qed.

(** X6. In every reachable world the registry has exactly as many
    entries as the grid has occupied cells, so the population never
    exceeds the number of cells, [size * size]. *)
Theorem population_fits_the_grid w :
  reachable w →
  length (allOrgs w) = length (occupiedCells w) ∧
  (length (allOrgs w) ≤ Z.to_nat (size w) * Z.to_nat (size w))%nat.
Proof.
  intros [Hinv _]%reachable_Invariant.
  split; [by apply population_count|by apply population_bound].
Qed.

(** ** [initialize] *)

Lemma seedLoop_eq k limit rands placed w :
  seedLoop k limit rands placed w =
    if limit <=? placed then Returns w rands
    else if size w =? 0 then Undefined
    else match rands with
         | rx :: ry :: rest =>
             match getCell w (Z.rem rx (size w)) (Z.rem ry (size w)) with
             | None => seedLoop k limit rest (placed + 1)
                         (place k (Z.rem rx (size w)) (Z.rem ry (size w)) w)
             | Some _ => seedLoop k limit rest placed w
             end
         | _ => Spins
         end.
Proof. by destruct rands. Qed.

Lemma reachable_place k x y w :
  fresh_kind k → reachable w → inBounds w x y = true → getCell w x y = None →
  reachable (place k x y w).
Proof.
  intros [->| ->] Hr Hb Hempty.
  - replace (place Ant x y w) with (createAnt x y w)
      by (by rewrite createAnt_eq, Hempty).
    by apply reach_ant.
  - replace (place (Doodlebug 0) x y w) with (createDoodlebug x y w)
      by (by rewrite createDoodlebug_eq, Hempty).
    by apply reach_doodlebug.
Qed.

Lemma size_place k x y w : size (place k x y w) = size w.
Proof. by rewrite place_eq. Qed.

Lemma age_place k x y w : age (place k x y w) = age w.
Proof. by rewrite place_eq. Qed.

Lemma allOrgs_place k x y w : allOrgs (place k x y w) = allOrgs w ++ [new_addr w].
Proof. by rewrite place_eq. Qed.

Lemma heap_place k x y w :
  heap (place k x y w) = <[new_addr w := mkOrganism x y 0 k (born w)]> (heap w).
Proof. by rewrite place_eq. Qed.

Lemma heap_place_old k x y w p o :
  heap w !! p = Some o → heap (place k x y w) !! p = Some o.
Proof.
  intros Hp. rewrite heap_place, lookup_insert_ne; [done|].
  intros <-. by rewrite new_addr_fresh in Hp.
Qed.

Lemma rem_inBounds w rx ry :
  0 < size w → 0 ≤ rx → 0 ≤ ry →
  inBounds w (Z.rem rx (size w)) (Z.rem ry (size w)) = true.
Proof.
  intros Hs Hx Hy. unfold inBounds.
  pose proof (Z.rem_bound_pos rx (size w) Hx Hs).
  pose proof (Z.rem_bound_pos ry (size w) Hy Hs).
  rewrite !andb_true_iff, !Z.leb_le, !Z.ltb_lt. lia.
Qed.

Lemma seedLoop_spec k limit rands placed w w' rest :
  fresh_kind k → reachable w → 0 ≤ size w → Forall (λ r, 0 ≤ r) rands →
  placed ≤ limit →
  seedLoop k limit rands placed w = Returns w' rest →
  seeded k (limit - placed) rands rest w w'.
Proof.
  intros Hk. remember (length rands) as n eqn:Hn. revert rands placed w Hn.
  induction n as [n IH] using lt_wf_ind. intros rands placed w -> Hr Hs Hnn Hle.
  rewrite seedLoop_eq. destruct (Z.leb_spec limit placed) as [Hdone|Hmore].
  { intros [= <- <-]. split_and!; try done.
    - exists []. rewrite app_nil_r. split_and!; [done|simpl; lia|].
      intros p Hp. by apply elem_of_nil in Hp.
    - by exists []. }
  destruct (Z.eqb_spec (size w) 0) as [|Hne]; [done|].
  destruct rands as [|rx [|ry rands]]; [done..|].
  apply Forall_cons in Hnn as [Hx [Hy Hrest]%Forall_cons].
  assert (Hb : inBounds w (Z.rem rx (size w)) (Z.rem ry (size w)) = true)
    by (apply rem_inBounds; [lia|done..]).
  destruct (getCell w (Z.rem rx (size w)) (Z.rem ry (size w))) as [occupant|] eqn:Hc.
  - intros Hout.
    destruct (IH (length rands) (ltac:(simpl; lia)) rands placed w eq_refl)
      as (Hr' & Hs' & Ha' & Hnews & Hheap & used & Hused); [done..|].
    split_and!; try done. exists (rx :: ry :: used). by rewrite Hused.
  - intros Hout.
    destruct (IH (length rands) (ltac:(simpl; lia)) rands (placed + 1)
                (place k (Z.rem rx (size w)) (Z.rem ry (size w)) w) eq_refl)
      as (Hr' & Hs' & Ha' & (news & Hall & Hlen & Hkinds) & Hheap & used & Hused);
      [by apply reachable_place|by rewrite size_place|done|lia|done|].
    rewrite size_place in Hs'. rewrite age_place in Ha'.
    rewrite allOrgs_place, <- app_assoc in Hall.
    split_and!; try done.
    + exists ([new_addr w] ++ news). split_and!; [done|simpl; lia|].
      intros p [->%list_elem_of_singleton|Hp]%elem_of_app; [|by apply Hkinds].
      exists (mkOrganism (Z.rem rx (size w)) (Z.rem ry (size w)) 0 k (born w)).
      split; [|done]. apply Hheap. by rewrite heap_place, lookup_insert_eq.
    + intros p o Hp. by apply Hheap, heap_place_old.
    + exists (rx :: ry :: used). by rewrite Hused.
Qed.

Lemma seedLoop_defined k limit rands placed w :
  size w ≠ 0 → seedLoop k limit rands placed w ≠ Undefined.
Proof.
  remember (length rands) as n eqn:Hn. revert rands placed w Hn.
  induction n as [n IH] using lt_wf_ind. intros rands placed w -> Hs.
  rewrite seedLoop_eq. destruct (limit <=? placed); [done|].
  destruct (Z.eqb_spec (size w) 0) as [|_]; [done|].
  destruct rands as [|rx [|ry rands]]; [done..|].
  destruct (getCell _ _ _).
  - by apply (IH (length rands) (ltac:(simpl; lia))).
  - apply (IH (length rands) (ltac:(simpl; lia))); [done|by rewrite size_place].
Qed.

Lemma initialize_spec rands w w' rest :
  reachable w → 0 ≤ size w → Forall (λ r, 0 ≤ r) rands →
  initialize rands w = Returns w' rest →
  ∃ w1 mid, seeded (Doodlebug 0) INIT_DOODLES rands mid w w1 ∧
            seeded Ant INIT_ANTS mid rest w1 w'.
Proof.
  intros Hr Hs Hnn. unfold initialize.
  destruct (seedLoop (Doodlebug 0) INIT_DOODLES rands 0 w) as [w1 mid| |] eqn:H1;
    [|done..].
  intros H2. exists w1, mid.
  pose proof (seedLoop_spec (Doodlebug 0) INIT_DOODLES rands 0 w w1 mid
                (ltac:(by right)) Hr Hs Hnn (ltac:(done)) H1) as Hd.
  rewrite Z.sub_0_r in Hd. split; [done|].
  destruct Hd as (Hr1 & Hs1 & _ & _ & _ & used & ->).
  apply Forall_app in Hnn as [_ Hmid].
  pose proof (seedLoop_spec Ant INIT_ANTS mid 0 w1 w' rest (ltac:(by left)) Hr1
                (ltac:(by rewrite Hs1)) Hmid (ltac:(done)) H2) as Ha.
  by rewrite Z.sub_0_r in Ha.
Qed.

(** X7. When [initialize] returns, it has appended 5 doodlebugs and then
    100 ants to the registry, each with [breedCount] 0, and changed nothing
    else: the organisms that were there are untouched, size and age are
    kept, and the world is one the engine invariant holds for. The draws
    of [rand()] are non-negative and the world has a non-negative size (no
    other world can be constructed). *)
Theorem initialize_populates rands w w' rest :
  reachable w → 0 ≤ size w → Forall (λ r, 0 ≤ r) rands →
  initialize rands w = Returns w' rest →
  reachable w' ∧ size w' = size w ∧ age w' = age w ∧
  (∃ doodles ants,
     allOrgs w' = allOrgs w ++ doodles ++ ants ∧
     Z.of_nat (length doodles) = INIT_DOODLES ∧
     Z.of_nat (length ants) = INIT_ANTS ∧
     (∀ p, p ∈ doodles → ∃ o, heap w' !! p = Some o ∧ kind o = Doodlebug 0 ∧
                              getBreedCount o = 0) ∧
     (∀ p, p ∈ ants → ∃ o, heap w' !! p = Some o ∧ kind o = Ant ∧
                           getBreedCount o = 0)) ∧
  (∀ p o, heap w !! p = Some o → heap w' !! p = Some o) ∧
  (∃ used, rands = used ++ rest).
Proof.
  intros Hr Hs Hnn Hout.
  destruct (initialize_spec _ _ _ _ Hr Hs Hnn Hout) as (w1 & mid & Hd & Ha).
  destruct Hd as (_ & Hs1 & Ha1 & (ds & Hall1 & Hlen1 & Hk1) & Hheap1 & used1 & ->).
  destruct Ha as (Hr' & Hs' & Ha' & (ants & Hall & Hlen & Hk) & Hheap & used & ->).
  split_and!; [done|congruence|congruence| | |].
  - exists ds, ants. rewrite Hall, Hall1, <- app_assoc. split_and!; try done.
    intros p (o & Ho & Hko)%Hk1. exists o. split; [by apply Hheap|done].
  - intros p o Hp. by apply Hheap, Hheap1.
  - exists (used1 ++ used). by rewrite <- app_assoc.
Qed.

(** X8. [initialize] needs room for its 105 organisms: in a world with
    fewer free cells, it never returns, whatever [rand()] draws. With
    [size] 0 its first [rand() % size] is undefined; otherwise the loops
    are still running after any number of draws. *)
Theorem initialize_spins_without_room rands w :
  reachable w → 0 ≤ size w → Forall (λ r, 0 ≤ r) rands →
  size w * size w < Z.of_nat (length (allOrgs w)) + INIT_DOODLES + INIT_ANTS →
  initialize rands w = if decide (size w = 0) then Undefined else Spins.
Proof.
  intros Hr Hs Hnn Hroom.
  rewrite <- (Z2Nat.id (size w)), <- Nat2Z.inj_mul in Hroom by done.
  destruct (initialize rands w) as [w' rest| |] eqn:Hout.
  - exfalso.
    destruct (initialize_spec _ _ _ _ Hr Hs Hnn Hout) as (w1 & mid & Hd & Ha).
    destruct Hd as (_ & Hs1 & _ & (ds & Hall1 & Hlen1 & _) & _).
    destruct Ha as (Hr' & Hs' & _ & (ants & Hall & Hlen & _) & _).
    apply reachable_Invariant in Hr' as [Hinv' _].
    pose proof (population_bound w' Hinv') as Hbound.
    rewrite Hall, Hall1, !length_app, Hs', Hs1 in Hbound. lia.
  - case_decide as Hz; [|done]. exfalso. revert Hout. unfold initialize.
    rewrite seedLoop_eq. by rewrite Hz.
  - case_decide as Hz; [done|]. exfalso. revert Hout. unfold initialize.
    destruct (seedLoop (Doodlebug 0) INIT_DOODLES rands 0 w) as [w1 mid| |] eqn:H1.
    + apply seedLoop_defined.
      pose proof (seedLoop_spec (Doodlebug 0) INIT_DOODLES rands 0 w w1 mid
                    (ltac:(by right)) Hr Hs Hnn (ltac:(done)) H1) as (_ & Hs1 & _).
      by rewrite Hs1.
    + done.
    + by apply seedLoop_defined in H1.
Qed.

Lemma seedLoop_can_return k limit (m : nat) placed w :
  fresh_kind k → reachable w → limit - placed = Z.of_nat m →
  (length (allOrgs w) + m ≤ Z.to_nat (size w) * Z.to_nat (size w))%nat →
  ∃ rands w',
    Forall (λ r, 0 ≤ r < size w) rands ∧
    (∀ more, seedLoop k limit (rands ++ more) placed w = Returns w' more) ∧
    reachable w' ∧ size w' = size w ∧
    length (allOrgs w') = (length (allOrgs w) + m)%nat.
Proof.
  intros Hk. revert placed w. induction m as [|m IH]; intros placed w Hr Hleft Hroom.
  - exists [], w. split_and!; [done| |done|done|lia].
    intros more. rewrite seedLoop_eq. by rewrite (proj2 (Z.leb_le _ _)) by lia.
  - pose proof (reachable_Invariant _ Hr) as [Hinv _].
    destruct (empty_cell_exists w Hinv) as (x & y & Hb & Hempty); [lia|].
    assert (Hxy : 0 ≤ x < size w ∧ 0 ≤ y < size w).
    { unfold inBounds in Hb. rewrite !andb_true_iff, !Z.leb_le, !Z.ltb_lt in Hb. lia. }
    destruct (IH (placed + 1) (place k x y w)) as (rands & w' & Hin & Hrun & Hr' & Hs' & Hlen).
    { by apply reachable_place. }
    { lia. }
    { rewrite allOrgs_place, length_app, size_place. simpl. lia. }
    rewrite size_place in Hs', Hin. rewrite allOrgs_place, length_app in Hlen.
    exists (x :: y :: rands), w'. split_and!; [|
      |done|done|simpl in Hlen; lia].
    + repeat (constructor; [lia|]). done.
    + intros more. cbn [app]. rewrite seedLoop_eq.
      rewrite (proj2 (Z.leb_gt _ _)) by lia.
      rewrite (proj2 (Z.eqb_neq _ _)) by lia.
      rewrite !Z.rem_small by lia. rewrite Hempty. apply Hrun.
Qed.

(** X9. With room for 105 more organisms, [initialize] can return: there
    are draws, all within [0, size), after which both loops have ended. *)
Theorem initialize_returns_with_room w :
  reachable w → 0 ≤ size w →
  Z.of_nat (length (allOrgs w)) + INIT_DOODLES + INIT_ANTS ≤ size w * size w →
  ∃ rands w', Forall (λ r, 0 ≤ r < size w) rands ∧
              initialize rands w = Returns w' [].
Proof.
  intros Hr Hs Hroom.
  rewrite <- (Z2Nat.id (size w)), <- Nat2Z.inj_mul in Hroom by done.
  destruct (seedLoop_can_return (Doodlebug 0) INIT_DOODLES 5 0 w)
    as (r1 & w1 & Hin1 & Hrun1 & Hr1 & Hs1 & Hlen1); [by right|done|done| |].
  { unfold INIT_DOODLES, INIT_ANTS in Hroom. lia. }
  destruct (seedLoop_can_return Ant INIT_ANTS 100 0 w1)
    as (r2 & w2 & Hin2 & Hrun2 & Hr2 & Hs2 & Hlen2); [by left|done|done| |].
  { rewrite Hlen1, Hs1. unfold INIT_DOODLES, INIT_ANTS in Hroom. lia. }
  exists (r1 ++ r2), w2. split.
  - apply Forall_app. split; [done|]. by rewrite <- Hs1.
  - unfold initialize. rewrite Hrun1.
    specialize (Hrun2 []). by rewrite app_nil_r in Hrun2.
Qed.

(** ** The destructor *)

Lemma deleteAll_spec cells (g : list (list (option positive)))
    (h : gmap positive Organism) :
  NoDup cells →
  (∀ c a, c ∈ cells → cell g c.1 c.2 = Some a → is_Some (h !! a)) →
  (∀ c c' a, c ∈ cells → c' ∈ cells →
     cell g c.1 c.2 = Some a → cell g c'.1 c'.2 = Some a → c = c') →
  ∃ h', deleteAll cells g h = Some h' ∧
        ∀ a, h' !! a = if decide (Exists (λ c, cell g c.1 c.2 = Some a) cells)
                       then None else h !! a.
Proof.
  revert h. induction cells as [|c cells IH]; intros h Hnd Hlive Hinj.
  { exists h. split; [done|]. intros a. rewrite decide_False; [done|].
    by intros ?%Exists_nil. }
  apply NoDup_cons in Hnd as [Hc Hnd]. cbn [deleteAll].
  destruct (cell g c.1 c.2) as [a|] eqn:Ha.
  - rewrite decide_True by (eapply Hlive; [left|done]).
    destruct (IH (delete a h)) as (h' & Hrun & Hh'); [done| | |].
    + intros c' b Hc' Hb. rewrite lookup_delete_ne; [eapply Hlive; [by right|done]|].
      intros <-. destruct Hc. by rewrite (Hinj c c' a) by (done || by left || by right).
    + intros c1 c2 b H1 H2. apply Hinj; by right.
    + exists h'. split; [done|]. intros b. rewrite Hh'.
      destruct (decide (b = a)) as [->|Hne].
      * rewrite lookup_delete_eq. rewrite (decide_True (P := Exists _ (c :: cells)))
          by (by left). by destruct (decide _).
      * rewrite lookup_delete_ne by done.
        destruct (decide (Exists _ cells)) as [Hex|Hno].
        -- rewrite decide_True; [done|by right].
        -- rewrite decide_False; [done|].
           intros [Hb|Hex]%Exists_cons; [congruence|done].
  - destruct (IH h) as (h' & Hrun & Hh'); [done| | |].
    + intros c' b Hc'. apply Hlive. by right.
    + intros c1 c2 b H1 H2. apply Hinj; by right.
    + exists h'. split; [done|]. intros b. rewrite Hh'.
      destruct (decide (Exists _ cells)) as [Hex|Hno].
      * rewrite decide_True; [done|by right].
      * rewrite decide_False; [done|].
        intros [Hb|Hex]%Exists_cons; [congruence|done].
Qed.

Lemma getCell_cellsOf w c :
  c ∈ cellsOf (size w) → cell (grid w) c.1 c.2 = getCell w c.1 c.2.
Proof.
  intros Hb%elem_of_cellsOf_inBounds. unfold getCell. by rewrite Hb.
Qed.

(** The destructor run on the grid of [w] with the heap [h], which holds at
    least the objects of [w]: the objects of [w] are deleted, once each. *)
Lemma deleteAll_grid w (h : gmap positive Organism) :
  WorldInv w → (∀ p o, heap w !! p = Some o → h !! p = Some o) →
  ∃ h', deleteAll (cellsOf (size w)) (grid w) h = Some h' ∧
        ∀ a, h' !! a = if decide (is_Some (heap w !! a)) then None else h !! a.
Proof.
  intros Hinv Hsub.
  destruct (deleteAll_spec (cellsOf (size w)) (grid w) h) as (h' & Hrun & Hh').
  - apply NoDup_cellsOf.
  - intros c a Hc Ha. rewrite getCell_cellsOf in Ha by done.
    destruct (inv_occupant _ Hinv _ _ _ Ha) as (o & Ho & _). exists o. by apply Hsub.
  - intros [x1 y1] [x2 y2] a H1 H2 Ha1 Ha2.
    rewrite getCell_cellsOf in Ha1, Ha2 by done. simpl in *.
    destruct (inv_occupant _ Hinv _ _ _ Ha1) as (o & Ho & <- & <-).
    destruct (inv_occupant _ Hinv _ _ _ Ha2) as (o' & Ho' & <- & <-).
    congruence.
  - exists h'. split; [done|]. intros a. rewrite Hh'.
    destruct (decide (is_Some (heap w !! a))) as [[o Ho]|Hno].
    + rewrite decide_True; [done|]. apply Exists_exists.
      pose proof (inv_position _ Hinv _ _ Ho) as Hcell.
      exists (getX o, getY o).
      assert (Hc : (getX o, getY o) ∈ cellsOf (size w)).
      { apply elem_of_cellsOf_inBounds. by eapply getCell_Some_inBounds. }
      split; [done|]. by rewrite getCell_cellsOf.
    + rewrite decide_False; [done|]. intros ([x y] & Hc & Ha)%Exists_exists.
      rewrite getCell_cellsOf in Ha by done.
      destruct (inv_occupant _ Hinv _ _ _ Ha) as (o & Ho & _). destruct Hno. by exists o.
Qed.

(** X10. The destructor of a world that satisfies the engine invariant
    deletes every organism exactly once: no pointer is deleted twice (the
    run is defined) and nothing is left on the heap. *)
Theorem destructor_frees_every_organism w :
  WorldInv w → World_delete w = Some ∅.
Proof.
  intros Hinv. unfold World_delete.
  destruct (deleteAll_grid w (heap w) Hinv) as (h' & -> & Hh'); [done|].
  f_equal. apply map_empty. intros a. rewrite Hh'. case_decide as Hlive; [done|].
  by apply eq_None_not_Some.
Qed.

(** X11. [createAnt] and [createDoodlebug] called with coordinates outside
    the grid do not return early: [getCell] answers the null pointer there,
    as for an empty cell, so an organism is constructed and registered in
    [allOrgs], while [setCell] stores it nowhere. The world is then no
    longer consistent (a registered organism stands in no cell), and the
    destructor, which deletes the occupants of the grid, leaves exactly
    this organism on the heap. *)
Theorem create_outside_the_grid_leaves_an_orphan create k x y w :
  creates create k → WorldInv w → inBounds w x y = false →
  ∃ a, heap w !! a = None ∧
       allOrgs (create x y w) = allOrgs w ++ [a] ∧
       heap (create x y w) = <[a := mkOrganism x y 0 k (born w)]> (heap w) ∧
       grid (create x y w) = grid w ∧
       ¬ Consistent (create x y w) ∧
       World_delete (create x y w) = Some {[a := mkOrganism x y 0 k (born w)]}.
Proof.
  intros Hcr Hinv Hout. rewrite Hcr, (getCell_outside _ _ _ Hout), place_eq.
  pose proof (new_addr_fresh w) as Hfresh. exists (new_addr w).
  assert (Hgrid : grid (setCell x y (Some (new_addr w)) w) = grid w).
  { unfold setCell. by rewrite Hout. }
  rewrite Hgrid. split_and!; try done.
  - intros (_ & Hreg & _).
    destruct (Hreg (new_addr w)) as (o & Ho & Hcell).
    { cbn [allOrgs]. apply elem_of_app. right. left. }
    cbn [heap] in Ho. rewrite lookup_insert_eq in Ho. injection Ho as <-.
    cbn [getX getY] in Hcell. by rewrite getCell_outside in Hcell.
  - unfold World_delete. cbn [size grid heap].
    destruct (deleteAll_grid w (<[new_addr w := mkOrganism x y 0 k (born w)]> (heap w))
                Hinv) as (h' & -> & Hh').
    { intros p o Hp. rewrite lookup_insert_ne; [done|]. intros <-. congruence. }
    f_equal. apply map_eq. intros a. rewrite Hh'.
    destruct (decide (a = new_addr w)) as [->|Hne].
    + rewrite lookup_singleton_eq, lookup_insert_eq.
      rewrite decide_False; [done|]. rewrite Hfresh. by intros [? ?].
    + rewrite lookup_singleton_ne, lookup_insert_ne by done.
      case_decide as Hlive; [done|]. by apply eq_None_not_Some.
Qed.

(** ** Species *)

Lemma descends_refl b w : descends b w w.
Proof. split; [done|]. intros q o' Hq. right. by exists o'. Qed.

Lemma descends_trans b w1 w2 w3 : descends b w1 w2 → descends b w2 w3 → descends b w1 w3.
Proof.
  intros [Hb1 H1] [Hb2 H2]. split; [lia|]. intros q o3 Hq.
  destruct (H2 q o3 Hq) as [[Hs Hn]|(o2 & Ho2 & Hs2 & Hn2)]; [left; split; [done|lia]|].
  destruct (H1 q o2 Ho2) as [[Hs Hn]|(o1 & Ho1 & Hs1 & Hn1)].
  - left. split; [congruence|lia].
  - right. exists o1. split_and!; [done|congruence..].
Qed.

Lemma descends_with_env b e w : descends b w (with_env e w).
Proof. split; [done|]. intros q o' Hq. right. by exists o'. Qed.

Lemma descends_alter b f this w w' :
  (∀ o, isAnt (f o) = isAnt o ∧ serial (f o) = serial o) →
  born w' = born w → heap w' = alter f this (heap w) → descends b w w'.
Proof.
  intros Hf Hborn Hheap. split; [lia|]. intros q o'. rewrite Hheap. intros Hq. right.
  destruct (decide (q = this)) as [->|Hne].
  - rewrite lookup_alter_eq in Hq. destruct (heap w !! this) as [o|] eqn:Ho; [|done].
    injection Hq as <-. exists o. by destruct (Hf o).
  - rewrite lookup_alter_ne in Hq by done. by exists o'.
Qed.

Lemma descends_incBreed b this w : descends b w (incBreed this w).
Proof. by apply (descends_alter b org_incBreed this); [intros []|..]. Qed.

Lemma descends_resetBreed b this w : descends b w (resetBreed this w).
Proof. by apply (descends_alter b org_resetBreed this); [intros []|..]. Qed.

Lemma descends_setStarve b this s w : descends b w (setStarve this s w).
Proof. by apply (descends_alter b (org_setStarve s) this); [intros [? ? ? [] ?]|..]. Qed.

Lemma descends_moveTo b this nx ny w : descends b w (moveTo this nx ny w).
Proof.
  apply (descends_alter b (org_setPos nx ny) this);
    [by intros []|apply born_moveTo|apply heap_moveTo].
Qed.

Lemma born_deleteCell x y w : born (deleteCell x y w) = born w.
Proof.
  destruct (getCell w x y) as [p|] eqn:Hc.
  - by rewrite (deleteCell_occupied _ _ _ _ Hc).
  - by rewrite deleteCell_empty.
Qed.

Lemma descends_deleteCell b x y w : descends b w (deleteCell x y w).
Proof.
  destruct (getCell w x y) as [p|] eqn:Hc; [|rewrite deleteCell_empty by done;
                                             apply descends_refl].
  rewrite (deleteCell_occupied _ _ _ _ Hc). split; [done|]. cbn [heap].
  intros q o' [_ Hq]%lookup_delete_Some. right. by exists o'.
Qed.

Lemma descends_place k x y w : descends (isAnt (mkOrganism 0 0 0 k 0)) w (place k x y w).
Proof.
  rewrite place_eq. split; [cbn [born]; lia|]. cbn [heap born].
  intros q o' [[_ <-]|[_ Hq]]%lookup_insert_Some; [by left|right; by exists o'].
Qed.

Lemma descends_moveScan b this ns w : descends b w (moveScan this ns w).1.
Proof.
  destruct (moveScan_cases this ns w) as [[_ ->]|(nx & ny & _ & _ & ->)];
    [apply descends_refl|apply descends_moveTo].
Qed.

Lemma descends_eatScan b this ns w : descends b w (eatScan this ns w).1.
Proof.
  destruct (antAmong w ns) eqn:Hnear.
  - destruct (antAmong_split w ns Hnear) as (pre & nx & ny & post & -> & Hpre & Hh).
    rewrite (eatScan_first this pre nx ny post w) by done. cbn [fst].
    eapply descends_trans; [apply descends_deleteCell|].
    eapply descends_trans; [apply descends_moveTo|apply descends_setStarve].
  - rewrite eatScan_none by done. apply descends_refl.
Qed.

Lemma descends_breedPhase create k threshold g this ns w :
  creates create k →
  descends (isAnt (mkOrganism 0 0 0 k 0)) w (breedPhase create threshold g this ns w).
Proof.
  intros Hcr. unfold breedPhase. lazy zeta.
  destruct (threshold <=? _); [|apply descends_incBreed].
  rewrite run_shuffle_eq. lazy beta iota zeta.
  eapply descends_trans; [apply descends_incBreed|].
  eapply descends_trans; [|apply descends_resetBreed].
  eapply descends_trans; [apply descends_with_env|].
  destruct (breedScan_cases create k (shuffle g ns (env (incBreed this w))).1
              (with_env (shuffle g ns (env (incBreed this w))).2 (incBreed this w)) Hcr)
    as [[_ ->]|(nx & ny & _ & _ & ->)]; [apply descends_refl|apply descends_place].
Qed.

Lemma descends_update this w o :
  heap w !! this = Some o → descends (isAnt o) w (Organism_update this w).
Proof.
  intros Ho. unfold Organism_update, isAnt. rewrite Ho. destruct (kind o) as [|s].
  - rewrite Ant_update_eq. lazy zeta. rewrite run_shuffle_eq. lazy beta iota zeta.
    eapply descends_trans; [apply descends_with_env|].
    eapply descends_trans; [apply descends_moveScan|].
    by apply (descends_breedPhase createAnt Ant).
  - rewrite Doodlebug_update_eq. destruct (this_starve w this); [apply descends_deleteCell|].
    lazy zeta. rewrite run_shuffle_eq. lazy beta iota zeta.
    set (ns1 := (shuffle GenDoodlebug _ (env w)).1).
    set (w1 := with_env _ w).
    pose proof (descends_eatScan false this ns1 w1) as Heat.
    destruct (eatScan this ns1 w1) as [w2 ate]. cbn [fst] in Heat.
    eapply descends_trans; [apply (descends_with_env _ (env w1))|].
    eapply descends_trans; [exact Heat|].
    destruct ate; cbn [negb].
    + by apply (descends_breedPhase createDoodlebug (Doodlebug 0)).
    + rewrite run_shuffle_eq. lazy beta iota zeta.
      eapply descends_trans; [apply descends_with_env|].
      eapply descends_trans; [apply (descends_moveScan _ this)|].
      eapply descends_trans; [apply descends_setStarve|].
      by apply (descends_breedPhase createDoodlebug (Doodlebug 0)).
Qed.

(** An update constructs at most one organism. *)
Lemma born_moveScan this ns w : born (moveScan this ns w).1 = born w.
Proof.
  destruct (moveScan_cases this ns w) as [[_ ->]|(nx & ny & _ & _ & ->)];
    [done|apply born_moveTo].
Qed.

Lemma born_eatScan this ns w : born (eatScan this ns w).1 = born w.
Proof.
  destruct (antAmong w ns) eqn:Hnear.
  - destruct (antAmong_split w ns Hnear) as (pre & nx & ny & post & -> & Hpre & Hh).
    rewrite (eatScan_first this pre nx ny post w) by done. cbn [fst].
    cbn [setStarve modify born with_heap]. by rewrite born_moveTo, born_deleteCell.
  - by rewrite eatScan_none.
Qed.

Lemma born_breedPhase create k threshold g this ns w :
  creates create k →
  (born (breedPhase create threshold g this ns w) ≤ S (born w))%nat.
Proof.
  intros Hcr. unfold breedPhase. lazy zeta.
  destruct (threshold <=? _); [|cbn; lia].
  rewrite run_shuffle_eq. lazy beta iota zeta.
  cbn [resetBreed modify born with_heap].
  destruct (breedScan_cases create k (shuffle g ns (env (incBreed this w))).1
              (with_env (shuffle g ns (env (incBreed this w))).2 (incBreed this w)) Hcr)
    as [[_ ->]|(nx & ny & _ & _ & ->)]; [cbn; lia|by rewrite place_eq].
Qed.

Lemma born_update_le this w : (born (Organism_update this w) ≤ S (born w))%nat.
Proof.
  unfold Organism_update. destruct (heap w !! this) as [o|]; [|lia].
  destruct (kind o) as [|s].
  - rewrite Ant_update_eq. lazy zeta. rewrite run_shuffle_eq. lazy beta iota zeta.
    etrans; [by apply (born_breedPhase createAnt Ant)|].
    by rewrite born_moveScan.
  - rewrite Doodlebug_update_eq. destruct (this_starve w this).
    { rewrite born_deleteCell. lia. }
    lazy zeta. rewrite run_shuffle_eq. lazy beta iota zeta.
    set (ns1 := (shuffle GenDoodlebug _ (env w)).1).
    set (w1 := with_env _ w).
    pose proof (born_eatScan this ns1 w1) as Heat.
    destruct (eatScan this ns1 w1) as [w2 ate]. cbn [fst] in Heat.
    change (born w1) with (born w) in Heat. destruct ate; cbn [negb].
    + etrans; [by apply (born_breedPhase createDoodlebug (Doodlebug 0))|].
      rewrite Heat. done.
    + rewrite run_shuffle_eq. lazy beta iota zeta.
      etrans; [by apply (born_breedPhase createDoodlebug (Doodlebug 0))|].
      cbn [setStarve modify born with_heap]. rewrite born_moveScan.
      cbn [born with_env]. rewrite Heat. done.
Qed.

(** X12. The organisms an update constructs. An object of the world after
    [update] whose serial number was not yet given out before is the one
    offspring of this update (an update constructs at most one organism):
    it is of the species of the updated organism, it is not that organism,
    both its counters are 0, and it stands in a cell next to the position
    the updated organism had at the start. *)
Theorem offspring_of_an_update this w o q o' :
  WorldInv w → heap w !! this = Some o →
  heap (Organism_update this w) !! q = Some o' → (born w ≤ serial o')%nat →
  isAnt o' = isAnt o ∧ q ≠ this ∧
  getBreedCount o' = 0 ∧ getStarveCount o' = 0 ∧
  (getX o', getY o') ∈ getNeighbors w (getX o) (getY o) ∧
  serial o' = born w ∧ born (Organism_update this w) = S (born w) ∧
  getCell (Organism_update this w) (getX o') (getY o') = Some q.
Proof.
  intros Hinv Ho Hq Hnew.
  destruct (Organism_update_spec this w o Ho) as [(_ & _ & Hev) Hinv'].
  specialize (Hinv' Hinv).
  destruct (descends_update this w o Ho) as [_ Hd].
  pose proof (born_update_le this w) as Hle.
  pose proof (inv_serial _ Hinv' _ _ Hq) as Hlt.
  assert (Hspecies : isAnt o' = isAnt o).
  { destruct (Hd q o' Hq) as [[? _]|(o0 & Ho0 & _ & Hs)]; [done|].
    pose proof (inv_serial _ Hinv _ _ Ho0). lia. }
  destruct (Hev q o' Hq) as [(o0 & Ho0 & Hs & _)|(Hne & _ & _ & Hpos & Hbc & Hsc & _)].
  { pose proof (inv_serial _ Hinv _ _ Ho0). lia. }
  split_and!; try done; try lia.
  by apply (inv_position _ Hinv').
Qed.

Lemma species_runSnapshot (ant : bool) snapshot : ∀ w,
  (∀ q oq, heap w !! q = Some oq → isAnt oq = ant) →
  ∀ q oq, heap (runSnapshot snapshot w) !! q = Some oq → isAnt oq = ant.
Proof.
  induction snapshot as [|this rest IHs]; intros w1 H1; cbn [runSnapshot]; [done|].
  case_decide; [|by apply IHs]. apply IHs. intros q oq Hq.
  unfold Organism_update in Hq. destruct (heap w1 !! this) as [ot|] eqn:Hot;
    [|by eapply H1].
  destruct (descends_update this w1 ot Hot) as [_ Hd].
  unfold Organism_update in Hd. rewrite Hot in Hd.
  destruct (Hd q oq Hq) as [[-> _]|(o0 & Ho0 & -> & _)]; [by eapply H1|by eapply H1].
Qed.

Lemma species_closed_tick (ant : bool) w p o :
  (∀ q oq, heap w !! q = Some oq → isAnt oq = ant) →
  heap (World_update w) !! p = Some o → isAnt o = ant.
Proof.
  intros Hall. rewrite World_update_eq. apply species_runSnapshot.
  intros q oq. unfold tickStart. rewrite run_shuffle_eq. apply Hall.
Qed.

Lemma species_all_ants w p o :
  (∀ q oq, heap w !! q = Some oq → isAnt oq = true) →
  heap (World_update w) !! p = Some o → isAnt o = true.
Proof.
  intros Hall. rewrite World_update_eq. apply species_runSnapshot.
  intros q oq. unfold tickStart. rewrite run_shuffle_eq. apply Hall.
Qed.

(** X13. Species are closed under ticks: a world in which every organism
    is an ant holds only ants after any number of ticks, and a world in
    which every organism is a doodlebug holds only doodlebugs. *)
Theorem species_closed_under_ticks (ant : bool) n w p o :
  (∀ q oq, heap w !! q = Some oq → isAnt oq = ant) →
  heap (Nat.iter n World_update w) !! p = Some o → isAnt o = ant.
Proof.
  intros Hall. revert p o. induction n as [|n IH]; intros p o; [apply Hall|].
  change (Nat.iter (S n) World_update w)
    with (World_update (Nat.iter n World_update w)).
  rewrite World_update_eq.
  apply species_runSnapshot. intros q oq. unfold tickStart. rewrite run_shuffle_eq. cbn [snd heap with_env].
  apply IH.
Qed.

(** ** A tick without predators *)

Lemma allOrgs_moveScan this ns w : allOrgs (moveScan this ns w).1 = allOrgs w.
Proof.
  destruct (moveScan_cases this ns w) as [[_ ->]|(nx & ny & _ & _ & ->)];
    [done|apply allOrgs_moveTo].
Qed.

Lemma allOrgs_breedPhase create k threshold g this ns w :
  creates create k →
  ∃ news, allOrgs (breedPhase create threshold g this ns w) = allOrgs w ++ news.
Proof.
  intros Hcr. unfold breedPhase. lazy zeta.
  destruct (threshold <=? _); [|exists []; by rewrite app_nil_r].
  rewrite run_shuffle_eq. lazy beta iota zeta.
  cbn [resetBreed modify allOrgs with_heap].
  destruct (breedScan_cases create k (shuffle g ns (env (incBreed this w))).1
              (with_env (shuffle g ns (env (incBreed this w))).2 (incBreed this w)) Hcr)
    as [[_ ->]|(nx & ny & _ & _ & ->)].
  - exists []. by rewrite app_nil_r.
  - rewrite allOrgs_place. by eexists.
Qed.

Lemma allOrgs_Ant_update this w :
  ∃ news, allOrgs (Ant_update this w) = allOrgs w ++ news.
Proof.
  rewrite Ant_update_eq. lazy zeta. rewrite run_shuffle_eq. lazy beta iota zeta.
  destruct (allOrgs_breedPhase createAnt Ant ANT_BREED GenAnt this
              (shuffle GenAnt (getNeighbors w (this_X w this) (this_Y w this)) (env w)).1
              (moveScan this
                 (shuffle GenAnt (getNeighbors w (this_X w this) (this_Y w this)) (env w)).1
                 (with_env (shuffle GenAnt
                    (getNeighbors w (this_X w this) (this_Y w this)) (env w)).2 w)).1)
    as [news Hnews]; [done|].
  exists news. by rewrite Hnews, allOrgs_moveScan.
Qed.

Lemma untouched_Ant_update this w : untouched this w (Ant_update this w).
Proof.
  rewrite Ant_update_eq. lazy zeta. rewrite run_shuffle_eq. lazy beta iota zeta.
  eapply untouched_trans; [apply untouched_with_env|].
  eapply untouched_trans; [apply untouched_moveScan|].
  by eapply (untouched_breedPhase createAnt Ant).
Qed.

Lemma antsOnly_runSnapshot snapshot : ∀ w,
  WorldInv w → (∀ p o, heap w !! p = Some o → isAnt o = true) →
  NoDup snapshot → (∀ p, p ∈ snapshot → p ∈ allOrgs w) →
  (∃ news, allOrgs (runSnapshot snapshot w) = allOrgs w ++ news) ∧
  (∀ p o, heap w !! p = Some o →
     ∃ o', heap (runSnapshot snapshot w) !! p = Some o' ∧ serial o' = serial o ∧
           getBreedCount o' =
             if decide (p ∈ snapshot) then bumped ANT_BREED (getBreedCount o)
             else getBreedCount o) ∧
  (∀ p o', heap (runSnapshot snapshot w) !! p = Some o' → heap w !! p = None →
     getBreedCount o' = 0 ∧ (born w ≤ serial o')%nat).
Proof.
  induction snapshot as [|q rest IH]; intros w Hinv Hants Hnd Hsub; cbn [runSnapshot].
  { split_and!.
    - exists []. by rewrite app_nil_r.
    - intros p o Hp. exists o. rewrite decide_False by apply not_elem_of_nil. done.
    - intros p o' Hp Hnone. congruence. }
  apply NoDup_cons in Hnd as [Hq Hnd].
  rewrite decide_True by (apply Hsub; left).
  destruct (proj1 (inv_registry _ Hinv q) (Hsub q (ltac:(left)))) as [oq Hoq].
  assert (Hkq : kind oq = Ant).
  { specialize (Hants q oq Hoq). unfold isAnt in Hants. by destruct (kind oq). }
  destruct (Organism_update_spec q w oq Hoq) as [(_ & Hborn & Hev) Hinv1].
  specialize (Hinv1 Hinv).
  assert (Hup : Organism_update q w = Ant_update q w).
  { unfold Organism_update. by rewrite Hoq, Hkq. }
  destruct (Ant_update_spec q w oq Hoq) as (_ & _ & o1 & Hq1 & _ & Hbc1).
  destruct (allOrgs_Ant_update q w) as [news1 Hall1].
  pose proof (untouched_Ant_update q w) as Hunt.
  rewrite <- Hup in Hq1, Hall1, Hunt.
  assert (Hs1 : serial o1 = serial oq).
  { destruct (Hev q o1 Hq1) as [(o0 & Ho0 & Hs & _)|[Hne _]]; [congruence|done]. }
  assert (Hants1 : ∀ p o, heap (Organism_update q w) !! p = Some o → isAnt o = true).
  { intros p o Hp. destruct (descends_update q w oq Hoq) as [_ Hd].
    rewrite (Hants q oq Hoq) in Hd.
    destruct (Hd p o Hp) as [[? _]|(o0 & Ho0 & -> & _)]; [done|by eapply Hants]. }
  destruct (IH (Organism_update q w) Hinv1 Hants1 Hnd)
    as ((news2 & Hall2) & Hold2 & Hnew2).
  { intros p Hp. rewrite Hall1. apply elem_of_app. left. apply Hsub. by right. }
  split_and!.
  - exists (news1 ++ news2). by rewrite Hall2, Hall1, app_assoc.
  - intros p o Hp. destruct (decide (p = q)) as [->|Hne].
    + assert (o = oq) as -> by congruence.
      destruct (Hold2 q o1 Hq1) as (o' & Ho' & Hs' & Hbc').
      rewrite decide_False in Hbc' by done.
      exists o'. rewrite decide_True by left. split_and!; congruence.
    + destruct (Hold2 p o (Hunt p o Hne Hp)) as (o' & Ho' & Hs' & Hbc').
      exists o'. split_and!; [done..|]. rewrite Hbc'.
      destruct (decide (p ∈ rest)) as [Hin|Hout].
      * rewrite decide_True; [done|by right].
      * rewrite decide_False; [done|]. by intros [?|?]%elem_of_cons.
  - intros p o' Hp' Hnone.
    destruct (heap (Organism_update q w) !! p) as [o1'|] eqn:Hp1.
    + destruct (Hev p o1' Hp1) as [(o0 & Ho0 & _)|(_ & Hser & _ & _ & Hbc & _)];
        [congruence|].
      destruct (Hold2 p o1' Hp1) as (o'' & Ho'' & Hs'' & Hbc'').
      assert (o'' = o') as -> by congruence.
      rewrite decide_False in Hbc''.
      2:{ intros Hin. assert (Hp : p ∈ allOrgs w) by (apply Hsub; by right).
          apply (inv_registry _ Hinv) in Hp as [? ?]. congruence. }
      split; [congruence|lia].
    + destruct (Hnew2 p o' Hp' Hp1) as [? ?]. split; [done|lia].
Qed.

(** X14. A tick in a world without doodlebugs. No organism is removed:
    every ant of the start is still there at the end, at its address, and
    has been updated exactly once (its [breedCount] has gone up by one, or
    back to 0 at the threshold). The registry keeps its entries in their
    order and only grows at the end. Every organism added is an ant that
    was constructed during the tick and was not updated in it (its
    [breedCount] is still 0): without removals no address is recycled. *)
Theorem predator_free_tick w :
  WorldInv w → (∀ p o, heap w !! p = Some o → isAnt o = true) →
  (∃ news, allOrgs (World_update w) = allOrgs w ++ news) ∧
  (∀ p o, heap w !! p = Some o →
     ∃ o', heap (World_update w) !! p = Some o' ∧ serial o' = serial o ∧
           isAnt o' = true ∧
           getBreedCount o' = bumped ANT_BREED (getBreedCount o)) ∧
  (∀ p o', heap (World_update w) !! p = Some o' → heap w !! p = None →
     isAnt o' = true ∧ getBreedCount o' = 0 ∧ (born w ≤ serial o')%nat).
Proof.
  intros Hinv Hants. rewrite World_update_eq.
  assert (Hinv0 : WorldInv (tickStart w)).
  { unfold tickStart. rewrite run_shuffle_eq. destruct Hinv. by split. }
  assert (Hperm : tickSnapshot w ≡ₚ allOrgs w).
  { unfold tickSnapshot. rewrite run_shuffle_eq. cbn [fst]. apply shuffle_perm. }
  assert (Hheap0 : heap (tickStart w) = heap w).
  { unfold tickStart. by rewrite run_shuffle_eq. }
  assert (Hall0 : allOrgs (tickStart w) = allOrgs w).
  { unfold tickStart. by rewrite run_shuffle_eq. }
  assert (Hborn0 : born (tickStart w) = born w).
  { unfold tickStart. by rewrite run_shuffle_eq. }
  destruct (antsOnly_runSnapshot (tickSnapshot w) (tickStart w) Hinv0)
    as (Hnews & Hold & Hnew).
  { by rewrite Hheap0. }
  { rewrite Hperm. apply Hinv. }
  { intros p Hp. by rewrite Hall0, <- Hperm. }
  rewrite Hheap0, Hall0, Hborn0 in *.
  assert (Hants' : ∀ p o, heap (runSnapshot (tickSnapshot w) (tickStart w)) !! p = Some o →
                          isAnt o = true).
  { intros p o Hp. rewrite <- World_update_eq in Hp.
    apply (species_all_ants w p o); done. }
  split_and!; [done| |].
  - intros p o Hp. destruct (Hold p o Hp) as (o' & Ho' & Hs' & Hbc').
    exists o'. split_and!; [done|done|by eapply Hants'|].
    rewrite Hbc', decide_True; [done|]. rewrite Hperm.
    apply (inv_registry _ Hinv). by exists o.
  - intros p o' Hp' Hnone. destruct (Hnew p o' Hp' Hnone) as [? ?].
    split_and!; [by eapply Hants'|done..].
Qed.

(** ** A world without ants *)

Lemma species_update (ant : bool) this w :
  (∀ q oq, heap w !! q = Some oq → isAnt oq = ant) →
  ∀ q oq, heap (Organism_update this w) !! q = Some oq → isAnt oq = ant.
Proof.
  intros Hall q oq Hq.
  unfold Organism_update in Hq. destruct (heap w !! this) as [ot|] eqn:Hot;
    [|by eapply Hall].
  destruct (descends_update this w ot Hot) as [_ Hd].
  unfold Organism_update in Hd. rewrite Hot in Hd.
  destruct (Hd q oq Hq) as [[-> _]|(o0 & Ho0 & -> & _)]; by eapply Hall.
Qed.

Lemma antAmong_no_ants w ns :
  (∀ p o, heap w !! p = Some o → isAnt o = false) → antAmong w ns = false.
Proof.
  intros Hno. unfold antAmong. apply not_true_iff_false.
  intros ([x y] & _ & (p & o & _ & Ho & Hant)%holdsAnt_Some)%existsb_exists.
  rewrite (Hno p o Ho) in Hant. done.
Qed.

(** Below the threshold, a doodlebug that finds no ant constructs nothing. *)
Lemma born_hungry_below this w o :
  heap w !! this = Some o → isAnt o = false → starve o = false →
  (∀ p op, heap w !! p = Some op → isAnt op = false) →
  getBreedCount o + 1 < DOODLE_BREED →
  born (Doodlebug_update this w) = born w.
Proof.
  intros Ho Hant Hst Hno Hlow. rewrite Doodlebug_update_eq.
  replace (this_starve w this) with (starve o) by (unfold this_starve; by rewrite Ho).
  rewrite Hst. lazy zeta. rewrite run_shuffle_eq. lazy beta iota zeta.
  set (N := getNeighbors w (this_X w this) (this_Y w this)).
  pose proof (shuffle_perm GenDoodlebug _ N (env w)) as Hp1.
  set (ns1 := (shuffle GenDoodlebug N (env w)).1) in *.
  set (w1 := with_env _ w).
  rewrite (eatScan_none this ns1 w1) by (by apply antAmong_no_ants).
  cbn [negb]. lazy beta iota. rewrite run_shuffle_eq. lazy beta iota zeta.
  pose proof (shuffle_perm GenDoodlebug _ ns1 (env w1)) as Hp2.
  set (ns2 := (shuffle GenDoodlebug ns1 (env w1)).1) in *.
  set (w2 := with_env _ w1).
  assert (Hin2 : inside w2 ns2).
  { eapply inside_perm; [exact Hp2|]. eapply inside_perm; [exact Hp1|].
    apply (inside_size w); [done|apply inside_getNeighbors]. }
  destruct (moveScan_spec this ns2 w2 o Ho Hin2) as (_ & _ & _ & o4 & Ho4 & Hbc4 & Hk4).
  pose proof (born_moveScan this ns2 w2) as Hborn4.
  set (w4 := (moveScan this ns2 w2).1) in *.
  rewrite Ho4. cbn [from_option].
  set (w5 := setStarve this (getStarveCount o4 + 1) w4).
  assert (Ho5 : heap w5 !! this = Some (org_setStarve (getStarveCount o4 + 1) o4)).
  { unfold w5, setStarve, modify. cbn [heap with_heap]. by rewrite lookup_alter_eq, Ho4. }
  destruct (breedPhase_offspring createDoodlebug (Doodlebug 0) DOODLE_BREED
              GenDoodlebug this ns2 w5 _ (ltac:(done)) Ho5) as [_ Hnone].
  destruct Hnone as [_ ->]; [|exact Hborn4].
  intros [Hge _]. revert Hge.
  replace (getBreedCount (org_setStarve (getStarveCount o4 + 1) o4))
    with (getBreedCount o4) by (by destruct o4 as [? ? ? [] ?]).
  lia.
Qed.

Lemma ticksLeft_positive o : counters_ok o → 1 ≤ ticksLeft o.
Proof.
  intros [_ [_ Hs]]. unfold ticksLeft. destruct (_ <=? _); unfold DOODLE_STARVE in *; lia.
Qed.

Lemma ticksLeft_bound o : counters_ok o → ticksLeft o ≤ 2 * (DOODLE_STARVE + 1).
Proof.
  intros [_ [Hs _]]. unfold ticksLeft. destruct (_ <=? _); unfold DOODLE_STARVE in *; lia.
Qed.

(** The update of a doodlebug in a world without ants: every object of
    the world after it is an untouched object of the world before, or has
    fewer ticks left than the updated doodlebug had. *)
Lemma hungry_update q w oq :
  Invariant w → (∀ p o, heap w !! p = Some o → isAnt o = false) →
  heap w !! q = Some oq →
  ∀ p o', heap (Organism_update q w) !! p = Some o' →
    (p ≠ q ∧ heap w !! p = Some o') ∨ ticksLeft o' ≤ ticksLeft oq - 1.
Proof.
  intros [Hinv Hc] Hno Hq p o' Hp.
  pose proof (Hno q oq Hq) as Hant.
  assert (Hup : Organism_update q w = Doodlebug_update q w).
  { unfold Organism_update. rewrite Hq. unfold isAnt in Hant. by destruct (kind oq). }
  destruct (starve oq) eqn:Hst.
  { left. rewrite Hup, (Doodlebug_update_starved q w oq Hq Hst) in Hp.
    rewrite (deleteCell_occupied _ _ _ q) in Hp by (by apply (inv_position _ Hinv)).
    cbn [heap] in Hp. apply lookup_delete_Some in Hp as [Hne Hp].
    split; [by intros ->|done]. }
  destruct (Doodlebug_update_spec q w oq Hq Hant) as ((_ & _ & Hev) & Hinv1 & Hthis).
  specialize (Hinv1 Hinv).
  destruct (Hthis Hst) as (o1 & Hq1 & _ & Hbc1 & Hs1).
  rewrite (antAmong_no_ants w _ Hno) in Hs1.
  pose proof (Hc q oq Hq) as [Hbq Hsq].
  assert (Hlt : getStarveCount oq < DOODLE_STARVE).
  { unfold starve in Hst. unfold getStarveCount. destruct (kind oq); [done|].
    by apply Z.leb_gt in Hst. }
  assert (Hbt : breedThreshold (kind oq) = DOODLE_BREED).
  { unfold isAnt in Hant. by destruct (kind oq). }
  rewrite Hbt in Hbq. rewrite <- Hup in *.
  destruct (Hev p o' Hp) as [(o0 & Ho0 & _ & Hfr & _)|(Hne & Hser & _ & _ & Hbc & Hsc & _)].
  - destruct (decide (p = q)) as [->|Hne]; [|left; split; [done|by rewrite (Hfr Hne)]].
    right. assert (o' = o1) as -> by congruence.
    unfold ticksLeft. rewrite Hbc1, Hs1. unfold bumped.
    unfold DOODLE_BREED, DOODLE_STARVE in *.
    destruct (Z.leb_spec 8 (getBreedCount oq + 1));
      repeat match goal with |- context [?a <=? ?b] => destruct (Z.leb_spec a b) end; lia.
  - right. destruct (decide (getBreedCount oq + 1 < DOODLE_BREED)) as [Hlow|Hhigh].
    + pose proof (born_hungry_below q w oq Hq Hant Hst Hno Hlow) as Hborn.
      rewrite <- Hup in Hborn. pose proof (inv_serial _ Hinv1 _ _ Hp). lia.
    + unfold ticksLeft. rewrite Hbc, Hsc.
      unfold DOODLE_BREED, DOODLE_STARVE in *.
      repeat match goal with |- context [?a <=? ?b] => destruct (Z.leb_spec a b) end; lia.
Qed.

Lemma hungry_runSnapshot M rest : ∀ w,
  Invariant w → (∀ p o, heap w !! p = Some o → isAnt o = false) → NoDup rest →
  (∀ p o, heap w !! p = Some o → (p ∈ rest ∧ ticksLeft o ≤ M) ∨ ticksLeft o ≤ M - 1) →
  ∀ p o, heap (runSnapshot rest w) !! p = Some o → ticksLeft o ≤ M - 1.
Proof.
  induction rest as [|q rest IH]; intros w Hinv Hno Hnd Hall; cbn [runSnapshot].
  { intros p o Hp. destruct (Hall p o Hp) as [[[]%elem_of_nil _]|?]; done. }
  apply NoDup_cons in Hnd as [Hq Hnd].
  case_decide as Hin.
  - pose proof Hinv as [Hwi _].
    apply (inv_registry _ Hwi) in Hin as Hlive. destruct Hlive as [oq Hoq].
    apply IH; [by apply Invariant_update|by apply species_update|done|].
    intros p o' Hp.
    destruct (hungry_update q w oq Hinv Hno Hoq p o' Hp) as [[Hne Hold]|Hless].
    + destruct (Hall p o' Hold) as [[[?|?]%elem_of_cons ?]|?]; [done|by left|by right].
    + right. destruct (Hall q oq Hoq) as [[_ ?]|?]; lia.
  - apply IH; [done..|]. intros p o Hp.
    destruct (Hall p o Hp) as [[[->|?]%elem_of_cons ?]|?]; [|by left|by right].
    destruct Hin. apply Hinv. by exists o.
Qed.

Lemma hungry_tick M w :
  Invariant w → (∀ p o, heap w !! p = Some o → isAnt o = false) →
  (∀ p o, heap w !! p = Some o → ticksLeft o ≤ M) →
  ∀ p o, heap (World_update w) !! p = Some o → ticksLeft o ≤ M - 1.
Proof.
  intros Hinv Hno Hall. rewrite World_update_eq.
  assert (Hheap0 : heap (tickStart w) = heap w).
  { unfold tickStart. by rewrite run_shuffle_eq. }
  apply hungry_runSnapshot.
  - by apply Invariant_tickStart.
  - by rewrite Hheap0.
  - apply NoDup_tickSnapshot, Hinv.
  - rewrite Hheap0. intros p o Hp. left. split; [|by eapply Hall].
    unfold tickSnapshot. rewrite run_shuffle_eq. cbn [fst]. rewrite shuffle_perm.
    apply Hinv. by exists o.
Qed.

Lemma hungry_ticks n : ∀ w,
  Invariant w → (∀ p o, heap w !! p = Some o → isAnt o = false) →
  (∀ p o, heap w !! p = Some o → ticksLeft o ≤ Z.of_nat n) →
  heap (Nat.iter n World_update w) = ∅.
Proof.
  induction n as [|n IH]; intros w Hinv Hno Hall.
  - apply map_empty. intros p. apply eq_None_not_Some. intros [o Ho].
    pose proof (Hall p o Ho). pose proof (ticksLeft_positive o (proj2 Hinv p o Ho)). lia.
  - rewrite Nat.iter_succ_r. apply IH.
    + by apply Invariant_World_update.
    + intros p o. by apply (species_closed_tick false).
    + intros p o Hp. pose proof (hungry_tick _ w Hinv Hno Hall p o Hp). lia.
Qed.

(** X15. Without ants the doodlebugs die out. In a reachable world in
    which no organism is an ant, a doodlebug whose remaining ticks are
    bounded by [n] (see [ticksLeft]) has disappeared with all its
    descendants after [n] ticks; whatever the counters, the world is empty
    after 8 ticks: the heap holds no object, the registry no entry and
    the grid no occupant. *)
Theorem doodlebugs_die_out_without_ants w :
  reachable w → (∀ p o, heap w !! p = Some o → isAnt o = false) →
  (∀ n, (∀ p o, heap w !! p = Some o → ticksLeft o ≤ Z.of_nat n) →
        heap (Nat.iter n World_update w) = ∅) ∧
  heap (Nat.iter 8 World_update w) = ∅ ∧
  allOrgs (Nat.iter 8 World_update w) = [] ∧
  (∀ x y, getCell (Nat.iter 8 World_update w) x y = None).
Proof.
  intros Hr Hno. pose proof (reachable_Invariant _ Hr) as Hinv.
  assert (H8 : heap (Nat.iter 8 World_update w) = ∅).
  { apply hungry_ticks; [done..|]. intros p o Ho.
    pose proof (ticksLeft_bound o (proj2 Hinv p o Ho)). unfold DOODLE_STARVE in *. lia. }
  assert (Hr8 : reachable (Nat.iter 8 World_update w)).
  { do 8 apply reach_tick. done. }
  apply reachable_Invariant in Hr8 as [Hinv8 _].
  split_and!; [by intros n; apply hungry_ticks|done| |].
  - destruct (allOrgs _) as [|p l] eqn:Hl; [done|].
    assert (Hp : p ∈ allOrgs (Nat.iter 8 World_update w)) by (rewrite Hl; left).
    apply (inv_registry _ Hinv8) in Hp as [o Ho]. by rewrite H8 in Ho.
  - intros x y. destruct (getCell _ x y) as [p|] eqn:Hc; [|done].
    destruct (inv_occupant _ Hinv8 _ _ _ Hc) as (o & Ho & _). by rewrite H8 in Ho.
Qed.

(** ** Creation undone *)

Lemma store_restore (g : list (list (option positive))) x y v :
  cell g x y = None → store (store g x y v) x y None = g.
Proof.
  intros Hcell. unfold store, cell in *. apply list_eq. intros i.
  destruct (decide (i = Z.to_nat x)) as [->|Hne];
    [|by rewrite !list_lookup_alter_ne].
  rewrite !list_lookup_alter_eq.
  destruct (g !! Z.to_nat x) as [row|]; simpl; [|done]. f_equal.
  rewrite list_insert_insert_eq. apply list_insert_id'. intros Hlt.
  destruct (row !! Z.to_nat y) as [c|] eqn:Hc; [by subst|].
  apply lookup_lt_is_Some_2 in Hlt as [? ?]. congruence.
Qed.

Lemma erase_snoc p l : p ∉ l → erase p (l ++ [p]) = l.
Proof.
  induction l as [|q l IH]; intros Hp; cbn [erase app].
  - by rewrite decide_True.
  - apply not_elem_of_cons in Hp as [Hne Hp].
    rewrite decide_False by done. by rewrite IH.
Qed.

(** X16. Creation undone: [deleteCell] on the cell in which [createAnt]
    or [createDoodlebug] has just placed an organism gives the grid, the
    registry and the heap back as they were; only the serial number and
    the step of the allocator are used up. *)
Theorem create_then_delete_restores create k x y w :
  creates create k → WorldInv w → inBounds w x y = true → getCell w x y = None →
  deleteCell x y (create x y w) =
    mkWorld (size w) (age w) (grid w) (allOrgs w) (heap w) (S (born w))
            (new (dom (heap w)) (env w)).2.
Proof.
  intros Hcr Hinv Hb Hempty. rewrite Hcr, Hempty.
  pose proof (new_addr_fresh w) as Hfresh.
  rewrite (deleteCell_occupied _ _ _ (new_addr w)).
  2:{ rewrite getCell_place by (done || apply Hinv). by rewrite decide_True. }
  rewrite place_eq. cbn [size age allOrgs heap born env]. f_equal.
  - unfold setCell, inBounds in *. cbn [size]. rewrite Hb. cbn [negb grid with_grid].
    apply store_restore. unfold getCell, inBounds in Hempty. by rewrite Hb in Hempty.
  - apply erase_snoc. intros [o Ho]%(inv_registry _ Hinv). congruence.
  - by apply delete_insert_id.
Qed.

(** ** Growth *)

Lemma grows_refl w : grows w w.
Proof. split; lia. Qed.

Lemma grows_trans w1 w2 w3 : grows w1 w2 → grows w2 w3 → grows w1 w3.
Proof. intros [? ?] [? ?]. split; lia. Qed.

Lemma grows_same w w' : born w' = born w → allOrgs w' = allOrgs w → grows w w'.
Proof. intros Hb Ha. unfold grows. rewrite Hb, Ha. lia. Qed.

Lemma length_erase p l : (length (erase p l) ≤ length l)%nat.
Proof.
  induction l as [|q l IH]; cbn [erase]; [done|].
  case_decide; simpl; lia.
Qed.

Lemma grows_moveTo this nx ny w : grows w (moveTo this nx ny w).
Proof. apply grows_same; [apply born_moveTo|apply allOrgs_moveTo]. Qed.

Lemma grows_deleteCell x y w : grows w (deleteCell x y w).
Proof.
  destruct (getCell w x y) as [p|] eqn:Hc; [|rewrite deleteCell_empty by done;
                                             apply grows_refl].
  rewrite (deleteCell_occupied _ _ _ _ Hc). split; cbn [born allOrgs]; [done|].
  pose proof (length_erase p (allOrgs w)). lia.
Qed.

Lemma grows_place k x y w : grows w (place k x y w).
Proof. rewrite place_eq. split; cbn [born allOrgs]; [lia|]. rewrite length_app. simpl. lia. Qed.

Lemma grows_moveScan this ns w : grows w (moveScan this ns w).1.
Proof.
  destruct (moveScan_cases this ns w) as [[_ ->]|(nx & ny & _ & _ & ->)];
    [apply grows_refl|apply grows_moveTo].
Qed.

Lemma grows_eatScan this ns w : grows w (eatScan this ns w).1.
Proof.
  destruct (antAmong w ns) eqn:Hnear.
  - destruct (antAmong_split w ns Hnear) as (pre & nx & ny & post & -> & Hpre & Hh).
    rewrite (eatScan_first this pre nx ny post w) by done. cbn [fst].
    eapply grows_trans; [apply grows_deleteCell|].
    eapply grows_trans; [apply grows_moveTo|by apply grows_same].
  - rewrite eatScan_none by done. apply grows_refl.
Qed.

Lemma grows_breedPhase create k threshold g this ns w :
  creates create k → grows w (breedPhase create threshold g this ns w).
Proof.
  intros Hcr. unfold breedPhase. lazy zeta.
  destruct (threshold <=? _); [|by apply grows_same].
  rewrite run_shuffle_eq. lazy beta iota zeta.
  set (w4 := with_env (shuffle g ns (env (incBreed this w))).2 (incBreed this w)).
  destruct (breedScan_cases create k (shuffle g ns (env (incBreed this w))).1 w4 Hcr)
    as [[_ ->]|(nx & ny & _ & _ & ->)]; [by apply grows_same|].
  eapply (grows_trans _ w4); [by apply grows_same|].
  eapply (grows_trans _ (place k nx ny w4)); [apply grows_place|by apply grows_same].
Qed.

Lemma grows_update this w : grows w (Organism_update this w).
Proof.
  unfold Organism_update. destruct (heap w !! this) as [o|]; [|apply grows_refl].
  destruct (kind o) as [|s].
  - rewrite Ant_update_eq. lazy zeta. rewrite run_shuffle_eq. lazy beta iota zeta.
    set (ns1 := (shuffle GenAnt _ (env w)).1).
    set (w1 := with_env _ w).
    eapply (grows_trans _ w1); [by apply grows_same|].
    eapply grows_trans; [apply (grows_moveScan this ns1)|].
    by apply (grows_breedPhase createAnt Ant).
  - rewrite Doodlebug_update_eq. destruct (this_starve w this); [apply grows_deleteCell|].
    lazy zeta. rewrite run_shuffle_eq. lazy beta iota zeta.
    set (ns1 := (shuffle GenDoodlebug _ (env w)).1).
    set (w1 := with_env _ w).
    pose proof (grows_eatScan this ns1 w1) as Heat.
    destruct (eatScan this ns1 w1) as [w2 ate]. cbn [fst] in Heat.
    eapply (grows_trans _ w1); [by apply grows_same|].
    eapply grows_trans; [exact Heat|].
    destruct ate; cbn [negb].
    + by apply (grows_breedPhase createDoodlebug (Doodlebug 0)).
    + rewrite run_shuffle_eq. lazy beta iota zeta.
      set (ns2 := (shuffle GenDoodlebug ns1 (env w2)).1).
      set (w3 := with_env _ w2).
      eapply (grows_trans _ w3); [by apply grows_same|].
      eapply grows_trans; [apply (grows_moveScan this ns2)|].
      eapply grows_trans; [|by apply (grows_breedPhase createDoodlebug (Doodlebug 0))].
      by apply grows_same.
Qed.

Lemma grows_runSnapshot snapshot : ∀ w,
  grows w (runSnapshot snapshot w) ∧
  (born (runSnapshot snapshot w) ≤ born w + length snapshot)%nat.
Proof.
  induction snapshot as [|q rest IH]; intros w; cbn [runSnapshot].
  { split; [apply grows_refl|lia]. }
  case_decide.
  - destruct (IH (Organism_update q w)) as [Hg Hb].
    pose proof (grows_update q w) as Hg1. pose proof (born_update_le q w) as Hb1.
    split; [by eapply grows_trans|]. simpl. lia.
  - destruct (IH w) as [Hg Hb]. split; [done|]. simpl. lia.
Qed.

(** X17. A tick constructs at most one organism per entry of the
    registry, so the population at most doubles in a tick. *)
Theorem population_at_most_doubles w :
  WorldInv w →
  (born (World_update w) ≤ born w + length (allOrgs w))%nat ∧
  (length (allOrgs (World_update w)) ≤ 2 * length (allOrgs w))%nat.
Proof.
  intros _. rewrite World_update_eq.
  destruct (grows_runSnapshot (tickSnapshot w) (tickStart w)) as [[Hb Hg] Hle].
  assert (Hlen : length (tickSnapshot w) = length (allOrgs w)).
  { unfold tickSnapshot. rewrite run_shuffle_eq. cbn [fst]. by rewrite shuffle_perm. }
  assert (Hborn0 : born (tickStart w) = born w).
  { unfold tickStart. by rewrite run_shuffle_eq. }
  assert (Hall0 : allOrgs (tickStart w) = allOrgs w).
  { unfold tickStart. by rewrite run_shuffle_eq. }
  rewrite Hborn0, Hall0 in *. lia.
Qed.

End Further.

(** * The claims on the concrete worlds *)

Module Runs.
Import Script Worlds.

(** The three scenarios of the specification. *)
Example isolated_prey :
  map_to_list (heap (World_update loneAnt)) = [(1%positive, mkOrganism 0 0 1 Ant 0)] ∧
  map_to_list (heap (World_update (World_update loneAnt))) =
    [(1%positive, mkOrganism 0 0 2 Ant 0)] ∧
  map_to_list (heap (World_update (World_update (World_update loneAnt)))) =
    [(1%positive, mkOrganism 0 0 0 Ant 0)].
Proof. split_and!; vm_compute; reflexivity. Qed.

Example predation :
  grid (World_update predatorAndPrey) = [[None; Some 1%positive]; [None; None]] ∧
  allOrgs (World_update predatorAndPrey) = [1%positive] ∧
  map_to_list (heap (World_update predatorAndPrey)) =
    [(1%positive, mkOrganism 0 1 1 (Doodlebug 0) 0)].
Proof. split_and!; vm_compute; reflexivity. Qed.

Example starvation :
  map_to_list (heap hungry) = [(1%positive, mkOrganism 0 0 3 (Doodlebug 3) 0)] ∧
  allOrgs (World_update hungry) = [] ∧
  grid (World_update hungry) = [[None]].
Proof. split_and!; vm_compute; reflexivity. Qed.

Lemma reachable_predatorAndPrey : reachable predatorAndPrey.
Proof.
  apply reach_ant; [apply reach_doodlebug; [apply reach_new|]|]; reflexivity.
Qed.

Lemma reachable_hungry : reachable hungry.
Proof.
  do 3 apply reach_tick. apply reach_doodlebug; [apply reach_new|reflexivity].
Qed.

Lemma reachable_antAboutToBreed : reachable antAboutToBreed.
Proof.
  do 2 apply reach_tick. apply reach_ant; [apply reach_new|reflexivity].
Qed.

Lemma reachable_beforeTheMeal : reachable beforeTheMeal.
Proof.
  do 2 apply reach_tick.
  apply reach_ant; [apply reach_ant; [apply reach_doodlebug; [apply reach_new|]|]|];
    reflexivity.
Qed.

Lemma tick_keeps_grid_and_registry_consistent_witness :
  Consistent (World_update predatorAndPrey).
Proof.
  apply tick_keeps_grid_and_registry_consistent, reachable_predatorAndPrey.
Defined.

Lemma starving_doodlebug_is_removed_first_witness :
  Organism_update 1%positive hungry = deleteCell 0 0 hungry ∧
  allOrgs (Organism_update 1%positive hungry) = [] ∧
  getCell (Organism_update 1%positive hungry) 0 0 = None.
Proof.
  destruct (starving_doodlebug_is_removed_first 1%positive hungry
              (mkOrganism 0 0 3 (Doodlebug 3) 0) 3) as (H1 & H2 & _ & _ & H5).
  - apply reachable_Invariant, reachable_hungry.
  - vm_compute. reflexivity.
  - reflexivity.
  - unfold DOODLE_STARVE. lia.
  - split; [exact H1|]. split; [rewrite H2; vm_compute; reflexivity|].
    rewrite H5. reflexivity.
Defined.

Lemma doodlebug_eats_first_ant_witness :
  getCell (Organism_update 1%positive predatorAndPrey) 0 1 = Some 1%positive ∧
  getCell (Organism_update 1%positive predatorAndPrey) 0 0 = None ∧
  removed 1 (Organism_update 1%positive predatorAndPrey).
Proof.
  destruct (doodlebug_eats_first_ant 1%positive predatorAndPrey
              (mkOrganism 0 0 0 (Doodlebug 0) 0) 0 [] 0 1 [(1, 0)]
              2%positive (mkOrganism 0 1 0 Ant 1))
    as (H1 & _ & _ & H4 & H5 & _).
  - apply reachable_Invariant, reachable_predatorAndPrey.
  - vm_compute. reflexivity.
  - reflexivity.
  - unfold DOODLE_STARVE. lia.
  - vm_compute. reflexivity.
  - reflexivity.
  - vm_compute. reflexivity.
  - vm_compute. reflexivity.
  - reflexivity.
  - exact (conj H4 (conj H5 H1)).
Defined.

Lemma starveCount_at_end_of_tick_witness :
  ∃ o', heap (World_update predatorAndPrey) !! 1%positive = Some o' ∧ serial o' = 0%nat.
Proof.
  destruct (starveCount_at_end_of_tick predatorAndPrey 1%positive
              (mkOrganism 0 0 0 (Doodlebug 0) 0) 0)
    as (pre & post & o' & _ & _ & _ & _ & Ho' & Hs & _).
  - apply reachable_predatorAndPrey.
  - vm_compute. reflexivity.
  - reflexivity.
  - unfold DOODLE_STARVE. lia.
  - exists o'. split; [exact Ho'|exact Hs].
Defined.

Lemma breedCount_after_update_witness :
  ∃ o', heap (Organism_update 1%positive antAboutToBreed) !! 1%positive = Some o' ∧
        getBreedCount o' = 0.
Proof.
  destruct (breedCount_after_update 1%positive antAboutToBreed
              (mkOrganism 1 1 2 Ant 0)) as [(o' & Ho' & _ & _ & Hreset) _].
  - vm_compute. reflexivity.
  - reflexivity.
  - exists o'. split; [exact Ho'|]. apply Hreset. vm_compute. discriminate.
Defined.

Lemma update_at_most_once_per_tick_witness :
  NoDup (invoked (tickSnapshot beforeTheMeal) (tickStart beforeTheMeal)).
Proof.
  destruct (update_at_most_once_per_tick beforeTheMeal) as [H _].
  - apply reachable_beforeTheMeal.
  - exact H.
Defined.

Lemma create_never_overwrites_witness :
  createAnt 0 0 predatorAndPrey = predatorAndPrey ∧
  createDoodlebug 0 0 predatorAndPrey = predatorAndPrey.
Proof.
  destruct (create_never_overwrites predatorAndPrey 0 0) as [H _].
  - reflexivity.
  - apply (H 1%positive). vm_compute. reflexivity.
Defined.

Lemma grid_access_is_total_witness :
  getCell predatorAndPrey (-1) 0 = None ∧
  setCell 2 0 (Some 1%positive) predatorAndPrey = predatorAndPrey ∧
  length (getNeighbors (World_new 3 quiet) 1 1) = 4%nat ∧
  length (getNeighbors (World_new 3 quiet) 0 2) = 2%nat ∧
  length (getNeighbors (World_new 3 quiet) 0 1) = 3%nat ∧
  length (getNeighbors (World_new 3 quiet) 1 2) = 3%nat.
Proof.
  split_and!.
  - destruct (grid_access_is_total predatorAndPrey (-1) 0) as ([H _] & _);
      [reflexivity|exact H].
  - destruct (grid_access_is_total predatorAndPrey 2 0) as ([_ H] & _);
      [reflexivity|apply H].
  - destruct (grid_access_is_total (World_new 3 quiet) 1 1) as (_ & _ & _ & _ & H & _).
    apply H; simpl; lia.
  - destruct (grid_access_is_total (World_new 3 quiet) 0 2) as (_ & _ & _ & _ & _ & H & _).
    apply H; simpl; lia.
  - destruct (grid_access_is_total (World_new 3 quiet) 0 1)
      as (_ & _ & _ & _ & _ & _ & H & _).
    apply H; simpl; lia.
  - destruct (grid_access_is_total (World_new 3 quiet) 1 2)
      as (_ & _ & _ & _ & _ & _ & _ & H).
    apply H; simpl; lia.
Defined.

(** On a grid of side 1 the only cell, a corner, has no neighbour. *)
Lemma lone_cell_has_no_neighbour :
  inBounds (World_new 1 quiet) 0 0 = true ∧
  getNeighbors (World_new 1 quiet) 0 0 = [] ∧
  ¬ (2 ≤ length (getNeighbors (World_new 1 quiet) 0 0) ≤ 3)%nat.
Proof. split_and!; [reflexivity|reflexivity|simpl; lia]. Qed.

Lemma targets_are_neighbours_of_start_position_witness :
  (1, 0) ∈ getNeighbors antAboutToBreed 1 1.
Proof.
  destruct (targets_are_neighbours_of_start_position 1%positive antAboutToBreed
              (mkOrganism 1 1 2 Ant 0)) as [_ H].
  - apply reachable_Invariant, reachable_antAboutToBreed.
  - vm_compute. reflexivity.
  - apply (H 2%positive (mkOrganism 1 0 0 Ant 1)).
    + vm_compute. reflexivity.
    + vm_compute. lia.
Defined.

(** The ant of [antAboutToBreed] moves from (1,1) to (1,2) and breeds: the
    offspring is placed in (1,0), a neighbour of the cell the ant left and
    not of the cell it stands in. *)
Lemma offspring_placed_next_to_the_cell_left :
  ∃ parent child,
    heap (Organism_update 1%positive antAboutToBreed) !! 1%positive = Some parent ∧
    heap (Organism_update 1%positive antAboutToBreed) !! 2%positive = Some child ∧
    (born antAboutToBreed ≤ serial child)%nat ∧
    (getX parent, getY parent) = (1, 2) ∧
    (getX child, getY child) = (1, 0) ∧
    (getX child, getY child) ∉
      getNeighbors (Organism_update 1%positive antAboutToBreed)
        (getX parent) (getY parent).
Proof.
  exists (mkOrganism 1 2 0 Ant 0), (mkOrganism 1 0 0 Ant 1).
  split_and!; try (vm_compute; reflexivity).
  apply (bool_decide_unpack _). vm_compute. exact I.
Qed.

(** C7. The third tick of [beforeTheMeal]: the doodlebug eats the ant at
    address 3, the other ant breeds and [new] gives the offspring address 3,
    and the loop, reaching the snapshot entry 3, finds it in [allOrgs] and
    updates the offspring (serial number 3) in the tick of its birth. *)
Theorem newborn_updated_in_its_birth_tick :
  reachable beforeTheMeal ∧
  born beforeTheMeal = 3%nat ∧
  tickSnapshot beforeTheMeal = [1; 2; 3]%positive ∧
  invoked (tickSnapshot beforeTheMeal) (tickStart beforeTheMeal) = [0; 1; 3]%nat ∧
  heap (World_update beforeTheMeal) !! 3%positive = Some (mkOrganism 1 2 1 Ant 3).
Proof.
  split; [apply reachable_beforeTheMeal|].
  split_and!; vm_compute; reflexivity.
Qed.

Lemma new_elsewhere_fresh live r : (new_elsewhere live r).1 ∉ live ∪ reserved.
Proof. apply is_fresh. Qed.

Lemma newborn_waits_when_no_address_is_reused_witness :
  Forall (λ k, (k < born beforeTheMeal)%nat)
    (invoked (RT := careful) (tickSnapshot (RT := careful) beforeTheMeal)
       (tickStart (RT := careful) beforeTheMeal)).
Proof.
  apply Forall_forall. intros k Hk.
  apply (newborn_waits_when_no_address_is_reused (RT := careful)
           (λ p, p ∈ reserved) beforeTheMeal); [| | |exact Hk].
  - intros live r Hin. apply (new_elsewhere_fresh live r).
    apply elem_of_union. right. exact Hin.
  - apply reachable_Invariant, reachable_beforeTheMeal.
  - intros p Hp. apply (bool_decide_unpack _).
    revert p Hp. apply Forall_forall. vm_compute.
    repeat constructor.
Defined.


(** ** The further properties on the concrete worlds *)

Lemma creates_createAnt : creates (R := State) createAnt Ant.
Proof. intros x y w. reflexivity. Qed.

Lemma heap_loneAnt : heap loneAnt = {[1%positive := mkOrganism 0 0 0 Ant 0]}.
Proof. vm_compute. reflexivity. Qed.

Lemma heap_antAboutToBreed :
  heap antAboutToBreed = {[1%positive := mkOrganism 1 1 2 Ant 0]}.
Proof. vm_compute. reflexivity. Qed.

Lemma heap_hungry : heap hungry = {[1%positive := mkOrganism 0 0 3 (Doodlebug 3) 0]}.
Proof. vm_compute. reflexivity. Qed.

Lemma draws_nonnegative : Forall (λ r, 0 ≤ r) draws.
Proof. apply (bool_decide_unpack _). vm_compute. exact I. Qed.


Lemma counters_stay_below_thresholds_witness :
  0 ≤ getBreedCount (mkOrganism 0 0 3 (Doodlebug 3) 0) < breedThreshold (Doodlebug 3).
Proof.
  destruct (counters_stay_below_thresholds hungry 1%positive
              (mkOrganism 0 0 3 (Doodlebug 3) 0) reachable_hungry) as [H _].
  - vm_compute. reflexivity.
  - exact H.
Defined.

Lemma ant_update_outcome_witness :
  ∃ a, allOrgs (Organism_update 1%positive antAboutToBreed) =
       allOrgs antAboutToBreed ++ [a].
Proof.
  destruct (ant_update_outcome 1%positive antAboutToBreed (mkOrganism 1 1 2 Ant 0))
    as (_ & _ & Hyes & _).
  - apply reachable_Invariant, reachable_antAboutToBreed.
  - vm_compute. reflexivity.
  - reflexivity.
  - destruct Hyes as (a & oa & Hall & _).
    + split; [unfold ANT_BREED; simpl; lia|vm_compute; lia].
    + exists a. exact Hall.
Defined.

Lemma doodlebug_update_outcome_witness :
  born (Organism_update 1%positive predatorAndPrey) = born predatorAndPrey.
Proof.
  destruct (doodlebug_update_outcome 1%positive predatorAndPrey
              (mkOrganism 0 0 0 (Doodlebug 0) 0)) as (_ & _ & Hno).
  - apply reachable_Invariant, reachable_predatorAndPrey.
  - vm_compute. reflexivity.
  - reflexivity.
  - reflexivity.
  - apply Hno. intros [H _]. unfold DOODLE_BREED in H. simpl in H. lia.
Defined.

Lemma population_fits_the_grid_witness :
  (length (allOrgs predatorAndPrey) ≤
     Z.to_nat (size predatorAndPrey) * Z.to_nat (size predatorAndPrey))%nat.
Proof.
  destruct (population_fits_the_grid predatorAndPrey reachable_predatorAndPrey)
    as [_ H].
  exact H.
Defined.

Lemma initialize_populates_witness :
  ∃ w' rest, initialize draws mainWorld = Returns w' rest ∧
             reachable w' ∧ length (allOrgs w') = 105%nat.
Proof.
  destruct (initialize draws mainWorld) as [w' rest| |] eqn:Hout;
    [|vm_compute in Hout; discriminate..].
  exists w', rest.
  destruct (initialize_populates draws mainWorld w' rest)
    as (Hr & _ & _ & (doodles & ants & Hall & Hd & Ha & _) & _).
  - apply reach_new.
  - simpl. lia.
  - apply draws_nonnegative.
  - exact Hout.
  - split; [reflexivity|]. split; [exact Hr|].
    rewrite Hall, !length_app. unfold INIT_DOODLES, INIT_ANTS in *. simpl. lia.
Defined.

Lemma initialize_spins_without_room_witness :
  initialize draws (World_new 10 quiet) = Spins.
Proof.
  apply (initialize_spins_without_room draws (World_new 10 quiet)).
  - apply reach_new.
  - simpl. lia.
  - apply draws_nonnegative.
  - unfold INIT_DOODLES, INIT_ANTS. simpl. lia.
Defined.

Lemma initialize_returns_with_room_witness :
  ∃ rands w', Forall (λ r, 0 ≤ r < size mainWorld) rands ∧
              initialize rands mainWorld = Returns w' [].
Proof.
  apply initialize_returns_with_room.
  - apply reach_new.
  - simpl. lia.
  - unfold INIT_DOODLES, INIT_ANTS. simpl. lia.
Defined.

Lemma destructor_frees_every_organism_witness :
  World_delete predatorAndPrey = Some ∅.
Proof.
  apply destructor_frees_every_organism, reachable_Invariant, reachable_predatorAndPrey.
Defined.

Lemma create_outside_the_grid_leaves_an_orphan_witness :
  ∃ a, allOrgs (createAnt 5 5 predatorAndPrey) = allOrgs predatorAndPrey ++ [a] ∧
       ¬ Consistent (createAnt 5 5 predatorAndPrey).
Proof.
  destruct (create_outside_the_grid_leaves_an_orphan createAnt Ant 5 5 predatorAndPrey)
    as (a & _ & Hall & _ & _ & Hbad & _).
  - apply creates_createAnt.
  - apply reachable_Invariant, reachable_predatorAndPrey.
  - reflexivity.
  - exists a. split; [exact Hall|exact Hbad].
Defined.

Lemma offspring_of_an_update_witness :
  born (Organism_update 1%positive antAboutToBreed) = S (born antAboutToBreed).
Proof.
  destruct (offspring_of_an_update 1%positive antAboutToBreed (mkOrganism 1 1 2 Ant 0)
              2%positive (mkOrganism 1 0 0 Ant 1)) as (_ & _ & _ & _ & _ & _ & H & _).
  - apply reachable_Invariant, reachable_antAboutToBreed.
  - vm_compute. reflexivity.
  - vm_compute. reflexivity.
  - vm_compute. lia.
  - exact H.
Defined.

Lemma species_closed_under_ticks_witness :
  isAnt (mkOrganism 0 0 0 Ant 0) = true.
Proof.
  apply (species_closed_under_ticks true 3 loneAnt 1%positive).
  - intros q oq. rewrite heap_loneAnt. by intros [_ <-]%lookup_singleton_Some.
  - vm_compute. reflexivity.
Defined.

Lemma predator_free_tick_witness :
  ∃ news, allOrgs (World_update antAboutToBreed) = allOrgs antAboutToBreed ++ news.
Proof.
  destruct (predator_free_tick antAboutToBreed) as [H _].
  - apply reachable_Invariant, reachable_antAboutToBreed.
  - intros q oq. rewrite heap_antAboutToBreed. by intros [_ <-]%lookup_singleton_Some.
  - exact H.
Defined.

Lemma doodlebugs_die_out_without_ants_witness :
  heap (Nat.iter 8 World_update hungry) = ∅.
Proof.
  destruct (doodlebugs_die_out_without_ants hungry) as (_ & H & _).
  - apply reachable_hungry.
  - intros q oq. rewrite heap_hungry. by intros [_ <-]%lookup_singleton_Some.
  - exact H.
Defined.

Lemma create_then_delete_restores_witness :
  grid (deleteCell 1 1 (createAnt 1 1 predatorAndPrey)) = grid predatorAndPrey ∧
  allOrgs (deleteCell 1 1 (createAnt 1 1 predatorAndPrey)) = allOrgs predatorAndPrey.
Proof.
  rewrite (create_then_delete_restores createAnt Ant 1 1 predatorAndPrey).
  - split; reflexivity.
  - apply creates_createAnt.
  - apply reachable_Invariant, reachable_predatorAndPrey.
  - reflexivity.
  - reflexivity.
Defined.

Lemma population_at_most_doubles_witness :
  (length (allOrgs (World_update predatorAndPrey)) ≤
     2 * length (allOrgs predatorAndPrey))%nat.
Proof.
  destruct (population_at_most_doubles predatorAndPrey) as [_ H].
  - apply reachable_Invariant, reachable_predatorAndPrey.
  - exact H.
Defined.


End Runs.
